(** * mne.decoding.search_light: SearchLight and GeneralizationLight

    A shallow embedding of [mne/decoding/search_light.py] together with the
    part of numpy it relies on, and the properties of the sliced-ensemble
    engine stated in the specification.

    Conventions.
    - A numpy array is a record of a shape, a numeric kind and its elements
      in row-major (C) order.  There are two kinds: [int_], numpy's [int]
      (64-bit signed), and [float_], float64.  Elements are rationals, and a
      value of a float array stands for the double it is.  The conversions
      numpy applies when a value is stored into an array of the other kind
      are kept: truncation toward zero into the 64-bit range, and rounding
      of an integer to the nearest double.
    - Python exceptions are values of [exn]; a computation that may raise is
      in the monad [M], which also records, in order, every call made on a
      model object (clone, fit, transform, predict, ..., score).
    - The parallel runner is not part of the sources; it is modelled from
      the specification as running the deferred calls in input order.  With
      more than one job the real runner may start a job before an earlier
      one has failed: a statement that lists the calls made on models
      before a failure is made for one job only. *)

From Stdlib Require Import String.
From Stdlib Require Import Arith ZArith QArith Qround Bool Lia PeanoNat List.
Import ListNotations.

Set Implicit Arguments.
Local Open Scope string_scope.
Local Open Scope nat_scope.
Local Open Scope list_scope.

(** ** Python exceptions *)

Inductive exn : Type :=
| ValueError (msg : string)
| AttributeError (attr : string)
| UnboundLocalError (var : string)
| IndexError (msg : string)
| TypeError (msg : string)
| ModelError (code : nat).

(** ** numpy arrays *)

Module np.

Inductive kind : Type := int_ | float_.

Record ndarray : Type := mk_nd {
  shape : list nat;
  dtype : kind;
  data : list Q
}.

(** [np.prod] of a shape: the number of elements. *)
Definition size (sh : list nat) : nat := fold_right Nat.mul 1 sh.

Definition ndim (a : ndarray) : nat := length (shape a).

(** An array is well formed when it holds one element per index. *)
Definition wf (a : ndarray) : Prop := length (data a) = size (shape a).

(** Row-major offset of a multi-index. *)
Fixpoint ravel (sh idx : list nat) : nat :=
  match sh, idx with
  | _ :: sh', i :: idx' => i * size sh' + ravel sh' idx'
  | _, _ => 0
  end.

Definition get (a : ndarray) (idx : list nat) : Q :=
  nth (ravel (shape a) idx) (data a) 0%Q.

(** The elements, in row-major order, of the array of shape [sh] whose
    element at multi-index [idx] is [g idx]. *)
Fixpoint build (sh : list nat) (g : list nat -> Q) : list Q :=
  match sh with
  | [] => [g []]
  | d :: sh' => flat_map (fun i => build sh' (fun idx => g (i :: idx))) (seq 0 d)
  end.

(** Truncation toward zero. *)
Definition trunc (q : Q) : Q := inject_Z (Z.quot (Qnum q) (Zpos (Qden q))).

(** The range of numpy's [int], the 64-bit signed integer. *)
Definition int_min : Z := (- 2 ^ 63)%Z.

Definition int_max : Z := (2 ^ 63 - 1)%Z.

(** A double converted to [int]: the C conversion truncates toward zero; a
    value outside the 64-bit range comes out as the least integer (what the
    conversion instruction of x86-64 yields). *)
Definition to_int (q : Q) : Q :=
  let z := Z.quot (Qnum q) (Zpos (Qden q)) in
  if ((int_min <=? z) && (z <=? int_max))%Z
  then inject_Z z
  else inject_Z int_min.

(** The double nearest to an integer: integers below 2^53 in magnitude are
    doubles; a larger one is rounded to 53 significant bits, a tie going to
    the even significand. *)
Definition round53 (z : Z) : Z :=
  let a := Z.abs z in
  let e := Z.log2 a in
  if (e <? 53)%Z then z
  else
    let sh := (e - 52)%Z in
    let q := Z.shiftr a sh in
    let r := (a - Z.shiftl q sh)%Z in
    let half := Z.shiftl 1 (sh - 1) in
    let q' := if (r <? half)%Z then q
              else if (half <? r)%Z then (q + 1)%Z
              else if Z.even q then q else (q + 1)%Z in
    (Z.sgn z * Z.shiftl q' sh)%Z.

(** An [int] converted to a double. *)
Definition to_float (q : Q) : Q :=
  inject_Z (round53 (Z.quot (Qnum q) (Zpos (Qden q)))).

(** The conversion of a value of an array of kind [src] stored into an
    array of kind [dst]. *)
Definition cast (src dst : kind) (q : Q) : Q :=
  match src, dst with
  | float_, int_ => to_int q
  | int_, float_ => to_float q
  | _, _ => q
  end.

(** [np.zeros(sh)] has kind float64; [np.zeros(sh, int)] has kind int. *)
Definition zeros (sh : list nat) (k : kind) : ndarray :=
  mk_nd sh k (repeat 0%Q (size sh)).

(** [np.reshape(a, sh)]. *)
Definition reshape (a : ndarray) (sh : list nat) : exn + ndarray :=
  if size sh =? length (data a)
  then inr (mk_nd sh (dtype a) (data a))
  else inl (ValueError "cannot reshape array").

(** Position of axis [ax] in the permutation [perm]. *)
Fixpoint index_of (ax : nat) (perm : list nat) : nat :=
  match perm with
  | [] => 0
  | p :: perm' => if p =? ax then 0 else S (index_of ax perm')
  end.

(** [np.transpose(a, perm)]: axis [k] of the result is axis [perm[k]] of
    [a]. *)
Definition transpose (a : ndarray) (perm : list nat) : ndarray :=
  let sh := map (fun p => nth p (shape a) 0) perm in
  mk_nd sh (dtype a)
    (build sh (fun idx =>
       get a (map (fun ax => nth (index_of ax perm) idx 0) (seq 0 (length perm))))).

(** [a.T]: the axes reversed. *)
Definition T (a : ndarray) : ndarray := transpose a (rev (seq 0 (ndim a))).

(** [a[..., ii]]. *)
Definition getitem_last (a : ndarray) (ii : nat) : exn + ndarray :=
  match rev (shape a) with
  | [] => inl (IndexError "too many indices for array")
  | t :: _ =>
      if ii <? t
      then let sh := removelast (shape a) in
           inr (mk_nd sh (dtype a) (build sh (fun idx => get a (idx ++ [ii]))))
      else inl (IndexError "index out of bounds")
  end.

(** [a[..., off:off+sz]], for a range inside the last axis. *)
Definition slice_last (a : ndarray) (off sz : nat) : ndarray :=
  let sh := removelast (shape a) ++ [sz] in
  mk_nd sh (dtype a)
    (build sh (fun idx => get a (removelast idx ++ [off + last idx 0]))).

(** Section sizes of [np.array_split]: with [l = q * k + r], the first [r]
    sections have [q + 1] entries and the others [q]. *)
Definition section_sizes (l k : nat) : list nat :=
  repeat (l / k + 1) (l mod k) ++ repeat (l / k) (k - l mod k).

(** Sections as (offset, size) pairs, by cumulative sum. *)
Fixpoint sections_from (off : nat) (sizes : list nat) : list (nat * nat) :=
  match sizes with
  | [] => []
  | s :: sizes' => (off, s) :: sections_from (off + s) sizes'
  end.

Definition sections (l k : nat) : list (nat * nat) :=
  sections_from 0 (section_sizes l k).

(** [np.array_split(a, k, axis=-1)]. *)
Definition array_split (a : ndarray) (k : nat) : exn + list ndarray :=
  if k =? 0 then inl (ValueError "number sections must be larger than 0.")
  else match rev (shape a) with
       | [] => inl (IndexError "tuple index out of range")
       | t :: _ =>
           inr (map (fun s => slice_last a (fst s) (snd s)) (sections t k))
       end.

(** [np.array_split(l, k)] on a one-dimensional sequence of objects. *)
Definition list_split {A : Type} (l : list A) (k : nat) : exn + list (list A) :=
  if k =? 0 then inl (ValueError "number sections must be larger than 0.")
  else inr (map (fun s => firstn (snd s) (skipn (fst s) l))
                (sections (length l) k)).

(** An index expression [a[p1, ..., pk, ...]]: every [p] is the full slice
    [:] or an integer, and the expression ends with an ellipsis. *)
Inductive ix : Type := All | At (i : nat).

(** Shape of the view [a[pat, ...]] of an array of shape [sh]. *)
Fixpoint view_shape (pat : list ix) (sh : list nat) : exn + list nat :=
  match pat, sh with
  | [], _ => inr sh
  | _ :: _, [] => inl (IndexError "too many indices for array")
  | All :: pat', d :: sh' =>
      match view_shape pat' sh' with
      | inr v => inr (d :: v)
      | inl e => inl e
      end
  | At i :: pat', d :: sh' =>
      if i <? d then view_shape pat' sh'
      else inl (IndexError "index out of bounds")
  end.

(** Where the element of [a] at [idx] sits in the view [a[pat, ...]]; [None]
    when the view does not select it. *)
Fixpoint view_index (pat : list ix) (idx : list nat) : option (list nat) :=
  match pat, idx with
  | [], _ => Some idx
  | _ :: _, [] => None
  | All :: pat', i :: idx' => option_map (cons i) (view_index pat' idx')
  | At j :: pat', i :: idx' => if i =? j then view_index pat' idx' else None
  end.

(** Assignment strips leading axes of length one from a value that has more
    axes than its target. *)
Fixpoint squeeze_to (m : nat) (vsh : list nat) : list nat :=
  match vsh with
  | 1 :: vsh' => if m <? length vsh then squeeze_to m vsh' else vsh
  | _ => vsh
  end.

Fixpoint bcast_ok (vsh tsh : list nat) : bool :=
  match vsh, tsh with
  | [], [] => true
  | d :: vsh', t :: tsh' => ((d =? t) || (d =? 1)) && bcast_ok vsh' tsh'
  | _, _ => false
  end.

(** Whether a value of shape [vsh] broadcasts to a target of shape [tsh]:
    trailing axes are aligned and each axis of the value has the length of
    the target's or length one. *)
Definition broadcastable (vsh tsh : list nat) : bool :=
  let v := squeeze_to (length tsh) vsh in
  (length v <=? length tsh) && bcast_ok v (skipn (length tsh - length v) tsh).

Fixpoint bcast_index (vsh idx : list nat) : list nat :=
  match vsh, idx with
  | d :: vsh', i :: idx' => (if d =? 1 then 0 else i) :: bcast_index vsh' idx'
  | _, _ => []
  end.

(** Element of the value [v], broadcast to its target, at the target's
    multi-index [idx]. *)
Definition bget (v : ndarray) (idx : list nat) : Q :=
  let vsh := squeeze_to (length idx) (shape v) in
  nth (ravel vsh (bcast_index vsh (skipn (length idx - length vsh) idx)))
      (data v) 0%Q.

(** [a[pat, ...] = v], as the array [a] becomes: the value is broadcast to
    the view and converted to the kind of [a]. *)
Definition setitem (a : ndarray) (pat : list ix) (v : ndarray) : exn + ndarray :=
  match view_shape pat (shape a) with
  | inl e => inl e
  | inr tsh =>
      if broadcastable (shape v) tsh
      then inr (mk_nd (shape a) (dtype a)
                  (build (shape a) (fun idx =>
                     match view_index pat idx with
                     | Some vidx => cast (dtype v) (dtype a) (bget v vidx)
                     | None => get a idx
                     end)))
      else inl (ValueError "could not broadcast input array")
  end.

Fixpoint set_nth (k x : nat) (l : list nat) : list nat :=
  match l, k with
  | [], _ => []
  | _ :: l', 0 => x :: l'
  | y :: l', S k' => y :: set_nth k' x l'
  end.

Fixpoint shape_eqb (s1 s2 : list nat) : bool :=
  match s1, s2 with
  | [], [] => true
  | a :: s1', b :: s2' => (a =? b) && shape_eqb s1' s2'
  | _, _ => false
  end.

(** Which array of a concatenation, and which index inside it, the index
    [i] along the concatenation axis falls in. *)
Fixpoint locate (i : nat) (dims : list nat) : nat * nat :=
  match dims with
  | [] => (0, i)
  | d :: dims' =>
      if i <? d then (0, i)
      else let (j, i') := locate (i - d) dims' in (S j, i')
  end.

Definition promote (k1 k2 : kind) : kind :=
  match k1, k2 with
  | int_, int_ => int_
  | _, _ => float_
  end.

(** [np.concatenate(arrs, axis)]: the result has the common kind of the
    arrays, to which the elements are converted. *)
Definition concatenate (arrs : list ndarray) (axis : nat) : exn + ndarray :=
  match arrs with
  | [] => inl (ValueError "need at least one array to concatenate")
  | a0 :: rest =>
      if negb (axis <? ndim a0) then inl (IndexError "axis out of bounds")
      else if negb (forallb (fun a => shape_eqb (set_nth axis 0 (shape a))
                                               (set_nth axis 0 (shape a0))) rest)
      then inl (ValueError "all the input array dimensions must match")
      else
        let dims := map (fun a => nth axis (shape a) 0) arrs in
        let sh := set_nth axis (fold_right Nat.add 0 dims) (shape a0) in
        let k := fold_right promote (dtype a0) (map dtype rest) in
        inr (mk_nd sh k
               (build sh (fun idx =>
                  let (j, i) := locate (nth axis idx 0) dims in
                  let a := nth j arrs a0 in
                  cast (dtype a) k (get a (set_nth axis i idx)))))
  end.

(** [np.concatenate(ls, 0)] on sequences of objects. *)
Definition concatenate_objects {A : Type} (ls : list (list A)) : exn + list A :=
  match ls with
  | [] => inl (ValueError "need at least one array to concatenate")
  | _ => inr (concat ls)
  end.

(** Row [r] of a two-dimensional array. *)
Definition row (X : ndarray) (r : nat) : list Q :=
  map (fun j => get X [r; j]) (seq 0 (nth 1 (shape X) 0)).

(** [len(a)]. *)
Definition len (a : ndarray) : exn + nat :=
  match shape a with
  | [] => inl (TypeError "len() of unsized object")
  | d :: _ => inr d
  end.

End np.

Import np.

(** ** Model objects

    [ModelCapability] is the duck-typed interface of a model object.
    [hasattr est name] tells whether the object has the attribute [name];
    [apply_method est name X] is what [getattr(est, name)(X)] returns or
    raises for the inference methods ([transform], [predict],
    [predict_proba], [decision_function]); [fit_method est X y] is the
    object as [est.fit(X, y)] leaves it; [score_method est X y] is
    [est.score(X, y)]; [clone est] is [sklearn.base.clone(est)]. *)

Class ModelCapability (E : Type) : Type := {
  hasattr : E -> string -> bool;
  apply_method : E -> string -> ndarray -> exn + ndarray;
  fit_method : E -> ndarray -> ndarray -> exn + E;
  score_method : E -> ndarray -> ndarray -> exn + ndarray;
  clone : E -> E
}.

(** ** Computations that may raise and that call model objects *)

(** One call made on a model object. *)
Inductive event (E : Type) : Type :=
| Invoke (est : E) (name : string) (args : list ndarray).

(** A computation yields the calls it made, in order, and then either the
    exception it raised or its value. *)
Definition M (E A : Type) : Type := (list (event E) * (exn + A))%type.

Definition ret {E A : Type} (a : A) : M E A := ([], inr a).

Definition raise {E A : Type} (e : exn) : M E A := ([], inl e).

Definition bind {E A B : Type} (m : M E A) (k : A -> M E B) : M E B :=
  match m with
  | (log, inl e) => (log, inl e)
  | (log, inr a) => let (log', r) := k a in (log ++ log', r)
  end.

Definition lift {E A : Type} (r : exn + A) : M E A := ([], r).

Definition calls {E A : Type} (m : M E A) : list (event E) := fst m.

Definition result {E A : Type} (m : M E A) : exn + A := snd m.

Declare Scope monad_scope.
Delimit Scope monad_scope with monad.
Notation "x <- m ;; k" := (bind m (fun x => k))
  (at level 61, m at next level, right associativity) : monad_scope.
Notation "' pat <- m ;; k" := (bind m (fun x => match x with pat => k end))
  (at level 61, pat pattern, m at next level, right associativity) : monad_scope.
Notation "m ;; k" := (bind m (fun _ => k))
  (at level 61, right associativity) : monad_scope.
Local Open Scope monad_scope.

(** A [for] loop threading the loop-carried variables. *)
Fixpoint foldM {E A B : Type} (f : A -> B -> M E A) (l : list B) (a : A) : M E A :=
  match l with
  | [] => ret a
  | x :: l' => a' <- f a x ;; foldM f l' a'
  end.

(** Modelled from the spec: the parallel runner that [parallel_func] of
    [mne/parallel.py] returns, which is not among the sources.  It "accepts
    an ordered list of zero-argument deferred calls and an integer worker
    count; returns an ordered list of results in input order, executing
    sequentially when worker count is 1", and "a failing unit fails the
    whole call".  The deferred calls are run one after the other, in input
    order, and the run stops at the first one that raises: that is the run
    of one worker.  With more workers the results and their order are the
    same, but other units may have been started when one fails. *)
Fixpoint parallel {E A B : Type} (p_func : A -> M E B) (l : list A) : M E (list B) :=
  match l with
  | [] => ret []
  | x :: l' => b <- p_func x ;; bs <- parallel p_func l' ;; ret (b :: bs)
  end.

Definition enumerate {A : Type} (l : list A) : list (nat * A) :=
  combine (seq 0 (length l)) l.

(** Reading a local variable that a loop may not have bound. *)
Definition local {E A : Type} (name : string) (v : option A) : M E A :=
  match v with
  | Some a => ret a
  | None => raise (UnboundLocalError name)
  end.

(** [n_sample, n_chan, n_iter = X.shape]. *)
Definition unpack3 {E : Type} (sh : list nat) : M E (nat * nat * nat) :=
  match sh with
  | [a; b; c] => ret (a, b, c)
  | _ => raise (ValueError "wrong number of values to unpack")
  end.

(** [X.shape[-1]]. *)
Definition shape_last {E : Type} (X : ndarray) : M E nat :=
  match rev (shape X) with
  | [] => raise (IndexError "tuple index out of range")
  | t :: _ => ret t
  end.

(** Modelled from the spec: [parallel_func] of [mne/parallel.py], which is
    not among the sources.  "n_jobs (integer ...; negative conventionally
    means use all available workers, resolved by the task runner)": the
    number of jobs it returns is [n_jobs] itself, or the number of workers
    [n_cores] when [n_jobs] is negative. *)
Definition parallel_func (n_cores : nat) (n_jobs : Z) : nat :=
  if (n_jobs <? 0)%Z then n_cores else Z.to_nat n_jobs.

(** [l[0]]. *)
Definition item0 {A : Type} (l : list A) : exn + A :=
  match l with
  | [] => inl (IndexError "list index out of range")
  | x :: _ => inr x
  end.

Section Engine.

Context {E : Type} {MC : ModelCapability E}.

(** [getattr(est, name)], a bound inference method. *)
Definition getattr (est : E) (name : string) : M E (ndarray -> M E ndarray) :=
  if hasattr est name
  then ret (fun X => ([Invoke est name [X]], apply_method est name X))
  else raise (AttributeError name).

(** [est.fit], a bound method whose call yields the object as fitting
    leaves it. *)
Definition getattr_fit (est : E) : M E (ndarray -> ndarray -> M E E) :=
  if hasattr est "fit"
  then ret (fun X y => ([Invoke est "fit" [X; y]], fit_method est X y))
  else raise (AttributeError "fit").

(** [est.score(X, y)], the attribute being looked up before the arguments
    are evaluated. *)
Definition getattr_score (est : E) : M E (ndarray -> ndarray -> M E ndarray) :=
  if hasattr est "score"
  then ret (fun X y => ([Invoke est "score" [X; y]], score_method est X y))
  else raise (AttributeError "score").

(** [clone(estimator)]. *)
Definition call_clone (est : E) : M E E :=
  ([Invoke est "clone" []], inr (clone est)).

(** [_sl_fit] (lines 218-226): one clone of the prototype is fitted on each
    slice of the chunk, in slice order. *)
Definition _sl_fit (estimator : E) (X y : ndarray) : M E (list E) :=
  n_iter <- shape_last X ;;
  foldM (fun estimators_ ii =>
           est <- call_clone estimator ;;
           fit <- getattr_fit est ;;
           X_ii <- lift (getitem_last X ii) ;;
           est <- fit X_ii y ;;
           ret (estimators_ ++ [est]))
        (seq 0 n_iter) [].

(** [_sl_init_pred] (lines 242-253).  The second argument of [np.zeros] in
    the first branch is the dtype [int]; the second branch has numpy's
    default, float64. *)
Definition _sl_init_pred (y_pred X : ndarray) : M E ndarray :=
  ' (n_sample, n_chan, n_iter) <- unpack3 (shape X) ;;
  if 1 <? ndim y_pred
  then ret (zeros (n_sample :: n_iter :: tl (shape y_pred)) int_)
  else ret (zeros [n_sample; n_iter] float_).

(** [_sl_transform] (lines 229-239).  [y_pred] is unbound until the first
    iteration has run. *)
Definition _sl_transform (estimators : list E) (X : ndarray) (method : string)
  : M E ndarray :=
  ' (n_sample, n_chan, n_iter) <- unpack3 (shape X) ;;
  y_pred <- foldM (fun y_pred (ii_est : nat * E) =>
      let (ii, est) := ii_est in
      transform <- getattr est method ;;
      X_ii <- lift (getitem_last X ii) ;;
      _y_pred <- transform X_ii ;;
      y_pred <- (if ii =? 0
                 then y0 <- _sl_init_pred _y_pred X ;; ret (Some y0)
                 else ret y_pred) ;;
      y_pred <- local "y_pred" y_pred ;;
      y_pred <- lift (setitem y_pred [All; At ii] _y_pred) ;;
      ret (Some y_pred))
    (enumerate estimators) None ;;
  local "y_pred" y_pred.

(** [_sl_score] (lines 256-265).  The value of [est.score] is taken to be an
    array, of rank 0 for a scalar.  For a score of rank 0 the shape
    [np.r_[n_iter, _score.shape]] is an array of floats (the empty tuple
    brings float64 in), which [np.zeros] refuses with a [TypeError]. *)
Definition _sl_score (estimators : list E) (X y : ndarray) : M E ndarray :=
  ' (n_sample, n_chan, n_iter) <- unpack3 (shape X) ;;
  score <- foldM (fun score (ii_est : nat * E) =>
      let (ii, est) := ii_est in
      est_score <- getattr_score est ;;
      X_ii <- lift (getitem_last X ii) ;;
      _score <- est_score X_ii y ;;
      score <- (if ii =? 0
                then if ndim _score =? 0
                     then raise (TypeError
                            "'numpy.float64' object cannot be interpreted as an integer")
                     else ret (Some (zeros (n_iter :: shape _score) int_))
                else ret score) ;;
      score <- local "score" score ;;
      score <- lift (setitem score [At ii] _score) ;;
      ret (Some score))
    (enumerate estimators) None ;;
  local "score" score.

(** [_check_method] (lines 268-277).  Line 276 builds the exception object
    and discards it: there is no [raise]. *)
Definition _check_method (estimator : E) (method : string) : M E string :=
  let method :=
    if (method =? "transform")%string && negb (hasattr estimator "transform")
    then "predict" else method in
  let _ :=
    if negb (hasattr estimator method)
    then Some (ValueError "base_estimator does not have `%s` method.")
    else None in
  ret method.

(** [_gl_init_pred] (lines 453-460). *)
Definition _gl_init_pred (y_pred X : ndarray) (n_train : nat) : M E ndarray :=
  ' (n_sample, n_chan, n_iter) <- unpack3 (shape X) ;;
  if ndim y_pred =? 3
  then ret (zeros [n_sample; n_train; n_iter; last (shape y_pred) 0] float_)
  else ret (zeros [n_sample; n_train; n_iter] float_).

(** [_gl_transform] (lines 418-450). *)
Definition _gl_transform (estimators : list E) (X : ndarray) (method : string)
  : M E ndarray :=
  ' (n_sample, n_chan, n_iter) <- unpack3 (shape X) ;;
  y_pred <- foldM (fun y_pred (ii_est : nat * E) =>
      let (ii, est) := ii_est in
      let X_stack := transpose X [1; 0; 2] in
      X_stack <- lift (reshape X_stack [n_chan; n_sample * n_iter]) ;;
      let X_stack := T X_stack in
      transform <- getattr est method ;;
      _y_pred <- transform X_stack ;;
      _y_pred <- (if ndim _y_pred =? 2
                  then lift (reshape _y_pred
                               [n_sample; n_iter; nth 1 (shape _y_pred) 0])
                  else lift (reshape _y_pred
                               (n_sample :: n_iter :: tl (shape _y_pred)))) ;;
      y_pred <- (if ii =? 0
                 then y0 <- _gl_init_pred _y_pred X (length estimators) ;;
                      ret (Some y0)
                 else ret y_pred) ;;
      y_pred <- local "y_pred" y_pred ;;
      y_pred <- lift (setitem y_pred [All; At ii] _y_pred) ;;
      ret (Some y_pred))
    (enumerate estimators) None ;;
  local "y_pred" y_pred.

(** [_gl_score] (lines 463-478). *)
Definition _gl_score (estimators : list E) (X y : ndarray) : M E ndarray :=
  ' (n_sample, n_chan, n_iter) <- unpack3 (shape X) ;;
  let n_est := length estimators in
  score <- foldM (fun score (ii_est : nat * E) =>
      let (ii, est) := ii_est in
      n_jj <- shape_last X ;;
      foldM (fun score jj =>
          est_score <- getattr_score est ;;
          X_jj <- lift (getitem_last X jj) ;;
          _score <- est_score X_jj y ;;
          score <- (if (ii =? 0) && (jj =? 0)
                    then if negb (ndim _score =? 0)
                         then ret (Some (zeros (n_est :: n_iter :: shape _score) int_))
                         else ret (Some (zeros [n_est; n_iter] float_))
                    else ret score) ;;
          score <- local "score" score ;;
          score <- lift (setitem score [At ii; At jj] _score) ;;
          ret (Some score))
        (seq 0 n_jj) score)
    (enumerate estimators) None ;;
  local "score" score.

End Engine.

(** ** class SearchLight *)

Module SearchLight.
Section Methods.

Context {E : Type} {MC : ModelCapability E}.

(** Number of workers the runner uses when asked for all of them. *)
Variable n_cores : nat.

(** The object: [estimators_] is absent until [fit] has run.  [n_jobs] is
    an integer ([__init__] rejects anything else). *)
Record t : Type := mk {
  base_estimator : E;
  n_jobs : Z;
  estimators_ : option (list E)
}.

(** [self.estimators_]. *)
Definition get_estimators_ (self : t) : M E (list E) :=
  match estimators_ self with
  | Some l => ret l
  | None => raise (AttributeError "estimators_")
  end.

(** [_check_Xy] (lines 174-180); [y = None] when the caller passes no
    [y]. *)
Definition _check_Xy (self : t) (X : ndarray) (y : option ndarray) : M E unit :=
  match y with
  | Some y =>
      lx <- lift (len X) ;;
      ly <- lift (len y) ;;
      if negb (lx =? ly) || (ly <? 1)
      then raise (ValueError "X and y must have the same length.")
      else ret tt
  | None => ret tt
  end ;;
  if negb (ndim X =? 3)
  then raise (ValueError "X must have at least 3 dimensions.")
  else ret tt.

(** [fit] (lines 51-75) returns the object with its new [estimators_].  (A
    failing call leaves the Python object with an empty [estimators_];
    here it yields the exception only.) *)
Definition fit (self : t) (X y : ndarray) : M E t :=
  _check_Xy self X (Some y) ;;
  let n_jobs' := parallel_func n_cores (n_jobs self) in
  splits <- lift (array_split X n_jobs') ;;
  estimators <- parallel (fun split => _sl_fit (base_estimator self) split y)
                         splits ;;
  estimators_ <- lift (concatenate_objects estimators) ;;
  ret (mk (base_estimator self) (n_jobs self) (Some estimators_)).

(** [_transform] (lines 77-96). *)
Definition _transform (self : t) (X : ndarray) (method : string) : M E ndarray :=
  _check_Xy self X None ;;
  method <- _check_method (base_estimator self) method ;;
  n_slices <- shape_last X ;;
  ests <- get_estimators_ self ;;
  if negb (n_slices =? length ests)
  then raise (ValueError "The number of estimators does not match X.shape[2]")
  else
    let n_jobs' := parallel_func n_cores (n_jobs self) in
    X_splits <- lift (array_split X n_jobs') ;;
    ests <- get_estimators_ self ;;
    est_splits <- lift (list_split ests n_jobs') ;;
    y_pred <- parallel (fun (est_x : list E * ndarray) =>
                          let (est, x) := est_x in _sl_transform est x method)
                       (combine est_splits X_splits) ;;
    if 1 <? n_jobs'
    then lift (concatenate y_pred 1)
    else lift (item0 y_pred).

Definition transform (self : t) (X : ndarray) : M E ndarray :=
  _transform self X "transform".

Definition predict (self : t) (X : ndarray) : M E ndarray :=
  _transform self X "predict".

Definition predict_proba (self : t) (X : ndarray) : M E ndarray :=
  _transform self X "predict_proba".

Definition decision_function (self : t) (X : ndarray) : M E ndarray :=
  _transform self X "decision_function".

Definition fit_transform (self : t) (X y : ndarray) : M E ndarray :=
  self <- fit self X y ;; transform self X.

(** [score] (lines 182-215): [_check_Xy] is called with [X] alone. *)
Definition score (self : t) (X y : ndarray) : M E ndarray :=
  _check_Xy self X None ;;
  n_slices <- shape_last X ;;
  ests <- get_estimators_ self ;;
  if negb (n_slices =? length ests)
  then raise (ValueError "The number of estimators does not match X.shape[2]")
  else
    let n_jobs' := parallel_func n_cores (n_jobs self) in
    X_splits <- lift (array_split X n_jobs') ;;
    ests <- get_estimators_ self ;;
    est_splits <- lift (list_split ests n_jobs') ;;
    score <- parallel (fun (est_x : list E * ndarray) =>
                         let (est, x) := est_x in _sl_score est x y)
                      (combine est_splits X_splits) ;;
    if 1 <? n_jobs'
    then lift (concatenate score 0)
    else lift (item0 score).

End Methods.
End SearchLight.

(** ** class GeneralizationLight(SearchLight)

    The subclass keeps the object and [fit] of [SearchLight] and overrides
    the apply and score methods. *)

Module GeneralizationLight.
Section Methods.

Context {E : Type} {MC : ModelCapability E}.

Variable n_cores : nat.

Definition t : Type := @SearchLight.t E.

Definition fit : t -> ndarray -> ndarray -> M E t := SearchLight.fit n_cores.

Definition _check_Xy : t -> ndarray -> option ndarray -> M E unit :=
  @SearchLight._check_Xy E.

(** [_transform] (lines 295-305).  [self.estimators_] is read when a job
    is built. *)
Definition _transform (self : t) (X : ndarray) (method : string) : M E ndarray :=
  _check_Xy self X None ;;
  method <- _check_method (SearchLight.base_estimator self) method ;;
  let n_jobs' := parallel_func n_cores (SearchLight.n_jobs self) in
  X_splits <- lift (array_split X n_jobs') ;;
  y_pred <- parallel (fun x_split =>
                        ests <- SearchLight.get_estimators_ self ;;
                        _gl_transform ests x_split method)
                     X_splits ;;
  lift (concatenate y_pred 2).

Definition transform (self : t) (X : ndarray) : M E ndarray :=
  _transform self X "transform".

Definition predict (self : t) (X : ndarray) : M E ndarray :=
  _transform self X "predict".

Definition predict_proba (self : t) (X : ndarray) : M E ndarray :=
  _transform self X "predict_proba".

Definition decision_function (self : t) (X : ndarray) : M E ndarray :=
  _transform self X "decision_function".

(** [fit_transform] is inherited (lines 32-49): [self.transform] is the
    method of the subclass. *)
Definition fit_transform (self : t) (X y : ndarray) : M E ndarray :=
  self <- fit self X y ;; transform self X.

(** [score] (lines 381-415): [_check_Xy] is called with [X] alone. *)
Definition score (self : t) (X y : ndarray) : M E ndarray :=
  _check_Xy self X None ;;
  let n_jobs' := parallel_func n_cores (SearchLight.n_jobs self) in
  X_splits <- lift (array_split X n_jobs') ;;
  score <- parallel (fun x =>
                       ests <- SearchLight.get_estimators_ self ;;
                       _gl_score ests x y)
                    X_splits ;;
  if 1 <? n_jobs'
  then lift (concatenate score 1)
  else lift (item0 score).

End Methods.
End GeneralizationLight.

(** ** A small model class, used to run the engine on concrete inputs *)

Module Toy.

(** A linear scorer.  [attrs] are the attributes of the object as built,
    [fitted_attrs] those that appear once it has been fitted, and [coef]
    the parameter learnt by [fit]. *)
Record t : Type := mk {
  attrs : list string;
  fitted_attrs : list string;
  coef : option Q
}.

Definition sumQ (l : list Q) : Q := Qred (fold_right Qplus 0%Q l).

Definition has (est : t) (name : string) : bool :=
  existsb (String.eqb name) (attrs est)
  || match coef est with
     | Some _ => existsb (String.eqb name) (fitted_attrs est)
     | None => false
     end.

Definition weight (est : t) : Q :=
  match coef est with Some w => w | None => 0%Q end.

(** [decision_function] adds the learnt parameter to the sum of the
    features of each row and [predict] is its integer part, an array of
    integer kind; [predict_proba] yields two columns per row; [transform]
    centres the row sums on the whole batch, so a row's output depends on
    the other rows. *)
Definition apply (est : t) (name : string) (X : ndarray) : exn + ndarray :=
  match shape X with
  | [N; c] =>
      if (name =? "predict")%string
      then inr (mk_nd [N] int_
                  (build [N] (fun idx =>
                     trunc (weight est + sumQ (row X (hd 0 idx))))))
      else if (name =? "decision_function")%string
      then inr (mk_nd [N] float_
                  (build [N] (fun idx =>
                     Qred (weight est + sumQ (row X (hd 0 idx))))))
      else if (name =? "predict_proba")%string
      then inr (mk_nd [N; 2] float_
                  (build [N; 2] (fun idx =>
                     if hd 0 (tl idx) =? 0 then (1 # 4)%Q else (3 # 4)%Q)))
      else if (name =? "transform")%string
      then inr (mk_nd [N] float_
                  (build [N] (fun idx =>
                     Qred (sumQ (row X (hd 0 idx)) - sumQ (data X)))))
      else inl (AttributeError name)
  | _ => inl (ModelError 1)
  end.

Definition fit (est : t) (X y : ndarray) : exn + t :=
  inr (mk (attrs est) (fitted_attrs est)
          (Some (Qred (sumQ (data X) + sumQ (data y))))).

Definition score (est : t) (X y : ndarray) : exn + ndarray :=
  inr (mk_nd [] float_ [(3 # 4)%Q]).

Definition clone (est : t) : t := mk (attrs est) (fitted_attrs est) None.

#[global] Instance capability : ModelCapability t := {
  hasattr := has;
  apply_method := apply;
  fit_method := fit;
  score_method := score;
  clone := clone
}.

(** A classifier without [predict_proba] and without [transform]. *)
Definition classifier : t := mk ["fit"; "predict"; "score"] [] None.

(** A classifier with probabilities. *)
Definition proba_classifier : t :=
  mk ["fit"; "predict"; "predict_proba"; "score"] [] None.

(** A model that has no [transform] until it is fitted. *)
Definition late_transformer : t :=
  mk ["fit"; "predict"; "score"] ["transform"] None.

(** A model with every inference method but [transform]. *)
Definition scorer : t :=
  mk ["fit"; "predict"; "predict_proba"; "decision_function"; "score"] [] None.

(** A transformer whose output depends on the whole batch. *)
Definition centerer : t := mk ["fit"; "transform"; "score"] [] None.

Definition ints (l : list Z) : list Q := map inject_Z l.

End Toy.

(** ** Concrete inputs *)

Module Inputs.

(** Two samples, one feature, two slices. *)
Definition X212 : ndarray := mk_nd [2; 1; 2] float_ (Toy.ints [1; 2; 3; 4]%Z).

(** Two samples, one feature, one slice. *)
Definition X211 : ndarray := mk_nd [2; 1; 1] float_ (Toy.ints [1; 3]%Z).

Definition y2 : ndarray := mk_nd [2] int_ (Toy.ints [0; 1]%Z).

Definition y1 : ndarray := mk_nd [1] int_ (Toy.ints [1]%Z).

(** The two models obtained by fitting [proto] on the slices of [X212]. *)
Definition fitted0 (proto : Toy.t) : Toy.t :=
  Toy.mk (Toy.attrs proto) (Toy.fitted_attrs proto) (Some (inject_Z 5)).

Definition fitted1 (proto : Toy.t) : Toy.t :=
  Toy.mk (Toy.attrs proto) (Toy.fitted_attrs proto) (Some (inject_Z 7)).

Definition fitted (proto : Toy.t) : list Toy.t :=
  [fitted0 proto; fitted1 proto].

(** The integer labels that [fitted0] predicts on the first slice of
    [X212]. *)
Definition labels : ndarray := mk_nd [2] int_ (Toy.ints [6; 8]%Z).

Definition ensemble (proto : Toy.t) (n_jobs : Z) : SearchLight.t :=
  SearchLight.mk proto n_jobs (Some (fitted proto)).

End Inputs.

(** The method name [_check_method] resolves to. *)
Definition resolved {E : Type} {MC : ModelCapability E}
    (estimator : E) (method : string) : string :=
  if (method =? "transform")%string && negb (hasattr estimator "transform")
  then "predict" else method.

(** The method a [transform] request calls on the fitted models, as the
    prototype alone decides it. *)
Definition transform_target {E : Type} {MC : ModelCapability E}
    (estimator : E) : string :=
  if hasattr estimator "transform" then "transform" else "predict".

(** ** Vocabulary of the properties *)

(** The multi-index [idx] addresses an element of an array of shape [sh]. *)
Definition inb (idx sh : list nat) : Prop := Forall2 lt idx sh.

(** Name of the method a recorded call invoked. *)
Definition event_name {E : Type} (ev : event E) : string :=
  match ev with Invoke _ name _ => name end.

(** Arguments of a recorded call. *)
Definition event_args {E : Type} (ev : event E) : list ndarray :=
  match ev with Invoke _ _ args => args end.

(** [X[..., ii]] written out, for [ii] inside the last axis. *)
Definition slice_at (X : ndarray) (ii : nat) : ndarray :=
  let sh := removelast (shape X) in
  mk_nd sh (dtype X) (build sh (fun idx => get X (idx ++ [ii]))).

(** One iteration of the loop of [_sl_fit]: the model fitted on slice [ii]. *)
Definition fit_slice {E : Type} {MC : ModelCapability E}
    (estimator : E) (X y : ndarray) (ii : nat) : M E E :=
  (est <- call_clone estimator ;;
   fit <- getattr_fit est ;;
   X_ii <- lift (getitem_last X ii) ;;
   fit X_ii y)%monad.

(** [X[lo:hi]], a contiguous range of the samples of [X]. *)
Definition sample_range (X : ndarray) (lo hi : nat) : ndarray :=
  let sh := (hi - lo) :: tl (shape X) in
  mk_nd sh (dtype X)
    (build sh (fun idx => get X ((lo + hd 0 idx) :: tl idx))).

(** The models of a section of the ensemble, [estimators[off:off+sz]]. *)
Definition est_range {E : Type} (ests : list E) (s : nat * nat) : list E :=
  firstn (snd s) (skipn (fst s) ests).

(** The slices of a section of the input, [X[..., off:off+sz]]. *)
Definition slice_range (X : ndarray) (s : nat * nat) : ndarray :=
  slice_last X (fst s) (snd s).

(** The features of sample [s] in slice [j], [X[s, :, j]]. *)
Definition features (X : ndarray) (s j : nat) : list Q :=
  map (fun f => get X [s; f; j]) (seq 0 (nth 1 (shape X) 0)).

(** Inference by the method [name] of [est], a model for rows of [c]
    features, is stateless and row-independent: on a batch of [N] rows it
    returns [N] blocks of shape [tr] and kind [k], the block of a row being
    a function [f] of the features of that row alone.  A batch without rows
    may be rejected instead, as a model that checks its input does.
    Nothing is asked of the model on a batch of another width. *)
Definition row_independent {E : Type} {MC : ModelCapability E}
    (est : E) (name : string) (c : nat) (tr : list nat) (k : kind)
    (f : list Q -> list nat -> Q) : Prop :=
  hasattr est name = true
  /\ forall X N, shape X = [N; c] -> wf X ->
       apply_method est name X
       = inr (mk_nd (N :: tr) k
                (build (N :: tr) (fun idx => f (row X (hd 0 idx)) (tl idx))))
       \/ (N = 0 /\ exists e, apply_method est name X = inl e).

(** The test slices of [X] stacked as rows, sample after sample: row
    [s * n_iter + j] holds [X[s, :, j]]. *)
Definition stacked (X : ndarray) (n_sample n_chan n_iter : nat) : ndarray :=
  mk_nd [n_sample * n_iter; n_chan] (dtype X)
    (build [n_sample * n_iter; n_chan]
       (fun idx => get X [hd 0 idx / n_iter; hd 0 (tl idx); hd 0 idx mod n_iter])).

(** The part of the loop body of [_gl_transform] that applies one model to
    all the test slices at once: the slices are stacked, the method is
    called once, and the result is unstacked to (samples, slices, ...). *)
Definition stacked_apply {E : Type} {MC : ModelCapability E}
    (est : E) (X : ndarray) (method : string) : M E ndarray :=
  (' (n_sample, n_chan, n_iter) <- unpack3 (shape X) ;;
   let X_stack := transpose X [1; 0; 2] in
   X_stack <- lift (reshape X_stack [n_chan; n_sample * n_iter]) ;;
   let X_stack := T X_stack in
   transform <- getattr est method ;;
   _y_pred <- transform X_stack ;;
   if ndim _y_pred =? 2
   then lift (reshape _y_pred [n_sample; n_iter; nth 1 (shape _y_pred) 0])
   else lift (reshape _y_pred (n_sample :: n_iter :: tl (shape _y_pred))))%monad.

(** [a[:, None, ...]]: a new axis of length one after the first. *)
Definition expand_dims (a : ndarray) : exn + ndarray :=
  reshape a (hd 0 (shape a) :: 1 :: tl (shape a)).

(** The reference computation of the cross-slice apply of one model, in the
    words of the specification: loop over the test slices, apply the model
    to each slice, and concatenate the per-slice results along the slice
    axis. *)
Definition per_slice_apply {E : Type} {MC : ModelCapability E}
    (est : E) (X : ndarray) (method : string) : M E ndarray :=
  (' (n_sample, n_chan, n_iter) <- unpack3 (shape X) ;;
   results <- parallel (fun jj =>
                          transform <- getattr est method ;;
                          X_jj <- lift (getitem_last X jj) ;;
                          _y_pred <- transform X_jj ;;
                          lift (expand_dims _y_pred))
                       (seq 0 n_iter) ;;
   lift (concatenate results 1))%monad.

(** The tensor of shape (n, t, ...) and kind [k] whose block at sample [s]
    and slice [j] is [F s j]. *)
Definition table2 (n t : nat) (tr : list nat) (k : kind)
    (F : nat -> nat -> list nat -> Q) : ndarray :=
  mk_nd (n :: t :: tr) k
    (build (n :: t :: tr)
       (fun idx => F (hd 0 idx) (hd 0 (tl idx)) (tl (tl idx)))).

(** Every model of the sequence has a stateless, row-independent method
    [method] on rows of [c] features, whose output for one row is a block
    of shape [tr]: model [i] maps a row [r] to the block [fs i r], of kind
    [ks i]. *)
Definition ensemble_row_independent {E : Type} {MC : ModelCapability E}
    (ests : list E) (method : string) (c : nat) (tr : list nat)
    (ks : nat -> kind) (fs : nat -> list Q -> list nat -> Q) : Prop :=
  forall i est, nth_error ests i = Some est ->
    row_independent est method c tr (ks i) (fs i).

(** Model [i] of the sequence has the method [name], and its call on slice
    [i] of [X] returns the array [vs i], which holds one block of shape
    [tr] for each of the [n] samples. *)
Definition applies_same_slice {E : Type} {MC : ModelCapability E}
    (ests : list E) (X : ndarray) (name : string) (n : nat) (tr : list nat)
    (vs : nat -> ndarray) : Prop :=
  forall i est, nth_error ests i = Some est ->
    hasattr est name = true
    /\ apply_method est name (slice_at X i) = inr (vs i)
    /\ shape (vs i) = n :: tr.

(** The call made on the model of index [m], if there is one. *)
Definition unit_log {E : Type} (ests : list E) (h : nat -> E -> event E)
    (m : nat) : list (event E) :=
  match nth_error ests m with
  | Some est => [h m est]
  | None => []
  end.

(** The calls a same-slice operation makes when every one returns: one per
    model, in order, model [i] receiving slice [i] of [X]. *)
Definition same_slice_calls {E : Type} (ests : list E) (X : ndarray)
    (name : string) : list (event E) :=
  map (fun p => Invoke (snd p) name [slice_at X (fst p)]) (enumerate ests).

(** ** Further inputs *)

Module MoreInputs.

(** A matrix: two samples, two features, no slice axis. *)
Definition X22 : ndarray := mk_nd [2; 2] float_ (Toy.ints [1; 2; 3; 4]%Z).

(** Two samples, one feature, three slices. *)
Definition X213 : ndarray :=
  mk_nd [2; 1; 3] float_ (Toy.ints [1; 2; 3; 4; 5; 6]%Z).

(** Two samples, one feature, no slice. *)
Definition X210 : ndarray := mk_nd [2; 1; 0] float_ [].

(** An ensemble that has not been fitted. *)
Definition unfitted (proto : Toy.t) (n_jobs : Z) : SearchLight.t :=
  SearchLight.mk proto n_jobs None.

(** A transformer with [transform] and [predict]. *)
Definition transformer : Toy.t :=
  Toy.mk ["fit"; "transform"; "predict"; "score"] [] None.

End MoreInputs.

(** ** Vocabulary of the further properties *)

(** The kind of the tensor [_sl_init_pred] allocates for per-sample blocks
    of shape [tr], and [_gl_score] for scores of shape [tr]: float64 for
    the empty shape, integer otherwise. *)
Definition out_kind (tr : list nat) : kind :=
  match tr with
  | [] => float_
  | _ :: _ => int_
  end.

(** A tensor of kind [k] once the columns below [m] are written: column
    [i] holds the result [vs i] converted to [k], the others are zero. *)
Definition filled_cast (k : kind) (n T : nat) (rest : list nat)
    (vs : nat -> ndarray) (m : nat) : ndarray :=
  mk_nd (n :: T :: rest) k
    (build (n :: T :: rest)
       (fun idx => if hd 0 (tl idx) <? m
                   then cast (dtype (vs (hd 0 (tl idx)))) k
                          (get (vs (hd 0 (tl idx))) (hd 0 idx :: tl (tl idx)))
                   else 0%Q)).

(** A tensor of kind [k] once the rows below [m] are written: row [i]
    holds the result [vs i] converted to [k], the others are zero. *)
Definition filled_rows (k : kind) (T : nat) (rest : list nat)
    (vs : nat -> ndarray) (m : nat) : ndarray :=
  mk_nd (T :: rest) k
    (build (T :: rest)
       (fun idx => if hd 0 idx <? m
                   then cast (dtype (vs (hd 0 idx))) k
                          (get (vs (hd 0 idx)) (tl idx))
                   else 0%Q)).

(** ** A model whose output for one sample is a matrix *)

Module Embedder.

Inductive t : Type := the.

(** [transform] maps each row to a 2 x 2 block filled with the sum of the
    row; [score] returns one score per output column, 1/2 and 3/2. *)
Definition apply (est : t) (name : string) (X : ndarray) : exn + ndarray :=
  match shape X with
  | [N; c] =>
      if (name =? "transform")%string
      then inr (mk_nd [N; 2; 2] float_
                  (build [N; 2; 2] (fun idx => Toy.sumQ (row X (hd 0 idx)))))
      else inl (AttributeError name)
  | _ => inl (ModelError 1)
  end.

Definition scores : ndarray := mk_nd [2] float_ [(1 # 2)%Q; (3 # 2)%Q].

#[global] Instance capability : ModelCapability t := {
  hasattr := fun _ name =>
    ((name =? "fit") || (name =? "transform") || (name =? "score"))%string;
  apply_method := apply;
  fit_method := fun est _ _ => inr est;
  score_method := fun _ _ _ => inr scores;
  clone := fun est => est
}.

Definition ensemble (n_jobs : Z) : SearchLight.t :=
  SearchLight.mk the n_jobs (Some [the; the]).

End Embedder.

(** The tensor of shape (n, e, t, ...) and kind float64 whose block for
    sample [s], model [i] and slice [j] is [F s i j]. *)
Definition table3 (n e t : nat) (tr : list nat)
    (F : nat -> nat -> nat -> list nat -> Q) : ndarray :=
  mk_nd (n :: e :: t :: tr) float_
    (build (n :: e :: t :: tr)
       (fun idx => F (hd 0 idx) (hd 0 (tl idx)) (hd 0 (tl (tl idx)))
                     (tl (tl (tl idx))))).

(** A tensor of kind [k] once the cells before position [p], in row-major
    order of (model, slice), are written: cell (i, j) holds the score
    [sc i j] converted to [k], the others are zero. *)
Definition filled_grid (k : kind) (e t : nat) (rest : list nat)
    (sc : nat -> nat -> ndarray) (p : nat) : ndarray :=
  mk_nd (e :: t :: rest) k
    (build (e :: t :: rest)
       (fun idx => if hd 0 idx * t + hd 0 (tl idx) <? p
                   then cast (dtype (sc (hd 0 idx) (hd 0 (tl idx)))) k
                          (get (sc (hd 0 idx) (hd 0 (tl idx))) (tl (tl idx)))
                   else 0%Q)).

(** Model [i] of the sequence has a [score] method that returns, on slice
    [i] of [X] and [y], the array [sc i], of shape [sh]. *)
Definition scores_same_slice {E : Type} {MC : ModelCapability E}
    (ests : list E) (X y : ndarray) (sh : list nat) (sc : nat -> ndarray)
  : Prop :=
  forall i est, nth_error ests i = Some est ->
    hasattr est "score" = true
    /\ score_method est (slice_at X i) y = inr (sc i)
    /\ shape (sc i) = sh.

(** Model [i] of the sequence has a [score] method that returns, on slice
    [j] of [X] and [y], the array [sc i j], of shape [sh]. *)
Definition scores_cross_slice {E : Type} {MC : ModelCapability E}
    (ests : list E) (X y : ndarray) (t : nat) (sh : list nat)
    (sc : nat -> nat -> ndarray) : Prop :=
  forall i est, nth_error ests i = Some est ->
    hasattr est "score" = true
    /\ forall j, j < t ->
         score_method est (slice_at X j) y = inr (sc i j)
         /\ shape (sc i j) = sh.

(** A model whose [fit] rejects data with a negative value, and that has
    no other method. *)
Module Picky.

Inductive t : Type := fresh | trained.

Definition fit (est : t) (X y : ndarray) : exn + t :=
  if forallb (fun q => (0 <=? Qnum q)%Z) (data X)
  then inr trained
  else inl (ValueError "negative values in data").

#[global] Instance capability : ModelCapability t := {
  hasattr := fun _ name => (name =? "fit")%string;
  apply_method := fun _ name _ => inl (AttributeError name);
  fit_method := fit;
  score_method := fun _ _ _ => inl (AttributeError "score");
  clone := fun _ => fresh
}.

(** Two samples, one feature, three slices; the second slice holds a
    negative value. *)
Definition X213 : ndarray :=
  mk_nd [2; 1; 3] float_ (Toy.ints [1; -2; 3; 4; 5; 6]%Z).

Definition ensemble (n_jobs : Z) : SearchLight.t :=
  SearchLight.mk fresh n_jobs None.

End Picky.

(** A row-wise model that checks its input as estimators commonly do: a
    batch without rows is rejected. *)
Module Strict.

Inductive t : Type := the.

Definition apply (est : t) (name : string) (X : ndarray) : exn + ndarray :=
  match shape X with
  | [N; c] =>
      if N =? 0 then inl (ValueError "Found array with 0 sample(s)")
      else if (name =? "predict")%string
      then inr (mk_nd [N] float_
                  (build [N] (fun idx => Toy.sumQ (row X (hd 0 idx)))))
      else inl (AttributeError name)
  | _ => inl (ValueError "Expected 2D array")
  end.

#[global] Instance capability : ModelCapability t := {
  hasattr := fun _ name => ((name =? "fit") || (name =? "predict"))%string;
  apply_method := apply;
  fit_method := fun est _ _ => inr est;
  score_method := fun _ _ _ => inl (AttributeError "score");
  clone := fun est => est
}.

End Strict.

(** * Properties *)

Unset Implicit Arguments.

(** ** The array model on small inputs *)

(** [np.arange(6).reshape(2, 3).T]. *)
Example T_example :
  T (mk_nd [2; 3] int_ (Toy.ints [0; 1; 2; 3; 4; 5]%Z))
  = mk_nd [3; 2] int_ (Toy.ints [0; 3; 1; 4; 2; 5]%Z).
Proof. reflexivity. Qed.

(** [np.array_split(np.arange(5).reshape(1, 1, 5), 3, axis=-1)]: sections
    of sizes 2, 2 and 1. *)
Example array_split_example :
  array_split (mk_nd [1; 1; 5] int_ (Toy.ints [0; 1; 2; 3; 4]%Z)) 3
  = inr [mk_nd [1; 1; 2] int_ (Toy.ints [0; 1]%Z);
         mk_nd [1; 1; 2] int_ (Toy.ints [2; 3]%Z);
         mk_nd [1; 1; 1] int_ (Toy.ints [4]%Z)].
Proof. reflexivity. Qed.

(** More sections than entries: the last sections are empty. *)
Example array_split_empty_example :
  array_split (mk_nd [1; 1; 1] int_ (Toy.ints [7]%Z)) 2
  = inr [mk_nd [1; 1; 1] int_ (Toy.ints [7]%Z); mk_nd [1; 1; 0] int_ []].
Proof. reflexivity. Qed.

(** [a = np.zeros((2, 2), int); a[:, 1, ...] = [0.5, -3.5]]: the values are
    truncated toward zero. *)
Example setitem_int_example :
  setitem (zeros [2; 2] int_) [All; At 1]
          (mk_nd [2] float_ [(1 # 2)%Q; (-7 # 2)%Q])
  = inr (mk_nd [2; 2] int_ (Toy.ints [0; 0; 0; -3]%Z)).
Proof. reflexivity. Qed.

(** The same assignment into [np.zeros((2, 2))] keeps the values. *)
Example setitem_float_example :
  setitem (zeros [2; 2] float_) [All; At 1]
          (mk_nd [2] float_ [(1 # 2)%Q; (-7 # 2)%Q])
  = inr (mk_nd [2; 2] float_ [0%Q; (1 # 2)%Q; 0%Q; (-7 # 2)%Q]).
Proof. reflexivity. Qed.

(** A value with one column is broadcast along the columns of its
    target. *)
Example setitem_broadcast_example :
  setitem (zeros [2; 1; 2] float_) [All; At 0]
          (mk_nd [2; 1] int_ (Toy.ints [3; 4]%Z))
  = inr (mk_nd [2; 1; 2] float_ (Toy.ints [3; 3; 4; 4]%Z)).
Proof. reflexivity. Qed.

(** [np.zeros(1, int)[0] = 1e19] stores the least integer;
    [np.zeros(1)[0] = 2**53 + 1] stores [2**53], and [2**53 + 3] becomes
    [2**53 + 4]. *)
Example cast_example :
  cast float_ int_ (inject_Z (10 ^ 19)) = inject_Z (- 9223372036854775808)
  /\ cast float_ int_ (-7 # 2)%Q = inject_Z (- 3)
  /\ cast int_ float_ (inject_Z (2 ^ 53 + 1)) = inject_Z (2 ^ 53)
  /\ cast int_ float_ (inject_Z (2 ^ 53 + 3)) = inject_Z (2 ^ 53 + 4)
  /\ cast int_ float_ (inject_Z (- 6)) = inject_Z (- 6).
Proof. repeat split; vm_compute; reflexivity. Qed.

(** [np.concatenate([a, b], axis=1)] with [a] of shape (2, 1) and [b] of
    shape (2, 2). *)
Example concatenate_example :
  concatenate [mk_nd [2; 1] int_ (Toy.ints [1; 2]%Z);
               mk_nd [2; 2] float_ (Toy.ints [3; 4; 5; 6]%Z)] 1
  = inr (mk_nd [2; 3] float_ (Toy.ints [1; 3; 4; 2; 5; 6]%Z)).
Proof. reflexivity. Qed.

(** Fitting the toy classifier on [X212] and [y2] gives the ensemble used
    below, for any number of jobs. *)
Example fit_example :
  result (SearchLight.fit 4 (SearchLight.mk Toy.classifier 1 None)
            Inputs.X212 Inputs.y2)
  = inr (Inputs.ensemble Toy.classifier 1)
  /\ result (SearchLight.fit 4 (SearchLight.mk Toy.classifier 3 None)
               Inputs.X212 Inputs.y2)
     = inr (Inputs.ensemble Toy.classifier 3).
Proof. split; vm_compute; reflexivity. Qed.

(** ** Laws of the monad *)

Lemma bind_ret_l {E A B : Type} (a : A) (k : A -> M E B) :
  bind (ret a) k = k a.
Proof. unfold bind, ret. destruct (k a). reflexivity. Qed.

Lemma bind_ret_r {E A : Type} (m : M E A) : bind m ret = m.
Proof.
  destruct m as [log [e | a]]; simpl; [reflexivity |].
  now rewrite app_nil_r.
Qed.

Lemma bind_assoc {E A B C : Type} (m : M E A) (k : A -> M E B) (h : B -> M E C) :
  bind (bind m k) h = bind m (fun a => bind (k a) h).
Proof.
  destruct m as [log [e | a]]; simpl; [reflexivity |].
  destruct (k a) as [log' [e | b]]; simpl; [reflexivity |].
  destruct (h b) as [log'' r]. now rewrite app_assoc.
Qed.

Lemma bind_raise {E A B : Type} (e : exn) (k : A -> M E B) :
  bind (raise e) k = raise e.
Proof. reflexivity. Qed.

Lemma bind_lift_inr {E A B : Type} (a : A) (k : A -> M E B) :
  bind (lift (inr a)) k = k a.
Proof. apply bind_ret_l. Qed.

Lemma bind_ext {E A B : Type} (m : M E A) (k h : A -> M E B) :
  (forall a, k a = h a) -> bind m k = bind m h.
Proof.
  intros Hk. destruct m as [log [e | a]]; simpl; [reflexivity |].
  now rewrite Hk.
Qed.

Arguments bind : simpl never.
Arguments ret : simpl never.

(** ** C1 *)

Lemma _check_method_returns {E : Type} {MC : ModelCapability E}
    (estimator : E) (method : string) :
  _check_method estimator method = ret (resolved estimator method).
Proof. reflexivity. Qed.

(** C1 (the code departs from the claim).  For a base model without
    [predict_proba], [_check_method] returns the name instead of raising:
    it never raises, whatever the model and the method.  The call
    [predict_proba] then fails inside the worker with the
    [AttributeError] of the attribute lookup, not with the error of the
    capability check. *)
Theorem C1_check_method_does_not_raise :
  (forall (E : Type) (MC : ModelCapability E) (estimator : E) (method : string),
      exists m, _check_method estimator method = ([], inr m))
  /\ hasattr Toy.classifier "predict_proba" = false
  /\ _check_method Toy.classifier "predict_proba" = ([], inr "predict_proba")
  /\ SearchLight.predict_proba 1 (Inputs.ensemble Toy.classifier 1) Inputs.X212
     = ([], inl (AttributeError "predict_proba")).
Proof.
  split; [| repeat split; vm_compute; reflexivity].
  intros E MC estimator method. eexists. apply _check_method_returns.
Qed.

(** ** Arrays as functions of their indices *)

Lemma flat_map_length_const {A B : Type} (f : A -> list B) (m : nat) (l : list A) :
  (forall x, In x l -> length (f x) = m) ->
  length (flat_map f l) = length l * m.
Proof.
  induction l as [| x l IH]; simpl; intros Hf; [reflexivity |].
  rewrite length_app, Hf, IH; auto.
Qed.

Lemma flat_map_ext_in {A B : Type} (f g : A -> list B) (l : list A) :
  (forall x, In x l -> f x = g x) -> flat_map f l = flat_map g l.
Proof.
  induction l as [| x l IH]; simpl; intros Hf; [reflexivity |].
  rewrite Hf, IH; auto.
Qed.

Lemma nth_flat_map_const {A B : Type} (f : A -> list B) (m : nat) (l : list A)
    (i j : nat) (dx : A) (d : B) :
  (forall x, In x l -> length (f x) = m) ->
  i < length l -> j < m ->
  nth (i * m + j) (flat_map f l) d = nth j (f (nth i l dx)) d.
Proof.
  revert i. induction l as [| x l IH]; simpl; intros i Hf Hi Hj; [lia |].
  destruct i as [| i].
  - simpl. rewrite app_nth1; [reflexivity |]. rewrite Hf; auto.
  - rewrite app_nth2; rewrite Hf; auto; try lia.
    replace (S i * m + j - m) with (i * m + j) by lia.
    apply IH; auto. lia.
Qed.

Lemma build_length (sh : list nat) (g : list nat -> Q) :
  length (build sh g) = size sh.
Proof.
  revert g. induction sh as [| d sh IH]; intros g; simpl; [reflexivity |].
  rewrite flat_map_length_const with (m := size sh); [| intros; apply IH].
  now rewrite length_seq.
Qed.

Lemma inb_nil_inv (idx : list nat) : inb idx [] -> idx = [].
Proof. intros H. inversion H. reflexivity. Qed.

Lemma inb_cons_inv (idx : list nat) (d : nat) (sh : list nat) :
  inb idx (d :: sh) -> exists i idx', idx = i :: idx' /\ i < d /\ inb idx' sh.
Proof. intros H. inversion H; subst. eauto. Qed.

Lemma inb_length (idx sh : list nat) : inb idx sh -> length idx = length sh.
Proof. apply Forall2_length. Qed.

Lemma ravel_lt (sh idx : list nat) : inb idx sh -> ravel sh idx < size sh.
Proof.
  revert idx. induction sh as [| d sh IH]; intros idx H.
  - apply inb_nil_inv in H. subst. simpl. lia.
  - apply inb_cons_inv in H. destruct H as (i & idx' & -> & Hi & H).
    specialize (IH _ H). simpl. nia.
Qed.

Lemma nth_build (sh idx : list nat) (g : list nat -> Q) (d : Q) :
  inb idx sh -> nth (ravel sh idx) (build sh g) d = g idx.
Proof.
  revert idx g. induction sh as [| n sh IH]; intros idx g H.
  - apply inb_nil_inv in H. subst. reflexivity.
  - apply inb_cons_inv in H. destruct H as (i & idx' & -> & Hi & H).
    simpl. rewrite nth_flat_map_const with (m := size sh) (dx := 0).
    + rewrite seq_nth by assumption. simpl.
      now apply (IH idx' (fun idx => g (i :: idx))).
    + intros. apply build_length.
    + now rewrite length_seq.
    + now apply ravel_lt.
Qed.

Lemma build_ext (sh : list nat) (g h : list nat -> Q) :
  (forall idx, inb idx sh -> g idx = h idx) -> build sh g = build sh h.
Proof.
  revert g h. induction sh as [| n sh IH]; intros g h H; simpl.
  - f_equal. apply H. constructor.
  - apply flat_map_ext_in. intros i Hi. apply in_seq in Hi.
    apply IH. intros idx Hidx. apply H. constructor; [lia | assumption].
Qed.

Lemma flat_map_blocks {A : Type} (m d : nat) (l : list A) :
  length l = d * m ->
  flat_map (fun i => firstn m (skipn (i * m) l)) (seq 0 d) = l.
Proof.
  revert l. induction d as [| d IH]; intros l Hl.
  - simpl in *. now apply length_zero_iff_nil in Hl.
  - rewrite <- cons_seq, <- seq_shift.
    cbn [flat_map]. rewrite Nat.mul_0_l. cbn [skipn].
    etransitivity; [| apply (firstn_skipn m l)]. f_equal.
    rewrite flat_map_concat_map, map_map, <- flat_map_concat_map.
    etransitivity; [| apply (IH (skipn m l))].
    + apply flat_map_ext_in. intros i _. f_equal.
      rewrite skipn_skipn. f_equal. lia.
    + rewrite length_skipn. lia.
Qed.

Lemma build_nth (sh : list nat) (l : list Q) (d : Q) :
  length l = size sh ->
  build sh (fun idx => nth (ravel sh idx) l d) = l.
Proof.
  revert l. induction sh as [| n sh IH]; intros l Hl.
  - simpl in *. destruct l as [| x [| y l]]; simpl in *; try lia. reflexivity.
  - simpl in *.
    etransitivity; [| apply (flat_map_blocks (size sh) n l Hl)].
    apply flat_map_ext_in. intros i Hi. apply in_seq in Hi.
    etransitivity;
      [| apply (IH (firstn (size sh) (skipn (i * size sh) l)))].
    + apply build_ext. intros idx Hidx. apply ravel_lt in Hidx.
      rewrite nth_firstn.
      destruct (ravel sh idx <? size sh) eqn:Hlt;
        [| apply Nat.ltb_ge in Hlt; lia].
      rewrite nth_skipn. reflexivity.
    + rewrite length_firstn, length_skipn. nia.
Qed.

(** Two well-formed arrays of the same shape and kind that agree at every
    index are equal. *)
Lemma ndarray_ext (a b : ndarray) :
  wf a -> wf b -> shape a = shape b -> dtype a = dtype b ->
  (forall idx, inb idx (shape a) -> get a idx = get b idx) ->
  a = b.
Proof.
  destruct a as [sa ka da], b as [sb kb db]. unfold wf, get. simpl.
  intros Ha Hb <- <- H. f_equal.
  rewrite <- (build_nth sa da 0%Q Ha), <- (build_nth sa db 0%Q Hb).
  now apply build_ext.
Qed.

Lemma get_build (sh : list nat) (k : kind) (g : list nat -> Q) (idx : list nat) :
  inb idx sh -> get (mk_nd sh k (build sh g)) idx = g idx.
Proof. intros H. unfold get. simpl. now apply nth_build. Qed.

Lemma wf_build (sh : list nat) (k : kind) (g : list nat -> Q) :
  wf (mk_nd sh k (build sh g)).
Proof. unfold wf. simpl. apply build_length. Qed.

Lemma wf_zeros (sh : list nat) (k : kind) : wf (zeros sh k).
Proof. unfold wf, zeros. simpl. apply repeat_length. Qed.

Lemma get_zeros (sh : list nat) (k : kind) (idx : list nat) :
  get (zeros sh k) idx = 0%Q.
Proof. unfold get, zeros. simpl. apply nth_repeat. Qed.

(** A well-formed array is the table of its elements. *)
Lemma data_build (a : ndarray) :
  wf a -> data a = build (shape a) (get a).
Proof. intros H. symmetry. unfold get. now apply build_nth. Qed.

(** ** Loops and the parallel runner *)

Lemma bind_ext_result {E A B : Type} (m : M E A) (k h : A -> M E B) :
  (forall a, result m = inr a -> k a = h a) -> bind m k = bind m h.
Proof.
  intros Hk. destruct m as [log [e | a]]; unfold bind; simpl in *;
    [reflexivity |].
  now rewrite Hk.
Qed.

Lemma parallel_app {E A B : Type} (f : A -> M E B) (l1 l2 : list A) :
  parallel f (l1 ++ l2)
  = (a <- parallel f l1 ;; b <- parallel f l2 ;; ret (a ++ b))%monad.
Proof.
  induction l1 as [| x l1 IH]; simpl.
  - rewrite bind_ret_l. symmetry. apply bind_ret_r.
  - rewrite bind_assoc. apply bind_ext. intros b.
    rewrite IH, !bind_assoc. apply bind_ext. intros bs.
    rewrite bind_ret_l, bind_assoc. apply bind_ext. intros bs'.
    now rewrite !bind_ret_l.
Qed.

Lemma parallel_map {E A B C : Type} (f : B -> M E C) (g : A -> B) (l : list A) :
  parallel f (map g l) = parallel (fun x => f (g x)) l.
Proof. induction l as [| x l IH]; simpl; [reflexivity |]. now rewrite IH. Qed.

Lemma parallel_ext_in {E A B : Type} (f g : A -> M E B) (l : list A) :
  (forall x, In x l -> f x = g x) -> parallel f l = parallel g l.
Proof.
  induction l as [| x l IH]; simpl; intros H; [reflexivity |].
  rewrite H, IH; auto.
Qed.

Lemma parallel_length {E A B : Type} (f : A -> M E B) (l : list A) (bs : list B) :
  result (parallel f l) = inr bs -> length bs = length l.
Proof.
  revert bs. induction l as [| x l IH]; simpl; intros bs H.
  - inversion H. reflexivity.
  - unfold bind, ret in *. destruct (f x) as [log [e | b]]; simpl in H; [discriminate |].
    destruct (parallel f l) as [log' [e | bs']]; simpl in *; [discriminate |].
    inversion H. simpl. f_equal. now apply IH.
Qed.

(** When every call succeeds, the runner returns the results in input order
    and the calls made are those of the units, in input order. *)
Lemma parallel_success {E A B : Type} (f : A -> M E B)
    (log : A -> list (event E)) (g : A -> B) (l : list A) :
  (forall x, In x l -> f x = (log x, inr (g x))) ->
  parallel f l = (flat_map log l, inr (map g l)).
Proof.
  induction l as [| x l IH]; simpl; intros H; [reflexivity |].
  rewrite H, IH by auto. unfold bind, ret. simpl. now rewrite app_nil_r.
Qed.

Lemma foldM_ext {E A B : Type} (f g : A -> B -> M E A) (l : list B) (a : A) :
  (forall a x, f a x = g a x) -> foldM f l a = foldM g l a.
Proof.
  intros H. revert a. induction l as [| x l IH]; intros a; simpl;
    [reflexivity |].
  rewrite H. apply bind_ext. intros a'. apply IH.
Qed.

(** A loop that appends one result per iteration is a run of the units in
    order. *)
Lemma foldM_append {E A B : Type} (f : A -> M E B) (l : list A) (acc : list B) :
  foldM (fun acc x => e <- f x ;; ret (acc ++ [e]))%monad l acc
  = (es <- parallel f l ;; ret (acc ++ es))%monad.
Proof.
  revert acc. induction l as [| x l IH]; intros acc; simpl.
  - now rewrite bind_ret_l, app_nil_r.
  - rewrite !bind_assoc. apply bind_ext. intros b.
    rewrite bind_ret_l, IH, bind_assoc. apply bind_ext. intros bs.
    now rewrite bind_ret_l, <- app_assoc.
Qed.

Lemma parallel_concat {E A B C : Type} (f : A -> M E B) (ls : list (list A))
    (k : list B -> M E C) :
  (ess <- parallel (fun l => parallel f l) ls ;; k (concat ess))%monad
  = (es <- parallel f (concat ls) ;; k es)%monad.
Proof.
  revert k. induction ls as [| l ls IH]; intros k; simpl.
  - now rewrite !bind_ret_l.
  - rewrite parallel_app, !bind_assoc. apply bind_ext. intros es.
    rewrite !bind_assoc.
    transitivity (bind (parallel (fun l => parallel f l) ls)
                       (fun ess => k (es ++ concat ess))).
    + apply bind_ext. intros ess. now rewrite bind_ret_l.
    + rewrite (IH (fun es' => k (es ++ es'))).
      apply bind_ext. intros es'. now rewrite bind_ret_l.
Qed.

(** ** Sections of [array_split] *)

Lemma section_sizes_length (l k : nat) :
  0 < k -> length (section_sizes l k) = k.
Proof.
  intros Hk. unfold section_sizes. rewrite length_app, !repeat_length.
  pose proof (Nat.mod_upper_bound l k). lia.
Qed.

Lemma sum_repeat (x n : nat) : fold_right Nat.add 0 (repeat x n) = n * x.
Proof. induction n as [| n IH]; simpl; [reflexivity |]. rewrite IH. lia. Qed.

Lemma sum_app (l1 l2 : list nat) :
  fold_right Nat.add 0 (l1 ++ l2)
  = fold_right Nat.add 0 l1 + fold_right Nat.add 0 l2.
Proof. induction l1 as [| x l1 IH]; simpl; [reflexivity |]. rewrite IH. lia. Qed.

Lemma section_sizes_sum (l k : nat) :
  0 < k -> fold_right Nat.add 0 (section_sizes l k) = l.
Proof.
  intros Hk. unfold section_sizes. rewrite sum_app, !sum_repeat.
  pose proof (Nat.mod_upper_bound l k).
  pose proof (Nat.div_mod_eq l k). nia.
Qed.

Lemma sections_from_length (off : nat) (sizes : list nat) :
  length (sections_from off sizes) = length sizes.
Proof.
  revert off. induction sizes as [| s sizes IH]; intros off; simpl;
    [reflexivity |]. now rewrite IH.
Qed.

Lemma sections_length (l k : nat) : 0 < k -> length (sections l k) = k.
Proof.
  intros Hk. unfold sections.
  now rewrite sections_from_length, section_sizes_length.
Qed.

(** The sections are consecutive: their index ranges, in order, make up the
    whole axis. *)
Lemma sections_from_cover (off : nat) (sizes : list nat) :
  concat (map (fun s => seq (fst s) (snd s)) (sections_from off sizes))
  = seq off (fold_right Nat.add 0 sizes).
Proof.
  revert off. induction sizes as [| s sizes IH]; intros off; simpl;
    [reflexivity |]. now rewrite IH, seq_app.
Qed.

Lemma sections_cover (l k : nat) :
  0 < k ->
  concat (map (fun s => seq (fst s) (snd s)) (sections l k)) = seq 0 l.
Proof.
  intros Hk. unfold sections.
  now rewrite sections_from_cover, section_sizes_sum.
Qed.

Lemma sections_from_bound (off : nat) (sizes : list nat) (s : nat * nat) :
  In s (sections_from off sizes) ->
  off <= fst s /\ fst s + snd s <= off + fold_right Nat.add 0 sizes.
Proof.
  revert off. induction sizes as [| z sizes IH]; intros off; simpl;
    [tauto |].
  intros [<- | H]; simpl; [lia |]. apply IH in H. lia.
Qed.

Lemma sections_bound (l k : nat) (s : nat * nat) :
  0 < k -> In s (sections l k) -> fst s + snd s <= l.
Proof.
  intros Hk H. apply sections_from_bound in H.
  rewrite section_sizes_sum in H by assumption. lia.
Qed.

(** ** Slices along the last axis *)

Lemma inb_app (idx pre : list nat) (j t : nat) :
  inb idx pre -> j < t -> inb (idx ++ [j]) (pre ++ [t]).
Proof. intros H Hj. apply Forall2_app; [assumption |]. now constructor. Qed.

Lemma inb_app_inv (idx pre : list nat) (t : nat) :
  inb idx (pre ++ [t]) ->
  exists idx' j, idx = idx' ++ [j] /\ inb idx' pre /\ j < t.
Proof.
  intros H. apply Forall2_app_inv_r in H.
  destruct H as (idx' & l & H1 & H2 & ->).
  inversion H2 as [| j ? ? ? Hj Hnil]; subst. inversion Hnil; subst.
  eauto.
Qed.

Lemma shape_slice_last (X : ndarray) (pre : list nat) (t off sz : nat) :
  shape X = pre ++ [t] -> shape (slice_last X off sz) = pre ++ [sz].
Proof. intros H. unfold slice_last. simpl. now rewrite H, removelast_last. Qed.

Lemma wf_slice_last (X : ndarray) (off sz : nat) : wf (slice_last X off sz).
Proof. apply wf_build. Qed.

Lemma get_slice_last (X : ndarray) (pre : list nat) (t off sz : nat)
    (idx : list nat) (j : nat) :
  shape X = pre ++ [t] -> inb idx pre -> j < sz ->
  get (slice_last X off sz) (idx ++ [j]) = get X (idx ++ [off + j]).
Proof.
  intros H Hidx Hj. unfold slice_last. rewrite H, removelast_last.
  rewrite get_build by now apply inb_app.
  now rewrite removelast_last, last_last.
Qed.

Lemma getitem_last_eq (X : ndarray) (pre : list nat) (t ii : nat) :
  shape X = pre ++ [t] -> ii < t -> getitem_last X ii = inr (slice_at X ii).
Proof.
  intros H Hii. unfold getitem_last. rewrite H, rev_unit.
  apply Nat.ltb_lt in Hii. now rewrite Hii, <- H.
Qed.

Lemma slice_at_slice_last (X : ndarray) (pre : list nat) (t off sz j : nat) :
  shape X = pre ++ [t] -> j < sz ->
  slice_at (slice_last X off sz) j = slice_at X (off + j).
Proof.
  intros H Hj. unfold slice_at.
  rewrite (shape_slice_last X pre t off sz H), H, !removelast_last.
  f_equal. apply build_ext. intros idx Hidx.
  now apply get_slice_last with (pre := pre) (t := t).
Qed.

Lemma getitem_last_slice_last (X : ndarray) (pre : list nat) (t off sz j : nat) :
  shape X = pre ++ [t] -> j < sz -> off + sz <= t ->
  getitem_last (slice_last X off sz) j = getitem_last X (off + j).
Proof.
  intros H Hj Hb.
  rewrite (getitem_last_eq _ pre sz j (shape_slice_last X pre t off sz H) Hj).
  rewrite (getitem_last_eq X pre t (off + j) H) by lia.
  f_equal. now apply slice_at_slice_last with (pre := pre) (t := t).
Qed.

Lemma array_split_eq (X : ndarray) (pre : list nat) (t k : nat) :
  shape X = pre ++ [t] -> 0 < k ->
  array_split X k
  = inr (map (fun s => slice_last X (fst s) (snd s)) (sections t k)).
Proof.
  intros H Hk. unfold array_split. rewrite H, rev_unit.
  destruct (Nat.eqb_spec k 0); [lia | reflexivity].
Qed.

(** ** Fitting *)

Section Fit.

Context {E : Type} {MC : ModelCapability E}.

Lemma shape_last_eq (X : ndarray) (pre : list nat) (t : nat) :
  shape X = pre ++ [t] -> @shape_last E X = ret t.
Proof. intros H. unfold shape_last. now rewrite H, rev_unit. Qed.

Lemma _sl_fit_parallel (estimator : E) (X y : ndarray) (pre : list nat) (t : nat) :
  shape X = pre ++ [t] ->
  _sl_fit estimator X y = parallel (fit_slice estimator X y) (seq 0 t).
Proof.
  intros H. unfold _sl_fit. rewrite (shape_last_eq X pre t H), bind_ret_l.
  transitivity (foldM (fun acc ii => e <- fit_slice estimator X y ii ;;
                                     ret (acc ++ [e]))%monad (seq 0 t) []).
  - apply foldM_ext. intros acc ii. unfold fit_slice.
    rewrite !bind_assoc. apply bind_ext. intros est.
    rewrite !bind_assoc. apply bind_ext. intros fit.
    now rewrite bind_assoc.
  - rewrite foldM_append. simpl. apply bind_ret_r.
Qed.

Lemma seq_offset (off sz : nat) : seq off sz = map (Nat.add off) (seq 0 sz).
Proof.
  revert off. induction sz as [| sz IH]; intros off; simpl; [reflexivity |].
  rewrite Nat.add_0_r. f_equal.
  rewrite (IH (S off)), (IH 1), map_map. apply map_ext. intros i. lia.
Qed.

Lemma fit_slice_slice_last (estimator : E) (X y : ndarray) (pre : list nat)
    (t off sz j : nat) :
  shape X = pre ++ [t] -> j < sz -> off + sz <= t ->
  fit_slice estimator (slice_last X off sz) y j
  = fit_slice estimator X y (off + j).
Proof.
  intros H Hj Hb. unfold fit_slice.
  apply bind_ext. intros est. apply bind_ext. intros fit.
  now rewrite (getitem_last_slice_last X pre t off sz j H Hj Hb).
Qed.

Lemma _sl_fit_slice_last (estimator : E) (X y : ndarray) (pre : list nat)
    (t off sz : nat) :
  shape X = pre ++ [t] -> off + sz <= t ->
  _sl_fit estimator (slice_last X off sz) y
  = parallel (fit_slice estimator X y) (seq off sz).
Proof.
  intros H Hb.
  rewrite (_sl_fit_parallel estimator _ y pre sz
             (shape_slice_last X pre t off sz H)).
  rewrite (seq_offset off sz), parallel_map.
  apply parallel_ext_in. intros j Hj. apply in_seq in Hj.
  apply fit_slice_slice_last with (pre := pre) (t := t); auto. lia.
Qed.

Variable n_cores : nat.

(** Fitting with any number of jobs is fitting the slices one after the
    other, in slice order. *)
Lemma fit_sequential (self : SearchLight.t) (X y : ndarray) (n c s : nat) :
  shape X = [n; c; s] -> len y = inr n -> 0 < n ->
  0 < parallel_func n_cores (SearchLight.n_jobs self) ->
  SearchLight.fit n_cores self X y
  = (es <- parallel (fit_slice (SearchLight.base_estimator self) X y) (seq 0 s) ;;
     ret (SearchLight.mk (SearchLight.base_estimator self)
                         (SearchLight.n_jobs self) (Some es)))%monad.
Proof.
  intros HX Hy Hn Hk.
  set (k := parallel_func n_cores (SearchLight.n_jobs self)) in *.
  unfold SearchLight.fit, SearchLight._check_Xy. fold k.
  unfold len at 1. rewrite HX, Hy, !bind_assoc, !bind_lift_inr.
  rewrite Nat.eqb_refl. destruct (Nat.ltb_spec n 1) as [Hlt | _]; [lia |].
  simpl negb. simpl orb. cbv iota. rewrite bind_ret_l.
  unfold ndim. rewrite HX. simpl. rewrite bind_ret_l.
  rewrite (array_split_eq X [n; c] s k HX Hk), bind_lift_inr, parallel_map.
  rewrite (parallel_ext_in _
             (fun sec => parallel (fit_slice (SearchLight.base_estimator self) X y)
                                  (seq (fst sec) (snd sec)))).
  2:{ intros sec Hsec.
      apply _sl_fit_slice_last with (pre := [n; c]) (t := s); [assumption |].
      now apply sections_bound with (k := k). }
  rewrite <- (parallel_map (fun l => parallel _ l)
                           (fun sec => seq (fst sec) (snd sec))).
  rewrite <- (sections_cover s k Hk).
  rewrite <- parallel_concat.
  apply bind_ext_result. intros ess Hess.
  apply parallel_length in Hess. rewrite length_map, sections_length in Hess by assumption.
  destruct ess as [| es ess]; [simpl in Hess; lia |].
  unfold concatenate_objects. now rewrite bind_lift_inr.
Qed.

End Fit.

(** ** C8 *)

Lemma fit_slice_success {E : Type} {MC : ModelCapability E}
    (estimator : E) (X y : ndarray) (pre : list nat) (t i : nat) (e : E) :
  shape X = pre ++ [t] -> i < t ->
  hasattr (clone estimator) "fit" = true ->
  fit_method (clone estimator) (slice_at X i) y = inr e ->
  fit_slice estimator X y i
  = ([Invoke estimator "clone" [];
      Invoke (clone estimator) "fit" [slice_at X i; y]], inr e).
Proof.
  intros HX Hi Hfit He. unfold fit_slice, call_clone.
  unfold bind at 1. cbv beta iota. unfold getattr_fit.
  rewrite Hfit, bind_ret_l.
  rewrite (getitem_last_eq X pre t i HX Hi), bind_lift_inr, He.
  reflexivity.
Qed.

(** C8.  After [fit(X, y)] on a tensor with [s] slices the ensemble holds
    exactly [s] models, in slice order; the model at index [i] is a clone of
    the prototype fitted on [X[:, :, i]] and [y], and the only calls made
    are, for each slice in order, one [clone] of the prototype and one
    [fit] of that clone on the slice.  This holds for every number of
    jobs. *)
Theorem C8_fit_cardinality {E : Type} {MC : ModelCapability E}
    (n_cores : nat) (self : SearchLight.t) (X y : ndarray) (n c s : nat)
    (fitted : nat -> E) :
  shape X = [n; c; s] -> len y = inr n -> 0 < n ->
  0 < parallel_func n_cores (SearchLight.n_jobs self) ->
  hasattr (clone (SearchLight.base_estimator self)) "fit" = true ->
  (forall i, i < s ->
     fit_method (clone (SearchLight.base_estimator self)) (slice_at X i) y
     = inr (fitted i)) ->
  exists es,
    SearchLight.fit n_cores self X y
    = (flat_map (fun i =>
                   [Invoke (SearchLight.base_estimator self) "clone" [];
                    Invoke (clone (SearchLight.base_estimator self)) "fit"
                           [slice_at X i; y]]) (seq 0 s),
       inr (SearchLight.mk (SearchLight.base_estimator self)
                           (SearchLight.n_jobs self) (Some es)))
    /\ length es = s
    /\ forall i, i < s -> nth_error es i = Some (fitted i).
Proof.
  intros HX Hy Hn Hk Hfit Hfitted.
  exists (map fitted (seq 0 s)). split; [| split].
  - rewrite (fit_sequential n_cores self X y n c s HX Hy Hn Hk).
    rewrite (parallel_success _
               (fun i => [Invoke (SearchLight.base_estimator self) "clone" [];
                          Invoke (clone (SearchLight.base_estimator self)) "fit"
                                 [slice_at X i; y]]) fitted).
    + unfold bind, ret. now rewrite app_nil_r.
    + intros i Hi. apply in_seq in Hi.
      apply fit_slice_success with (pre := [n; c]) (t := s);
        [assumption | lia | assumption | apply Hfitted; lia].
  - now rewrite length_map, length_seq.
  - intros i Hi. rewrite nth_error_map, nth_error_nth' with (d := 0)
      by now rewrite length_seq.
    now rewrite seq_nth.
Qed.

Lemma C8_fit_cardinality_witness :
  exists es,
    SearchLight.fit 4 (SearchLight.mk Toy.classifier 2 None) Inputs.X212 Inputs.y2
    = (flat_map (fun i =>
                   [Invoke Toy.classifier "clone" [];
                    Invoke (clone Toy.classifier) "fit"
                           [slice_at Inputs.X212 i; Inputs.y2]]) (seq 0 2),
       inr (SearchLight.mk Toy.classifier 2 (Some es)))
    /\ length es = 2
    /\ forall i, i < 2 ->
         nth_error es i
         = Some (nth i (Inputs.fitted Toy.classifier) Toy.classifier).
Proof.
  apply (C8_fit_cardinality 4 (SearchLight.mk Toy.classifier 2 None)
           Inputs.X212 Inputs.y2 2 1 2
           (fun i => nth i (Inputs.fitted Toy.classifier) Toy.classifier)).
  - reflexivity.
  - reflexivity.
  - lia.
  - vm_compute. lia.
  - reflexivity.
  - intros [| [| i]] Hi; [vm_compute; reflexivity | vm_compute; reflexivity | lia].
Defined.

(** ** C9 *)

(** C9.  On a fitted same-slice ensemble, an input of rank 3 whose number of
    slices differs from the number of fitted models makes every apply call
    and the score call raise the count-mismatch [ValueError], and no call
    has been made on any model object when it is raised. *)
Theorem C9_count_mismatch {E : Type} {MC : ModelCapability E}
    (n_cores : nat) (self : SearchLight.t) (X : ndarray) (n c s : nat)
    (ests : list E) :
  shape X = [n; c; s] ->
  SearchLight.estimators_ self = Some ests ->
  s <> length ests ->
  (forall method,
      SearchLight._transform n_cores self X method
      = ([], inl (ValueError "The number of estimators does not match X.shape[2]")))
  /\ (forall y,
      SearchLight.score n_cores self X y
      = ([], inl (ValueError "The number of estimators does not match X.shape[2]"))).
Proof.
  intros HX Hests Hs. apply Nat.eqb_neq in Hs.
  split; intros;
    unfold SearchLight._transform, SearchLight.score, SearchLight._check_Xy,
      SearchLight.get_estimators_, ndim;
    rewrite ?_check_method_returns, HX, Hests; simpl;
    rewrite ?bind_ret_l, (shape_last_eq (E := E) X [n; c] s HX), !bind_ret_l, Hs;
    reflexivity.
Qed.

Lemma C9_count_mismatch_witness :
  (forall method,
      SearchLight._transform 4 (Inputs.ensemble Toy.classifier 1) Inputs.X211 method
      = ([], inl (ValueError "The number of estimators does not match X.shape[2]")))
  /\ (forall y,
      SearchLight.score 4 (Inputs.ensemble Toy.classifier 1) Inputs.X211 y
      = ([], inl (ValueError "The number of estimators does not match X.shape[2]"))).
Proof.
  apply (C9_count_mismatch 4 (Inputs.ensemble Toy.classifier 1) Inputs.X211
           2 1 1 (Inputs.fitted Toy.classifier)).
  - reflexivity.
  - reflexivity.
  - simpl. lia.
Defined.

(** ** Calls made on model objects *)

Lemma Forall_calls_bind {E A B : Type} (P : event E -> Prop)
    (m : M E A) (k : A -> M E B) :
  Forall P (calls m) ->
  (forall a, result m = inr a -> Forall P (calls (k a))) ->
  Forall P (calls (bind m k)).
Proof.
  destruct m as [log [e | a]]; unfold bind, calls, result; simpl;
    intros Hm Hk; [assumption |].
  specialize (Hk a eq_refl). destruct (k a) as [log' r]. simpl in *.
  apply Forall_app. now split.
Qed.

Lemma Forall_calls_foldM {E A B : Type} (P : event E -> Prop)
    (f : A -> B -> M E A) (l : list B) (a : A) :
  (forall a x, In x l -> Forall P (calls (f a x))) ->
  Forall P (calls (foldM f l a)).
Proof.
  revert a. induction l as [| x l IH]; intros a H; simpl; [constructor |].
  apply Forall_calls_bind; [apply H; now left |].
  intros a' _. apply IH. intros; apply H; now right.
Qed.

Lemma Forall_calls_parallel {E A B : Type} (P : event E -> Prop)
    (f : A -> M E B) (l : list A) :
  (forall x, In x l -> Forall P (calls (f x))) ->
  Forall P (calls (parallel f l)).
Proof.
  induction l as [| x l IH]; intros H; simpl; [constructor |].
  apply Forall_calls_bind; [apply H; now left |].
  intros b _. apply Forall_calls_bind; [apply IH; intros; apply H; now right |].
  intros bs _. constructor.
Qed.

Lemma getattr_inv {E : Type} {MC : ModelCapability E}
    (est : E) (name : string) (f : ndarray -> M E ndarray) :
  result (getattr est name) = inr f ->
  f = fun X => ([Invoke est name [X]], apply_method est name X).
Proof.
  unfold getattr. destruct (hasattr est name); simpl; intros H;
    [now inversion H | discriminate].
Qed.

Lemma getattr_calls {E : Type} {MC : ModelCapability E} (est : E) (name : string) :
  calls (getattr est name) = [].
Proof. unfold getattr. now destruct (hasattr est name). Qed.

(** One step of the analysis of the calls of a computation. *)
Ltac calls_step :=
  match goal with
  | |- Forall _ (calls (bind (getattr _ _) _)) =>
      let f := fresh "f" in
      let Hf := fresh "Hf" in
      apply Forall_calls_bind;
      [rewrite getattr_calls; constructor
      | intros f Hf; apply getattr_inv in Hf; subst f]
  | |- Forall _ (calls (bind _ _)) =>
      apply Forall_calls_bind; [| intros ? ?]
  | |- Forall _ (calls (ret _)) => constructor
  | |- Forall _ (calls (raise _)) => constructor
  | |- Forall _ (calls (lift _)) => constructor
  | |- Forall _ (calls (local _ ?v)) => destruct v; constructor
  | |- Forall _ (calls (unpack3 ?sh)) =>
      destruct sh as [| ? [| ? [| ? [| ? ?]]]]; constructor
  | |- Forall _ (calls (shape_last ?X)) =>
      unfold shape_last; destruct (rev (shape X)); constructor
  | |- Forall _ (calls (SearchLight.get_estimators_ ?s)) =>
      unfold SearchLight.get_estimators_;
      destruct (SearchLight.estimators_ s); constructor
  | |- Forall _ (calls (_check_method _ _)) => constructor
  | |- Forall _ (calls (if ?b then _ else _)) => destruct b
  | |- Forall _ (calls (let (_, _) := ?p in _)) => destruct p
  | |- Forall _ (calls (match ?x with _ => _ end)) => destruct x
  | |- Forall _ (calls (foldM _ _ _)) =>
      apply Forall_calls_foldM; intros ? ? ?
  | |- Forall _ (calls (parallel _ _)) =>
      apply Forall_calls_parallel; intros ? ?
  | |- Forall _ (calls (_, _)) =>
      unfold calls; simpl; repeat constructor
  end.

Section Calls.

Context {E : Type} {MC : ModelCapability E}.

Lemma _sl_transform_calls (estimators : list E) (X : ndarray) (method : string) :
  Forall (fun ev => event_name ev = method)
         (calls (_sl_transform estimators X method)).
Proof. unfold _sl_transform, _sl_init_pred. repeat calls_step. Qed.

Lemma _gl_transform_calls (estimators : list E) (X : ndarray) (method : string) :
  Forall (fun ev => event_name ev = method)
         (calls (_gl_transform estimators X method)).
Proof. unfold _gl_transform, _gl_init_pred. repeat calls_step. Qed.

Lemma no_calls (l : list (event E)) : Forall (fun _ => False) l -> l = [].
Proof. destruct l; [reflexivity |]. intros H. inversion H. contradiction. Qed.

Lemma check_Xy_calls (self : SearchLight.t) (X : ndarray) (y : option ndarray) :
  calls (SearchLight._check_Xy (E := E) self X y) = [].
Proof.
  apply no_calls. unfold SearchLight._check_Xy. repeat calls_step.
Qed.

Variable n_cores : nat.

Lemma SearchLight_transform_calls (self : SearchLight.t) (X : ndarray)
    (method : string) :
  Forall (fun ev => event_name ev = resolved (SearchLight.base_estimator self) method)
         (calls (SearchLight._transform n_cores self X method)).
Proof.
  unfold SearchLight._transform. rewrite _check_method_returns.
  apply Forall_calls_bind; [rewrite check_Xy_calls; constructor | intros _ _].
  rewrite bind_ret_l.
  repeat (apply _sl_transform_calls || calls_step).
Qed.

Lemma GeneralizationLight_transform_calls (self : SearchLight.t) (X : ndarray)
    (method : string) :
  Forall (fun ev => event_name ev = resolved (SearchLight.base_estimator self) method)
         (calls (GeneralizationLight._transform n_cores self X method)).
Proof.
  unfold GeneralizationLight._transform, GeneralizationLight._check_Xy.
  rewrite _check_method_returns.
  apply Forall_calls_bind; [rewrite check_Xy_calls; constructor | intros _ _].
  rewrite bind_ret_l.
  repeat (apply _gl_transform_calls || calls_step).
Qed.

End Calls.

(** ** C5 *)

(** [fit] validates [y]: a length different from the number of samples of
    [X], or an empty [y], raises before any call on a model object. *)
Lemma fit_checks_y {E : Type} {MC : ModelCapability E}
    (n_cores : nat) (self : SearchLight.t) (X y : ndarray) (n m : nat) :
  len X = inr n -> len y = inr m -> n <> m \/ m < 1 ->
  SearchLight.fit n_cores self X y
  = ([], inl (ValueError "X and y must have the same length.")).
Proof.
  intros HX Hy Hnm. unfold SearchLight.fit, SearchLight._check_Xy.
  rewrite HX, Hy, !bind_assoc, !bind_lift_inr.
  replace (negb (n =? m) || (m <? 1)) with true; [reflexivity |].
  symmetry. apply orb_true_iff. destruct Hnm as [Hnm | Hm].
  - left. apply negb_true_iff. now apply Nat.eqb_neq.
  - right. now apply Nat.ltb_lt.
Qed.

(** C5 (the code departs from the claim).  [X] has two samples and [y] has
    one label.  [fit] rejects the pair before any call on a model, but
    [score], in both modes, calls [_check_Xy(X)] without [y]: the pair is
    not rejected and the [score] method of the fitted models is called
    with it.  The same-slice call then stops on the [TypeError] of its
    allocation (the score is a scalar), after that first call; the
    cross-slice call returns a result. *)
Theorem C5_score_does_not_check_y :
  len Inputs.X212 = inr 2 /\ len Inputs.y1 = inr 1
  /\ SearchLight.fit 4 (SearchLight.mk Toy.classifier 1 None) Inputs.X212 Inputs.y1
     = ([], inl (ValueError "X and y must have the same length."))
  /\ SearchLight.score 4 (Inputs.ensemble Toy.classifier 1) Inputs.X212 Inputs.y1
     = ([Invoke (Inputs.fitted0 Toy.classifier) "score"
                [slice_at Inputs.X212 0; Inputs.y1]],
        inl (TypeError
               "'numpy.float64' object cannot be interpreted as an integer"))
  /\ (exists log a,
         GeneralizationLight.score 4 (Inputs.ensemble Toy.classifier 1)
           Inputs.X212 Inputs.y1
         = (log, inr a)
         /\ map event_name log = ["score"; "score"; "score"; "score"]
         /\ Forall (fun ev => nth 1 (event_args ev) Inputs.X212 = Inputs.y1) log).
Proof.
  split; [reflexivity |]. split; [reflexivity |].
  split; [apply (fit_checks_y 4 _ _ _ 2 1); (reflexivity || lia) |].
  split; [vm_compute; reflexivity |].
  eexists; eexists; (split; [vm_compute; reflexivity |]);
    (split; [reflexivity | repeat constructor]).
Qed.

(** ** Conversions between the kinds *)

Lemma cast_same (k : kind) (q : Q) : cast k k q = q.
Proof. now destruct k. Qed.

Lemma cast_zero (s d : kind) : cast s d 0%Q = 0%Q.
Proof. destruct s, d; reflexivity. Qed.

(** An integer up to 2^53 in magnitude is a double. *)
Lemma round53_exact (z : Z) : (Z.abs z <= 2 ^ 53)%Z -> round53 z = z.
Proof.
  intros H.
  destruct (Z.eq_dec (Z.abs z) (2 ^ 53)) as [He | Hne].
  - destruct (Z.abs_eq_or_opp z) as [Hz | Hz]; rewrite Hz in He.
    + subst z. reflexivity.
    + assert (z = (- 2 ^ 53)%Z) as -> by lia. reflexivity.
  - unfold round53.
    assert (Hlog : (Z.log2 (Z.abs z) < 53)%Z).
    { destruct (Z.eq_dec (Z.abs z) 0) as [-> | H0]; [reflexivity |].
      apply Z.log2_lt_pow2; lia. }
    destruct (Z.ltb_spec (Z.log2 (Z.abs z)) 53); [reflexivity | lia].
Qed.

Lemma cast_int_float_exact (z : Z) :
  (Z.abs z <= 2 ^ 53)%Z -> cast int_ float_ (inject_Z z) = inject_Z z.
Proof.
  intros H. unfold cast, to_float, inject_Z. cbn [Qnum Qden].
  now rewrite Z.quot_1_r, round53_exact.
Qed.

(** A double whose integer part is in the 64-bit range is truncated. *)
Lemma cast_float_int_in_range (q : Q) :
  (int_min <= Z.quot (Qnum q) (Zpos (Qden q)) <= int_max)%Z ->
  cast float_ int_ q = trunc q.
Proof.
  intros [Hlo Hhi]. unfold cast, to_int, trunc.
  apply Z.leb_le in Hlo. apply Z.leb_le in Hhi. now rewrite Hlo, Hhi.
Qed.

(** ** Concatenation along an axis *)

Lemma set_nth_length (k x : nat) (l : list nat) :
  length (set_nth k x l) = length l.
Proof.
  revert k. induction l as [| y l IH]; intros [| k]; simpl; auto.
Qed.

Lemma nth_set_nth (k x d : nat) (l : list nat) :
  k < length l -> nth k (set_nth k x l) d = x.
Proof.
  revert k. induction l as [| y l IH]; intros [| k]; simpl; intros H;
    try lia; auto. apply IH. lia.
Qed.

Lemma set_nth_set_nth (k x y : nat) (l : list nat) :
  set_nth k x (set_nth k y l) = set_nth k x l.
Proof.
  revert k. induction l as [| z l IH]; intros [| k]; simpl; auto.
  now rewrite IH.
Qed.

Lemma set_nth_nth (k d : nat) (l : list nat) :
  k < length l -> set_nth k (nth k l d) l = l.
Proof.
  revert k. induction l as [| z l IH]; intros [| k]; simpl; intros H;
    try lia; auto. rewrite IH; auto. lia.
Qed.

Lemma inb_set_nth (k i d : nat) (idx sh : list nat) :
  inb idx sh -> i < d -> inb (set_nth k i idx) (set_nth k d sh).
Proof.
  intros H Hi. revert k. induction H as [| j e idx sh Hj H IH]; intros k.
  - destruct k; constructor.
  - destruct k as [| k]; simpl; constructor;
      solve [assumption | apply IH].
Qed.

Lemma inb_nth (k : nat) (idx sh : list nat) :
  inb idx sh -> k < length sh -> nth k idx 0 < nth k sh 0.
Proof.
  intros H. revert k. induction H as [| j e idx sh Hj H IH]; intros k Hk;
    simpl in *; [lia |].
  destruct k as [| k]; [assumption |]. apply IH. lia.
Qed.

Lemma inb_set_nth_inv (k d : nat) (idx sh : list nat) :
  inb idx (set_nth k d sh) -> k < length sh ->
  nth k idx 0 < d /\ forall e, nth k idx 0 < e -> inb idx (set_nth k e sh).
Proof.
  intros H Hk. split.
  - pose proof (inb_nth k idx _ H) as Hn.
    rewrite set_nth_length, nth_set_nth in Hn by assumption. now apply Hn.
  - intros e He.
    rewrite <- (set_nth_nth k 0 idx)
      by (rewrite (inb_length _ _ H), set_nth_length; assumption).
    rewrite <- (set_nth_set_nth k e d sh). now apply inb_set_nth.
Qed.

Lemma shape_eqb_refl (sh : list nat) : shape_eqb sh sh = true.
Proof. induction sh; simpl; [reflexivity |]. now rewrite Nat.eqb_refl. Qed.

Lemma locate_sections (sizes : list nat) (i off : nat) :
  i < fold_right Nat.add 0 sizes ->
  let (j, i') := locate i sizes in
  j < length sizes
  /\ i' < snd (nth j (sections_from off sizes) (0, 0))
  /\ fst (nth j (sections_from off sizes) (0, 0)) + i' = off + i.
Proof.
  revert i off. induction sizes as [| d sizes IH]; intros i off Hi;
    simpl in *; [lia |].
  destruct (Nat.ltb_spec i d) as [Hlt | Hge].
  - simpl. repeat split; lia.
  - specialize (IH (i - d) (off + d)).
    destruct (locate (i - d) sizes) as [j i'].
    destruct IH as (Hj & Hi' & Hoff); [lia |]. simpl. repeat split; lia.
Qed.

Lemma fold_promote_same (k : kind) (l : list kind) :
  Forall (eq k) l -> fold_right promote k l = k.
Proof.
  induction 1 as [| x l <- _ IH]; simpl; [reflexivity |].
  rewrite IH. now destruct k.
Qed.

(** The piece of the table [g] over shape [sh0] that an (offset, size)
    section of the axis [axis] selects. *)
Lemma concatenate_sections (axis : nat) (sh0 : list nat) (k : kind)
    (g : list nat -> Q) (sizes : list nat) (arrs : list ndarray) :
  axis < length sh0 -> sizes <> [] ->
  arrs = map (fun s =>
                mk_nd (set_nth axis (snd s) sh0) k
                  (build (set_nth axis (snd s) sh0)
                     (fun idx => g (set_nth axis (fst s + nth axis idx 0) idx))))
             (sections_from 0 sizes) ->
  concatenate arrs axis
  = inr (mk_nd (set_nth axis (fold_right Nat.add 0 sizes) sh0) k
           (build (set_nth axis (fold_right Nat.add 0 sizes) sh0) g)).
Proof.
  intros Hax Hsizes ->.
  set (mkc := fun s : nat * nat =>
                mk_nd (set_nth axis (snd s) sh0) k
                  (build (set_nth axis (snd s) sh0)
                     (fun idx => g (set_nth axis (fst s + nth axis idx 0) idx)))).
  destruct sizes as [| z sizes]; [congruence |]. clear Hsizes.
  assert (Hdims : forall off l,
             map (fun a => nth axis (shape a) 0) (map mkc (sections_from off l)) = l).
  { intros off l. revert off. induction l as [| x l IH]; intros off; simpl;
      [reflexivity |]. rewrite nth_set_nth by assumption. now rewrite IH. }
  unfold concatenate.
  remember (z :: sizes) as zs eqn:Hzs.
  assert (Hne : map mkc (sections_from 0 zs)
                = mkc (0, z) :: map mkc (sections_from (0 + z) sizes))
    by now subst zs.
  rewrite Hne. rewrite <- Hne at 1 2.
  unfold ndim. cbn [mkc shape snd fst dtype]. rewrite set_nth_length.
  destruct (Nat.ltb_spec axis (length sh0)) as [_ | ?]; [| lia]. cbn [negb].
  replace (forallb _ _) with true.
  2:{ symmetry. apply forallb_forall. intros a Ha. apply in_map_iff in Ha.
      destruct Ha as (s & <- & _). unfold mkc. cbn [shape].
      rewrite !set_nth_set_nth. apply shape_eqb_refl. }
  cbn [negb]. cbv zeta. rewrite Hdims, set_nth_set_nth.
  rewrite fold_promote_same.
  2:{ apply Forall_forall. intros x Hx. apply in_map_iff in Hx.
      destruct Hx as (a & <- & Ha). apply in_map_iff in Ha.
      now destruct Ha as (s & <- & _). }
  do 2 f_equal. apply build_ext. intros idx Hidx.
  destruct (inb_set_nth_inv axis _ idx sh0 Hidx Hax) as [Hi Hinb].
  pose proof (locate_sections zs (nth axis idx 0) 0 Hi) as Hloc.
  rewrite <- ?Hne, Hdims.
  destruct (locate (nth axis idx 0) zs) as [j i']. destruct Hloc as (Hj & Hi' & Hoff).
  rewrite nth_indep with (d' := mkc (0, 0))
    by now rewrite length_map, sections_from_length.
  rewrite map_nth. unfold mkc at 1 2. cbn [dtype]. rewrite cast_same.
  assert (Hlen : axis < length idx)
    by now rewrite (inb_length _ _ Hidx), set_nth_length.
  rewrite get_build.
  - rewrite set_nth_set_nth, nth_set_nth by assumption.
    rewrite Hoff. simpl. now rewrite set_nth_nth.
  - rewrite <- (set_nth_set_nth axis _ (S (nth axis idx 0)) sh0).
    apply inb_set_nth; [| assumption]. apply Hinb. lia.
Qed.

(** ** Partition of the input among the jobs *)

Lemma slice_last_3 (X : ndarray) (n c t off sz : nat) :
  shape X = [n; c; t] ->
  slice_last X off sz
  = mk_nd (set_nth 2 sz [n; c; t]) (dtype X)
      (build (set_nth 2 sz [n; c; t])
         (fun idx => get X (set_nth 2 (off + nth 2 idx 0) idx))).
Proof.
  intros HX. unfold slice_last. rewrite HX. reflexivity.
Qed.

Lemma ndarray_eta (X : ndarray) :
  wf X -> X = mk_nd (shape X) (dtype X) (build (shape X) (get X)).
Proof.
  intros H. destruct X as [sh k d]. simpl. f_equal.
  apply (data_build (mk_nd sh k d) H).
Qed.

Lemma section_sizes_nonempty (l k : nat) : 0 < k -> section_sizes l k <> [].
Proof.
  intros Hk H. apply (f_equal (@length nat)) in H.
  rewrite section_sizes_length in H by assumption. simpl in H. lia.
Qed.

(** Concatenating the chunks of [array_split], in order, along the slice
    axis gives the array back. *)
Lemma array_split_concatenate (X : ndarray) (n c t k : nat) :
  shape X = [n; c; t] -> wf X -> 0 < k ->
  concatenate (map (slice_range X) (sections t k)) 2 = inr X.
Proof.
  intros HX Hwf Hk.
  rewrite (concatenate_sections 2 [n; c; t] (dtype X) (get X)
             (section_sizes t k)).
  - rewrite section_sizes_sum by assumption.
    change (set_nth 2 t [n; c; t]) with [n; c; t]. f_equal.
    etransitivity; [| symmetry; apply (ndarray_eta X Hwf)].
    now rewrite HX.
  - simpl. lia.
  - now apply section_sizes_nonempty.
  - apply map_ext. intros s. now apply slice_last_3.
Qed.

Lemma combine_map {A B C : Type} (f : A -> B) (g : A -> C) (l : list A) :
  combine (map f l) (map g l) = map (fun x => (f x, g x)) l.
Proof. induction l as [| x l IH]; simpl; [reflexivity |]. now rewrite IH. Qed.

Section Dispatch.

Context {E : Type} {MC : ModelCapability E}.

Variable n_cores : nat.

Lemma check_X_ok (self : SearchLight.t) (X : ndarray) (n c t : nat) :
  shape X = [n; c; t] -> SearchLight._check_Xy (E := E) self X None = ret tt.
Proof.
  intros HX. unfold SearchLight._check_Xy, ndim. rewrite HX. simpl.
  now rewrite bind_ret_l.
Qed.

(** What a same-slice apply call dispatches: job number [i] receives the
    [i]-th range of slices of [X], all samples included, and the models of
    the same range; the results are joined in that order along the slice
    axis of the output. *)
Lemma SearchLight_transform_dispatch (self : SearchLight.t) (X : ndarray)
    (n c t : nat) (ests : list E) (method : string) :
  shape X = [n; c; t] ->
  SearchLight.estimators_ self = Some ests -> t = length ests ->
  let k := parallel_func n_cores (SearchLight.n_jobs self) in
  0 < k ->
  SearchLight._transform n_cores self X method
  = (y_pred <- parallel (fun s => _sl_transform (est_range ests s) (slice_range X s)
                                    (resolved (SearchLight.base_estimator self) method))
                        (sections t k) ;;
     if 1 <? k then lift (concatenate y_pred 1) else lift (item0 y_pred))%monad.
Proof.
  intros HX Hests Ht k Hk. unfold SearchLight._transform. fold k.
  rewrite (check_X_ok self X n c t HX), bind_ret_l.
  rewrite _check_method_returns, bind_ret_l.
  rewrite (shape_last_eq X [n; c] t HX), bind_ret_l.
  unfold SearchLight.get_estimators_. rewrite Hests, !bind_ret_l.
  rewrite Ht at 1. rewrite Nat.eqb_refl. cbn [negb].
  rewrite (array_split_eq X [n; c] t k HX Hk), bind_lift_inr.
  unfold list_split. destruct (Nat.eqb_spec k 0) as [? | _]; [lia |].
  rewrite bind_ret_l, bind_lift_inr, <- Ht, combine_map, parallel_map.
  reflexivity.
Qed.

Lemma SearchLight_score_dispatch (self : SearchLight.t) (X y : ndarray)
    (n c t : nat) (ests : list E) :
  shape X = [n; c; t] ->
  SearchLight.estimators_ self = Some ests -> t = length ests ->
  let k := parallel_func n_cores (SearchLight.n_jobs self) in
  0 < k ->
  SearchLight.score n_cores self X y
  = (score <- parallel (fun s => _sl_score (est_range ests s) (slice_range X s) y)
                       (sections t k) ;;
     if 1 <? k then lift (concatenate score 0) else lift (item0 score))%monad.
Proof.
  intros HX Hests Ht k Hk. unfold SearchLight.score. fold k.
  rewrite (check_X_ok self X n c t HX), bind_ret_l.
  rewrite (shape_last_eq X [n; c] t HX), bind_ret_l.
  unfold SearchLight.get_estimators_. rewrite Hests, !bind_ret_l.
  rewrite Ht at 1. rewrite Nat.eqb_refl. cbn [negb].
  rewrite (array_split_eq X [n; c] t k HX Hk), bind_lift_inr.
  unfold list_split. destruct (Nat.eqb_spec k 0) as [? | _]; [lia |].
  rewrite bind_ret_l, bind_lift_inr, <- Ht, combine_map, parallel_map.
  reflexivity.
Qed.

(** In cross-slice mode every job receives the whole ensemble and one range
    of slices of [X]. *)
Lemma GeneralizationLight_transform_dispatch (self : SearchLight.t) (X : ndarray)
    (n c t : nat) (ests : list E) (method : string) :
  shape X = [n; c; t] ->
  SearchLight.estimators_ self = Some ests ->
  let k := parallel_func n_cores (SearchLight.n_jobs self) in
  0 < k ->
  GeneralizationLight._transform n_cores self X method
  = (y_pred <- parallel (fun s => _gl_transform ests (slice_range X s)
                                    (resolved (SearchLight.base_estimator self) method))
                        (sections t k) ;;
     lift (concatenate y_pred 2))%monad.
Proof.
  intros HX Hests k Hk.
  unfold GeneralizationLight._transform, GeneralizationLight._check_Xy. fold k.
  rewrite (check_X_ok self X n c t HX), bind_ret_l.
  rewrite _check_method_returns, bind_ret_l.
  rewrite (array_split_eq X [n; c] t k HX Hk), bind_lift_inr, parallel_map.
  unfold SearchLight.get_estimators_. rewrite Hests.
  f_equal. apply parallel_ext_in. intros s _. now rewrite bind_ret_l.
Qed.

Lemma GeneralizationLight_score_dispatch (self : SearchLight.t) (X y : ndarray)
    (n c t : nat) (ests : list E) :
  shape X = [n; c; t] ->
  SearchLight.estimators_ self = Some ests ->
  let k := parallel_func n_cores (SearchLight.n_jobs self) in
  0 < k ->
  GeneralizationLight.score n_cores self X y
  = (score <- parallel (fun s => _gl_score ests (slice_range X s) y)
                       (sections t k) ;;
     if 1 <? k then lift (concatenate score 1) else lift (item0 score))%monad.
Proof.
  intros HX Hests k Hk.
  unfold GeneralizationLight.score, GeneralizationLight._check_Xy. fold k.
  rewrite (check_X_ok self X n c t HX), bind_ret_l.
  rewrite (array_split_eq X [n; c] t k HX Hk), bind_lift_inr, parallel_map.
  unfold SearchLight.get_estimators_. rewrite Hests.
  f_equal. apply parallel_ext_in. intros s _. now rewrite bind_ret_l.
Qed.

End Dispatch.

Lemma fit_dispatch {E : Type} {MC : ModelCapability E} (n_cores : nat)
    (self : SearchLight.t) (X y : ndarray) (n c t : nat) :
  shape X = [n; c; t] -> len y = inr n -> 0 < n ->
  let k := parallel_func n_cores (SearchLight.n_jobs self) in
  0 < k ->
  SearchLight.fit n_cores self X y
  = (estimators <- parallel (fun s => _sl_fit (SearchLight.base_estimator self)
                                        (slice_range X s) y)
                            (sections t k) ;;
     estimators_ <- lift (concatenate_objects estimators) ;;
     ret (SearchLight.mk (SearchLight.base_estimator self)
                         (SearchLight.n_jobs self) (Some estimators_)))%monad.
Proof.
  intros HX Hy Hn k Hk. unfold SearchLight.fit, SearchLight._check_Xy. fold k.
  unfold len at 1. rewrite HX, Hy, !bind_assoc, !bind_lift_inr.
  rewrite Nat.eqb_refl. destruct (Nat.ltb_spec n 1) as [Hlt | _]; [lia |].
  simpl negb. simpl orb. cbv iota. rewrite bind_ret_l.
  unfold ndim. rewrite HX. simpl. rewrite bind_ret_l.
  now rewrite (array_split_eq X [n; c] t k HX Hk), bind_lift_inr, parallel_map.
Qed.

(** ** C3 *)

(** C3 as stated fails.  With two jobs, the chunks that an apply or score
    call on [X] of shape (2, 1, 2) dispatches are not ranges of samples of
    [X]: each holds both samples and one slice, and every model call of
    [predict] receives both samples. *)
Lemma C3_partition_axis_counterexample :
  exists chunks,
    array_split Inputs.X212 (parallel_func 4 2) = inr chunks
    /\ map shape chunks = [[2; 1; 1]; [2; 1; 1]]
    /\ ~ (forall chunk, In chunk chunks ->
            exists lo hi, chunk = sample_range Inputs.X212 lo hi)
    /\ Forall (fun ev => map len (event_args ev) = [inr 2])
              (calls (SearchLight.predict 4 (Inputs.ensemble Toy.classifier 2)
                        Inputs.X212)).
Proof.
  eexists. split; [vm_compute; reflexivity |].
  split; [reflexivity |]. split.
  - intros H. destruct (H _ (or_introl eq_refl)) as (lo & hi & Heq).
    apply (f_equal shape) in Heq. simpl in Heq. discriminate.
  - vm_compute. repeat constructor.
Qed.

(** C3, amended.  Every operation partitions [X] along the slice axis, not
    along the samples.  With [k] jobs and [t] slices, [array_split] yields
    [k] chunks; chunk number [i] holds all samples and all features of the
    [i]-th of [k] consecutive ranges of slices; the ranges, in order, make
    up the slice axis, and joining the chunks in order along that axis
    gives [X] back.  [fit] gives job [i] that chunk and the prototype,
    whether or not the object has been fitted before; on a fitted object, a
    same-slice apply or score call gives job [i] that chunk and the models
    of the same range, and a cross-slice call gives it that chunk and the
    whole ensemble; the results are joined in job order. *)
Theorem C3_partition_along_slices {E : Type} {MC : ModelCapability E}
    (n_cores : nat) (self : SearchLight.t) (X : ndarray) (n c t : nat) :
  shape X = [n; c; t] -> wf X ->
  0 < parallel_func n_cores (SearchLight.n_jobs self) ->
  let k := parallel_func n_cores (SearchLight.n_jobs self) in
  exists chunks,
    array_split X k = inr chunks
    /\ length chunks = k
    /\ chunks = map (slice_range X) (sections t k)
    /\ Forall (fun chunk => exists sz, shape chunk = [n; c; sz]) chunks
    /\ concat (map (fun s => seq (fst s) (snd s)) (sections t k)) = seq 0 t
    /\ concatenate chunks 2 = inr X
    /\ (forall y, len y = inr n -> 0 < n ->
          SearchLight.fit n_cores self X y
          = (estimators <- parallel
                             (fun s => _sl_fit (SearchLight.base_estimator self)
                                         (slice_range X s) y)
                             (sections t k) ;;
             estimators_ <- lift (concatenate_objects estimators) ;;
             ret (SearchLight.mk (SearchLight.base_estimator self)
                                 (SearchLight.n_jobs self) (Some estimators_)))%monad)
    /\ forall ests : list E, SearchLight.estimators_ self = Some ests ->
         (t = length ests -> forall method,
            SearchLight._transform n_cores self X method
            = (y_pred <- parallel
                           (fun s => _sl_transform (est_range ests s)
                                       (slice_range X s)
                                       (resolved (SearchLight.base_estimator self)
                                                 method))
                           (sections t k) ;;
               if 1 <? k then lift (concatenate y_pred 1)
               else lift (item0 y_pred))%monad)
         /\ (t = length ests -> forall y,
               SearchLight.score n_cores self X y
               = (score <- parallel
                             (fun s => _sl_score (est_range ests s)
                                         (slice_range X s) y)
                             (sections t k) ;;
                  if 1 <? k then lift (concatenate score 0)
                  else lift (item0 score))%monad)
         /\ (forall method,
               GeneralizationLight._transform n_cores self X method
               = (y_pred <- parallel
                              (fun s => _gl_transform ests (slice_range X s)
                                          (resolved
                                             (SearchLight.base_estimator self)
                                             method))
                              (sections t k) ;;
                  lift (concatenate y_pred 2))%monad)
         /\ (forall y,
               GeneralizationLight.score n_cores self X y
               = (score <- parallel
                             (fun s => _gl_score ests (slice_range X s) y)
                             (sections t k) ;;
                  if 1 <? k then lift (concatenate score 1)
                  else lift (item0 score))%monad).
Proof.
  intros HX Hwf Hk k.
  exists (map (slice_range X) (sections t k)).
  split; [apply (array_split_eq X [n; c] t k HX Hk) |].
  split; [now rewrite length_map, sections_length |].
  split; [reflexivity |].
  split.
  { apply Forall_forall. intros chunk Hc. apply in_map_iff in Hc.
    destruct Hc as (s & <- & _). exists (snd s).
    apply (shape_slice_last X [n; c] t (fst s) (snd s) HX). }
  split; [now apply sections_cover |].
  split; [now apply array_split_concatenate with (n := n) (c := c) |].
  split; [intros y Hy Hn; now apply fit_dispatch with (n := n) (c := c) |].
  intros ests Hests.
  split; [intros Ht method;
          now apply SearchLight_transform_dispatch with (n := n) (c := c) |].
  split; [intros Ht y;
          now apply SearchLight_score_dispatch with (n := n) (c := c) |].
  split; [intros method;
          now apply GeneralizationLight_transform_dispatch with (n := n) (c := c) |].
  intros y. now apply GeneralizationLight_score_dispatch with (n := n) (c := c).
Qed.

Lemma C3_partition_along_slices_witness :
  exists chunks,
    array_split Inputs.X212 (parallel_func 4 2) = inr chunks
    /\ length chunks = parallel_func 4 2
    /\ chunks = map (slice_range Inputs.X212) (sections 2 (parallel_func 4 2))
    /\ Forall (fun chunk => exists sz, shape chunk = [2; 1; sz]) chunks
    /\ concat (map (fun s => seq (fst s) (snd s))
                   (sections 2 (parallel_func 4 2))) = seq 0 2
    /\ concatenate chunks 2 = inr Inputs.X212
    /\ (forall y, len y = inr 2 -> 0 < 2 ->
          SearchLight.fit 4 (Inputs.ensemble Toy.classifier 2) Inputs.X212 y
          = (estimators <- parallel
                             (fun s =>
                                _sl_fit Toy.classifier
                                  (slice_range Inputs.X212 s) y)
                             (sections 2 (parallel_func 4 2)) ;;
             estimators_ <- lift (concatenate_objects estimators) ;;
             ret (SearchLight.mk Toy.classifier 2 (Some estimators_)))%monad)
    /\ forall ests : list Toy.t,
         SearchLight.estimators_ (Inputs.ensemble Toy.classifier 2)
         = Some ests ->
         (2 = length ests -> forall method,
            SearchLight._transform 4 (Inputs.ensemble Toy.classifier 2)
              Inputs.X212 method
            = (y_pred <- parallel
                           (fun s => _sl_transform (est_range ests s)
                                       (slice_range Inputs.X212 s)
                                       (resolved Toy.classifier method))
                           (sections 2 (parallel_func 4 2)) ;;
               if 1 <? parallel_func 4 2 then lift (concatenate y_pred 1)
               else lift (item0 y_pred))%monad)
         /\ (2 = length ests -> forall y,
               SearchLight.score 4 (Inputs.ensemble Toy.classifier 2)
                 Inputs.X212 y
               = (score <- parallel
                             (fun s => _sl_score (est_range ests s)
                                         (slice_range Inputs.X212 s) y)
                             (sections 2 (parallel_func 4 2)) ;;
                  if 1 <? parallel_func 4 2 then lift (concatenate score 0)
                  else lift (item0 score))%monad)
         /\ (forall method,
               GeneralizationLight._transform 4
                 (Inputs.ensemble Toy.classifier 2) Inputs.X212 method
               = (y_pred <- parallel
                              (fun s => _gl_transform ests
                                          (slice_range Inputs.X212 s)
                                          (resolved Toy.classifier method))
                              (sections 2 (parallel_func 4 2)) ;;
                  lift (concatenate y_pred 2))%monad)
         /\ (forall y,
               GeneralizationLight.score 4
                 (Inputs.ensemble Toy.classifier 2) Inputs.X212 y
               = (score <- parallel
                             (fun s => _gl_score ests
                                         (slice_range Inputs.X212 s) y)
                             (sections 2 (parallel_func 4 2)) ;;
                  if 1 <? parallel_func 4 2 then lift (concatenate score 1)
                  else lift (item0 score))%monad).
Proof.
  refine (C3_partition_along_slices 4 (Inputs.ensemble Toy.classifier 2)
            Inputs.X212 2 1 2 _ _ _).
  - reflexivity.
  - reflexivity.
  - vm_compute. lia.
Defined.

(** ** Stacking the test slices *)

Lemma result_bind {E A B : Type} (m : M E A) (k : A -> M E B) :
  result (bind m k)
  = match result m with
    | inl e => inl e
    | inr a => result (k a)
    end.
Proof.
  destruct m as [log [e | a]]; unfold bind, result; simpl; [reflexivity |].
  now destruct (k a).
Qed.

Lemma parallel_result {E A B : Type} (f : A -> M E B) (g : A -> B) (l : list A) :
  (forall x, In x l -> result (f x) = inr (g x)) ->
  result (parallel f l) = inr (map g l).
Proof.
  induction l as [| x l IH]; simpl; intros H; [reflexivity |].
  rewrite result_bind, H by auto. rewrite result_bind, IH by auto.
  reflexivity.
Qed.

Lemma transpose_102 (X : ndarray) (n c t : nat) :
  shape X = [n; c; t] ->
  transpose X [1; 0; 2]
  = mk_nd [c; n; t] (dtype X)
      (build [c; n; t]
         (fun idx => get X [hd 0 (tl idx); hd 0 idx; hd 0 (tl (tl idx))])).
Proof. intros HX. unfold transpose. rewrite HX. reflexivity. Qed.

Lemma div_mod_merge (s j t : nat) :
  j < t -> (s * t + j) / t = s /\ (s * t + j) mod t = j.
Proof.
  intros Hj. split.
  - rewrite Nat.div_add_l by lia. rewrite Nat.div_small by assumption. lia.
  - rewrite Nat.add_comm, Nat.Div0.mod_add. now apply Nat.mod_small.
Qed.

Lemma X_stack_eq (X : ndarray) (n c t : nat) :
  shape X = [n; c; t] ->
  exists R, reshape (transpose X [1; 0; 2]) [c; n * t] = inr R
            /\ T R = stacked X n c t.
Proof.
  intros HX. rewrite (transpose_102 X n c t HX).
  unfold reshape. cbn [data]. rewrite build_length.
  replace (size [c; n * t]) with (size [c; n; t]) by (simpl; lia).
  rewrite Nat.eqb_refl. eexists. split; [reflexivity |].
  unfold T, ndim, transpose, stacked. cbn [shape dtype length seq rev app map nth].
  f_equal. apply build_ext. intros idx Hidx.
  apply inb_cons_inv in Hidx. destruct Hidx as (r & idx1 & -> & Hr & Hidx).
  apply inb_cons_inv in Hidx. destruct Hidx as (f & idx2 & -> & Hf & Hidx).
  apply inb_nil_inv in Hidx. subst idx2.
  assert (Ht : 0 < t) by (destruct t; lia).
  pose proof (Nat.div_mod_eq r t) as Hdm.
  pose proof (Nat.mod_upper_bound r t ltac:(lia)) as Hm.
  assert (Hd : r / t < n).
  { apply Nat.Div0.div_lt_upper_bound. lia. }
  unfold get at 1. cbn [shape data index_of seq map nth Nat.eqb hd tl].
  replace (ravel [c; n * t] [f; r])
    with (ravel [c; n; t] [f; r / t; r mod t]) by (simpl; nia).
  rewrite nth_build by (repeat constructor; assumption).
  reflexivity.
Qed.

Lemma row_stacked (X : ndarray) (n c t r : nat) :
  shape X = [n; c; t] -> r < n * t ->
  row (stacked X n c t) r = features X (r / t) (r mod t).
Proof.
  intros HX Hr. unfold row, features, stacked. rewrite HX. cbn [shape nth].
  apply map_ext_in. intros f Hf. apply in_seq in Hf.
  rewrite get_build by (repeat constructor; lia). reflexivity.
Qed.

Lemma row_slice_at (X : ndarray) (n c t s j : nat) :
  shape X = [n; c; t] -> s < n ->
  row (slice_at X j) s = features X s j.
Proof.
  intros HX Hs. unfold row, features, slice_at. rewrite HX. cbn [shape nth removelast].
  apply map_ext_in. intros f Hf. apply in_seq in Hf.
  rewrite get_build by (repeat constructor; lia). reflexivity.
Qed.

(** Merging the first two axes does not move the elements. *)
Lemma build_merge (n t : nat) (tr : list nat) (G : list nat -> Q) :
  build (n * t :: tr) G
  = build (n :: t :: tr)
      (fun idx => G ((hd 0 idx * t + hd 0 (tl idx)) :: tl (tl idx))).
Proof.
  cbn [build]. induction n as [| n IH].
  - reflexivity.
  - replace (S n * t) with (n * t + t) by lia.
    rewrite seq_app, flat_map_app, seq_S, flat_map_app. cbn [flat_map].
    rewrite app_nil_r, IH. f_equal.
    cbn [Nat.add hd tl].
    rewrite (seq_offset (n * t) t), flat_map_concat_map, map_map,
      <- flat_map_concat_map.
    reflexivity.
Qed.

(** A new axis of length one does not move the elements. *)
Lemma build_expand (n : nat) (tr : list nat) (G : list nat -> Q) :
  build (n :: tr) G
  = build (n :: 1 :: tr) (fun idx => G (hd 0 idx :: tl (tl idx))).
Proof.
  cbn [build seq flat_map]. apply flat_map_ext_in. intros s _.
  now rewrite app_nil_r.
Qed.

Lemma parallel_head_fails {E A B : Type} (f : A -> M E B) (x : A) (l : list A)
    (log : list (event E)) (e : exn) :
  f x = (log, inl e) -> parallel f (x :: l) = (log, inl e).
Proof. intros H. simpl. now rewrite H. Qed.

Section Stacking.

Context {E : Type} {MC : ModelCapability E}.

(** A row-independent model returns on every batch with at least one
    row. *)
Lemma row_independent_apply (est : E) (name : string) (c : nat)
    (tr : list nat) (k : kind) (f : list Q -> list nat -> Q)
    (X : ndarray) (N : nat) :
  row_independent est name c tr k f -> 0 < N -> shape X = [N; c] -> wf X ->
  apply_method est name X
  = inr (mk_nd (N :: tr) k
           (build (N :: tr) (fun idx => f (row X (hd 0 idx)) (tl idx)))).
Proof.
  intros [_ Hf] HN HX Hwf.
  destruct (Hf X N HX Hwf) as [H | [H _]]; [assumption | lia].
Qed.

(** Without samples, the stacked slices and each single slice are the same
    batch without rows. *)
Lemma stacked_no_sample (X : ndarray) (c t jj : nat) :
  shape X = [0; c; t] -> slice_at X jj = stacked X 0 c t.
Proof. intros HX. unfold slice_at, stacked. rewrite HX. reflexivity. Qed.

Lemma reshape_unstack (n t : nat) (tr : list nat) (k : kind) (D : list Q) :
  length D = size (n * t :: tr) ->
  reshape (mk_nd (n * t :: tr) k D) (n :: t :: tr)
  = inr (mk_nd (n :: t :: tr) k D).
Proof.
  intros HD. unfold reshape. cbn [data dtype]. rewrite HD.
  replace (size (n :: t :: tr)) with (size (n * t :: tr))
    by (simpl; now rewrite Nat.mul_assoc).
  now rewrite Nat.eqb_refl.
Qed.

(** The stacked computation makes one call, on the stacked slices; when
    the call returns one block per row, its result holds at sample [s] and
    slice [j] the block of [X[s, :, j]]. *)
Lemma stacked_apply_returns (est : E) (method : string) (tr : list nat)
    (k : kind) (f : list Q -> list nat -> Q) (X : ndarray) (n c t : nat) :
  hasattr est method = true -> shape X = [n; c; t] ->
  apply_method est method (stacked X n c t)
  = inr (mk_nd (n * t :: tr) k
           (build (n * t :: tr)
              (fun idx => f (row (stacked X n c t) (hd 0 idx)) (tl idx)))) ->
  stacked_apply est X method
  = ([Invoke est method [stacked X n c t]],
     inr (table2 n t tr k (fun s j rest => f (features X s j) rest))).
Proof.
  intros Hhas HX Hval. unfold stacked_apply. rewrite HX. cbn [unpack3].
  rewrite bind_ret_l. destruct (X_stack_eq X n c t HX) as (R & HR & HT).
  rewrite HR, bind_lift_inr. cbv zeta. rewrite HT.
  unfold getattr. rewrite Hhas, bind_ret_l.
  rewrite Hval.
  assert (Hunstack :
            reshape (mk_nd (n * t :: tr) k
                       (build (n * t :: tr)
                          (fun idx => f (row (stacked X n c t) (hd 0 idx)) (tl idx))))
                    (n :: t :: tr)
            = inr (table2 n t tr k (fun s j rest => f (features X s j) rest))).
  { rewrite reshape_unstack by apply build_length.
    unfold table2. do 2 f_equal. rewrite build_merge.
    apply build_ext. intros idx Hidx.
    apply inb_cons_inv in Hidx. destruct Hidx as (s & idx1 & -> & Hs & Hidx).
    apply inb_cons_inv in Hidx. destruct Hidx as (j & idx2 & -> & Hj & Hidx).
    cbn [hd tl]. rewrite (row_stacked X n c t (s * t + j) HX) by nia.
    destruct (div_mod_merge s j t Hj) as [-> ->]. reflexivity. }
  unfold bind. cbn [ndim shape length].
  destruct (Nat.eqb_spec (S (length tr)) 2) as [Hlen | Hlen].
  - destruct tr as [| p [| q tr]]; simpl in Hlen; try lia.
    cbn [nth]. unfold lift. now rewrite Hunstack.
  - cbn [tl]. unfold lift. now rewrite Hunstack.
Qed.

(** When the call is rejected, so is the stacked computation. *)
Lemma stacked_apply_rejected (est : E) (method : string) (X : ndarray)
    (n c t : nat) (e : exn) :
  hasattr est method = true -> shape X = [n; c; t] ->
  apply_method est method (stacked X n c t) = inl e ->
  stacked_apply est X method = ([Invoke est method [stacked X n c t]], inl e).
Proof.
  intros Hhas HX Hval. unfold stacked_apply. rewrite HX. cbn [unpack3].
  rewrite bind_ret_l. destruct (X_stack_eq X n c t HX) as (R & HR & HT).
  rewrite HR, bind_lift_inr. cbv zeta. rewrite HT.
  unfold getattr. rewrite Hhas, bind_ret_l. rewrite Hval. reflexivity.
Qed.

Lemma stacked_apply_eq (est : E) (method : string) (tr : list nat) (k : kind)
    (f : list Q -> list nat -> Q) (X : ndarray) (n c t : nat) :
  row_independent est method c tr k f -> shape X = [n; c; t] ->
  0 < n -> 0 < t ->
  stacked_apply est X method
  = ([Invoke est method [stacked X n c t]],
     inr (table2 n t tr k (fun s j rest => f (features X s j) rest))).
Proof.
  intros Hri HX Hn Ht.
  apply stacked_apply_returns; [apply Hri | assumption |].
  apply (row_independent_apply est method c tr k f (stacked X n c t) (n * t) Hri);
    [nia | reflexivity | apply wf_build].
Qed.

Lemma sections_from_ones (off t : nat) :
  sections_from off (repeat 1 t) = map (fun j => (j, 1)) (seq off t).
Proof.
  revert off. induction t as [| t IH]; intros off; simpl; [reflexivity |].
  f_equal. rewrite <- IH. f_equal. lia.
Qed.

Lemma calls_of_units {A : Type} (est : E) (method : string)
    (h : A -> list ndarray) (l : list A) :
  map event_name (flat_map (fun x => [Invoke est method (h x)]) l)
  = repeat method (length l).
Proof. induction l as [| x l IH]; simpl; [reflexivity |]. now rewrite IH. Qed.

(** The per-slice computation makes one call per slice; when every call
    returns one block per row, it yields the same tensor. *)
Lemma per_slice_apply_returns (est : E) (method : string) (tr : list nat)
    (k : kind) (f : list Q -> list nat -> Q) (X : ndarray) (n c t : nat) :
  hasattr est method = true -> shape X = [n; c; t] -> 0 < t ->
  (forall jj, jj < t ->
     apply_method est method (slice_at X jj)
     = inr (mk_nd (n :: tr) k
              (build (n :: tr)
                 (fun idx => f (row (slice_at X jj) (hd 0 idx)) (tl idx))))) ->
  result (per_slice_apply est X method)
  = inr (table2 n t tr k (fun s j rest => f (features X s j) rest))
  /\ map event_name (calls (per_slice_apply est X method)) = repeat method t.
Proof.
  intros Hhas HX Ht Hf. unfold per_slice_apply. rewrite HX. cbn [unpack3].
  rewrite bind_ret_l.
  set (g := fun jj =>
              mk_nd (n :: 1 :: tr) k
                (build (n :: tr)
                   (fun idx => f (row (slice_at X jj) (hd 0 idx)) (tl idx)))).
  assert (Hunit : forall jj, In jj (seq 0 t) ->
            (transform <- getattr est method ;;
             X_jj <- lift (getitem_last X jj) ;;
             _y_pred <- transform X_jj ;;
             lift (expand_dims _y_pred))%monad
            = ([Invoke est method [slice_at X jj]], inr (g jj))).
  { intros jj Hjj. apply in_seq in Hjj.
    unfold getattr. rewrite Hhas, bind_ret_l.
    rewrite (getitem_last_eq X [n; c] t jj HX) by lia.
    rewrite bind_lift_inr.
    rewrite (Hf jj) by lia.
    unfold bind, lift, expand_dims, reshape. cbn [shape hd tl data dtype].
    rewrite build_length.
    replace (size (n :: 1 :: tr)) with (size (n :: tr)) by (simpl; lia).
    now rewrite Nat.eqb_refl. }
  rewrite (parallel_success _ (fun jj => [Invoke est method [slice_at X jj]]) g)
    by assumption.
  unfold bind, lift, calls, result. cbn [fst snd]. split.
  - rewrite (concatenate_sections 1 (n :: t :: tr) k
               (fun idx => f (features X (hd 0 idx) (hd 0 (tl idx))) (tl (tl idx)))
               (repeat 1 t)).
    + rewrite sum_repeat, Nat.mul_1_r. reflexivity.
    + simpl. lia.
    + destruct t; [lia | discriminate].
    + rewrite sections_from_ones, map_map. apply map_ext_in.
      intros jj Hjj. apply in_seq in Hjj. unfold g. cbn [set_nth snd fst].
      f_equal. rewrite build_expand. apply build_ext. intros idx Hidx.
      apply inb_cons_inv in Hidx. destruct Hidx as (s & idx1 & -> & Hs & Hidx).
      apply inb_cons_inv in Hidx. destruct Hidx as (j & idx2 & -> & Hj & Hidx).
      cbn [hd tl nth set_nth].
      rewrite (row_slice_at X n c t s jj HX Hs).
      replace (jj + j) with jj by lia. reflexivity.
  - rewrite app_nil_r, calls_of_units, length_seq. reflexivity.
Qed.

(** When the call on the first slice is rejected, so is the per-slice
    computation. *)
Lemma per_slice_apply_rejected (est : E) (method : string) (X : ndarray)
    (n c t : nat) (e : exn) :
  hasattr est method = true -> shape X = [n; c; t] -> 0 < t ->
  apply_method est method (slice_at X 0) = inl e ->
  per_slice_apply est X method = ([Invoke est method [slice_at X 0]], inl e).
Proof.
  intros Hhas HX Ht Hval. unfold per_slice_apply. rewrite HX. cbn [unpack3].
  rewrite bind_ret_l. destruct t as [| t']; [lia |]. cbn [seq].
  rewrite (parallel_head_fails _ 0 (seq 1 t')
             [Invoke est method [slice_at X 0]] e); [reflexivity |].
  unfold getattr. rewrite Hhas, bind_ret_l.
  rewrite (getitem_last_eq X [n; c] (S t') 0 HX) by lia.
  rewrite bind_lift_inr, Hval. reflexivity.
Qed.

Lemma per_slice_apply_result (est : E) (method : string) (tr : list nat)
    (k : kind) (f : list Q -> list nat -> Q) (X : ndarray) (n c t : nat) :
  row_independent est method c tr k f -> shape X = [n; c; t] ->
  0 < n -> 0 < t ->
  result (per_slice_apply est X method)
  = inr (table2 n t tr k (fun s j rest => f (features X s j) rest))
  /\ map event_name (calls (per_slice_apply est X method)) = repeat method t.
Proof.
  intros Hri HX Hn Ht.
  apply per_slice_apply_returns with (c := c);
    [apply Hri | assumption | assumption |].
  intros jj Hjj.
  apply (row_independent_apply est method c tr k f (slice_at X jj) n Hri Hn);
    [unfold slice_at; now rewrite HX | apply wf_build].
Qed.

End Stacking.

(** ** C7 *)

Lemma _gl_transform_stacked {E : Type} {MC : ModelCapability E}
    (estimators : list E) (X : ndarray) (method : string) (n c t : nat) :
  shape X = [n; c; t] ->
  _gl_transform estimators X method
  = (y_pred <- foldM (fun y_pred (ii_est : nat * E) =>
         let (ii, est) := ii_est in
         _y_pred <- stacked_apply est X method ;;
         y_pred <- (if ii =? 0
                    then y0 <- _gl_init_pred _y_pred X (length estimators) ;;
                         ret (Some y0)
                    else ret y_pred) ;;
         y_pred <- local "y_pred" y_pred ;;
         y_pred <- lift (setitem y_pred [All; At ii] _y_pred) ;;
         ret (Some y_pred))
       (enumerate estimators) None ;;
     local "y_pred" y_pred)%monad.
Proof.
  intros HX. unfold _gl_transform. rewrite HX. cbn [unpack3].
  rewrite bind_ret_l. f_equal. apply foldM_ext. intros y_pred [ii est].
  unfold stacked_apply. rewrite HX. cbn [unpack3].
  rewrite bind_ret_l, !bind_assoc. apply bind_ext. intros X_stack.
  rewrite !bind_assoc. apply bind_ext. intros transform.
  now rewrite !bind_assoc.
Qed.

Lemma toy_decision_function_row_independent (est : Toy.t) (c : nat) :
  hasattr est "decision_function" = true ->
  row_independent est "decision_function" c [] float_
    (fun r _ => Qred (Toy.weight est + Toy.sumQ r)).
Proof.
  intros H. split; [assumption |]. intros X N HX _. left. simpl.
  unfold Toy.apply. now rewrite HX.
Qed.

Lemma strict_predict_row_independent (c : nat) :
  row_independent Strict.the "predict" c [] float_ (fun r _ => Toy.sumQ r).
Proof.
  split; [reflexivity |]. intros X N HX _. simpl.
  unfold Strict.apply. rewrite HX.
  destruct N as [| N]; [right | left; reflexivity].
  split; [reflexivity |]. eexists. reflexivity.
Qed.

(** C7 as stated fails on an input without slices.  The stacked
    computation calls the model once, on a batch without rows, where the
    loop over the slices calls nothing and has nothing to concatenate.
    - For a row-independent model that accepts such a batch, the stacked
      computation returns an empty tensor and the loop raises.
    - For a row-independent model that rejects it, as a model that checks
      its input does, the stacked computation raises the model's error. *)
Lemma C7_stacked_counterexample :
  (row_independent (Inputs.fitted0 Toy.scorer) "decision_function" 1 [] float_
     (fun r _ => Qred (Toy.weight (Inputs.fitted0 Toy.scorer) + Toy.sumQ r))
   /\ result (stacked_apply (Inputs.fitted0 Toy.scorer) MoreInputs.X210
                "decision_function")
      = inr (mk_nd [2; 0] float_ [])
   /\ result (per_slice_apply (Inputs.fitted0 Toy.scorer) MoreInputs.X210
                "decision_function")
      = inl (ValueError "need at least one array to concatenate")
   /\ result (stacked_apply (Inputs.fitted0 Toy.scorer) MoreInputs.X210
                "decision_function")
      <> result (per_slice_apply (Inputs.fitted0 Toy.scorer) MoreInputs.X210
                   "decision_function"))
  /\ (row_independent Strict.the "predict" 1 [] float_ (fun r _ => Toy.sumQ r)
      /\ stacked_apply Strict.the MoreInputs.X210 "predict"
         = ([Invoke Strict.the "predict" [mk_nd [0; 1] float_ []]],
            inl (ValueError "Found array with 0 sample(s)"))
      /\ calls (per_slice_apply Strict.the MoreInputs.X210 "predict") = []).
Proof.
  split.
  - split; [apply toy_decision_function_row_independent; reflexivity |].
    split; [vm_compute; reflexivity |].
    split; [vm_compute; reflexivity |].
    vm_compute. discriminate.
  - split; [apply strict_predict_row_independent |].
    split; vm_compute; reflexivity.
Qed.

(** C7, amended.  For a model whose inference is stateless and
    row-independent, and an input with at least one slice, the stacked
    computation of [_gl_transform] (transpose, merge samples and slices,
    one call, reshape back) returns exactly what looping over the test
    slices, applying the model to each slice and concatenating the
    per-slice results returns.  The stacked computation makes one call, on
    the stacked slices.  With at least one sample, the common result is the
    tensor whose block at sample [s] and slice [j] is the model's output on
    [X[s, :, j]], and the loop makes one call per slice. *)
Theorem C7_stacked_equals_per_slice {E : Type} {MC : ModelCapability E}
    (est : E) (method : string) (tr : list nat) (k : kind)
    (f : list Q -> list nat -> Q) (X : ndarray) (n c t : nat) :
  row_independent est method c tr k f -> shape X = [n; c; t] ->
  0 < t ->
  result (stacked_apply est X method) = result (per_slice_apply est X method)
  /\ calls (stacked_apply est X method) = [Invoke est method [stacked X n c t]]
  /\ (0 < n ->
      result (stacked_apply est X method)
      = inr (table2 n t tr k (fun s j rest => f (features X s j) rest))
      /\ map event_name (calls (per_slice_apply est X method))
         = repeat method t)
  /\ forall estimators,
       _gl_transform estimators X method
       = (y_pred <- foldM (fun y_pred (ii_est : nat * E) =>
              let (ii, est) := ii_est in
              _y_pred <- stacked_apply est X method ;;
              y_pred <- (if ii =? 0
                         then y0 <- _gl_init_pred _y_pred X (length estimators) ;;
                              ret (Some y0)
                         else ret y_pred) ;;
              y_pred <- local "y_pred" y_pred ;;
              y_pred <- lift (setitem y_pred [All; At ii] _y_pred) ;;
              ret (Some y_pred))
            (enumerate estimators) None ;;
          local "y_pred" y_pred)%monad.
Proof.
  intros Hri HX Ht. pose proof Hri as [Hhas Hf].
  assert (Hgl : forall estimators,
            _gl_transform estimators X method
            = (y_pred <- foldM (fun y_pred (ii_est : nat * E) =>
                   let (ii, est) := ii_est in
                   _y_pred <- stacked_apply est X method ;;
                   y_pred <- (if ii =? 0
                              then y0 <- _gl_init_pred _y_pred X
                                           (length estimators) ;;
                                   ret (Some y0)
                              else ret y_pred) ;;
                   y_pred <- local "y_pred" y_pred ;;
                   y_pred <- lift (setitem y_pred [All; At ii] _y_pred) ;;
                   ret (Some y_pred))
                 (enumerate estimators) None ;;
               local "y_pred" y_pred)%monad).
  { intros estimators.
    now apply _gl_transform_stacked with (n := n) (c := c) (t := t). }
  destruct (Hf (stacked X n c t) (n * t) eq_refl (wf_build _ _ _))
    as [Hs | [Hz [e He]]].
  - assert (Hslices : forall jj, jj < t ->
              apply_method est method (slice_at X jj)
              = inr (mk_nd (n :: tr) k
                       (build (n :: tr)
                          (fun idx => f (row (slice_at X jj) (hd 0 idx))
                                        (tl idx))))).
    { intros jj Hjj.
      assert (Hsh : shape (slice_at X jj) = [n; c])
        by (unfold slice_at; now rewrite HX).
      destruct (Hf (slice_at X jj) n Hsh (wf_build _ _ _))
        as [H | [Hn0 [e He]]]; [exact H |].
      subst n. rewrite (stacked_no_sample X c t jj HX) in He. congruence. }
    destruct (per_slice_apply_returns est method tr k f X n c t
                Hhas HX Ht Hslices) as [Hres Hcalls].
    rewrite (stacked_apply_returns est method tr k f X n c t Hhas HX Hs).
    rewrite Hres. repeat split; assumption.
  - assert (n = 0) as -> by nia.
    rewrite (stacked_apply_rejected est method X 0 c t e Hhas HX He).
    rewrite (per_slice_apply_rejected est method X 0 c t e Hhas HX Ht)
      by (now rewrite (stacked_no_sample X c t 0 HX)).
    repeat split; try assumption; lia.
Qed.

Lemma C7_stacked_equals_per_slice_witness :
  result (stacked_apply (Inputs.fitted0 Toy.scorer) Inputs.X212
            "decision_function")
  = result (per_slice_apply (Inputs.fitted0 Toy.scorer) Inputs.X212
              "decision_function")
  /\ calls (stacked_apply (Inputs.fitted0 Toy.scorer) Inputs.X212
              "decision_function")
     = [Invoke (Inputs.fitted0 Toy.scorer) "decision_function"
               [stacked Inputs.X212 2 1 2]]
  /\ (0 < 2 ->
      result (stacked_apply (Inputs.fitted0 Toy.scorer) Inputs.X212
                "decision_function")
      = inr (table2 2 2 [] float_
               (fun s j rest =>
                  Qred (Toy.weight (Inputs.fitted0 Toy.scorer)
                        + Toy.sumQ (features Inputs.X212 s j))))
      /\ map event_name
            (calls (per_slice_apply (Inputs.fitted0 Toy.scorer) Inputs.X212
                      "decision_function"))
         = repeat "decision_function" 2)
  /\ forall estimators,
       _gl_transform estimators Inputs.X212 "decision_function"
       = (y_pred <- foldM (fun y_pred (ii_est : nat * Toy.t) =>
              let (ii, est) := ii_est in
              _y_pred <- stacked_apply est Inputs.X212 "decision_function" ;;
              y_pred <- (if ii =? 0
                         then y0 <- _gl_init_pred _y_pred Inputs.X212
                                      (length estimators) ;;
                              ret (Some y0)
                         else ret y_pred) ;;
              y_pred <- local "y_pred" y_pred ;;
              y_pred <- lift (setitem y_pred [All; At ii] _y_pred) ;;
              ret (Some y_pred))
            (enumerate estimators) None ;;
          local "y_pred" y_pred)%monad.
Proof.
  apply (C7_stacked_equals_per_slice (Inputs.fitted0 Toy.scorer)
           "decision_function" [] float_
           (fun r _ => Qred (Toy.weight (Inputs.fitted0 Toy.scorer) + Toy.sumQ r))
           Inputs.X212 2 1 2).
  - apply toy_decision_function_row_independent. reflexivity.
  - reflexivity.
  - lia.
Defined.

(** ** Writing one column of the output *)

Lemma squeeze_to_same (sh : list nat) : squeeze_to (length sh) sh = sh.
Proof.
  destruct sh as [| [| [| d]] sh]; simpl; try reflexivity.
  now rewrite Nat.ltb_irrefl.
Qed.

Lemma bcast_ok_refl (sh : list nat) : bcast_ok sh sh = true.
Proof. induction sh as [| d sh IH]; simpl; [reflexivity |]. now rewrite Nat.eqb_refl. Qed.

Lemma broadcastable_refl (sh : list nat) : broadcastable sh sh = true.
Proof.
  unfold broadcastable. rewrite squeeze_to_same, Nat.sub_diag. simpl.
  now rewrite Nat.leb_refl, bcast_ok_refl.
Qed.

Lemma bcast_index_inb (sh idx : list nat) : inb idx sh -> bcast_index sh idx = idx.
Proof.
  induction 1 as [| i d idx sh Hi H IH]; simpl; [reflexivity |].
  rewrite IH. destruct (Nat.eqb_spec d 1); [f_equal; lia | reflexivity].
Qed.

(** A value of the shape of its target is read at the target's index. *)
Lemma bget_inb (v : ndarray) (idx : list nat) :
  inb idx (shape v) -> bget v idx = get v idx.
Proof.
  intros H. unfold bget, get. rewrite (inb_length _ _ H), squeeze_to_same.
  rewrite <- (inb_length _ _ H), Nat.sub_diag. simpl.
  now rewrite bcast_index_inb.
Qed.

Lemma setitem_column (y v : ndarray) (n T : nat) (rest : list nat) (m : nat) :
  shape y = n :: T :: rest -> shape v = n :: rest -> m < T ->
  setitem y [All; At m] v
  = inr (mk_nd (n :: T :: rest) (dtype y)
           (build (n :: T :: rest)
              (fun idx => if hd 0 (tl idx) =? m
                          then cast (dtype v) (dtype y)
                                 (get v (hd 0 idx :: tl (tl idx)))
                          else get y idx))).
Proof.
  intros Hy Hv Hm. unfold setitem. rewrite Hy. cbn [view_shape].
  apply Nat.ltb_lt in Hm. rewrite Hm, Hv, broadcastable_refl.
  do 2 f_equal. apply build_ext. intros idx Hidx.
  apply inb_cons_inv in Hidx. destruct Hidx as (s & idx1 & -> & Hs & Hidx).
  apply inb_cons_inv in Hidx. destruct Hidx as (i & idx2 & -> & Hi & Hidx).
  cbn [view_index hd tl]. destruct (i =? m); cbn [option_map]; [| reflexivity].
  rewrite bget_inb; [reflexivity |]. rewrite Hv. now constructor.
Qed.

Lemma build_const (sh : list nat) (q : Q) :
  build sh (fun _ => q) = repeat q (size sh).
Proof.
  induction sh as [| d sh IH]; simpl; [reflexivity |].
  rewrite IH. clear IH. generalize 0.
  induction d as [| d IH]; intros off; simpl; [reflexivity |].
  now rewrite IH, repeat_app.
Qed.

(** ** Filling the output tensor *)

Lemma fillc_zero (k : kind) (n T : nat) (rest : list nat) (vs : nat -> ndarray) :
  zeros (n :: T :: rest) k = filled_cast k n T rest vs 0.
Proof.
  unfold zeros, filled_cast. f_equal. symmetry.
  etransitivity; [| apply (build_const (n :: T :: rest) 0%Q)].
  apply build_ext. intros idx _. reflexivity.
Qed.

Lemma fillc_step (k : kind) (n T : nat) (rest : list nat) (vs : nat -> ndarray)
    (m : nat) :
  shape (vs m) = n :: rest -> m < T ->
  setitem (filled_cast k n T rest vs m) [All; At m] (vs m)
  = inr (filled_cast k n T rest vs (S m)).
Proof.
  intros Hv Hm.
  rewrite (setitem_column (filled_cast k n T rest vs m) (vs m) n T rest m
             eq_refl Hv Hm).
  unfold filled_cast. do 2 f_equal. apply build_ext. intros idx Hidx.
  apply inb_cons_inv in Hidx. destruct Hidx as (s & idx1 & -> & Hs & Hidx).
  apply inb_cons_inv in Hidx. destruct Hidx as (i & idx2 & -> & Hi & Hidx).
  cbn [hd tl dtype].
  destruct (Nat.eqb_spec i m) as [-> | Hne].
  - destruct (Nat.ltb_spec m (S m)); [reflexivity | lia].
  - rewrite get_build by (repeat constructor; assumption). cbn [hd tl].
    destruct (Nat.ltb_spec i m), (Nat.ltb_spec i (S m)); (reflexivity || lia).
Qed.

Lemma fillc_all (k : kind) (n T : nat) (rest : list nat) (vs : nat -> ndarray) :
  filled_cast k n T rest vs T
  = mk_nd (n :: T :: rest) k
      (build (n :: T :: rest)
         (fun idx => cast (dtype (vs (hd 0 (tl idx)))) k
                       (get (vs (hd 0 (tl idx))) (hd 0 idx :: tl (tl idx))))).
Proof.
  unfold filled_cast. f_equal. apply build_ext. intros idx Hidx.
  apply inb_cons_inv in Hidx. destruct Hidx as (s & idx1 & -> & Hs & Hidx).
  apply inb_cons_inv in Hidx. destruct Hidx as (i & idx2 & -> & Hi & Hidx).
  cbn [hd tl]. destruct (Nat.ltb_spec i T); [reflexivity | lia].
Qed.

Lemma setitem_row (y v : ndarray) (T : nat) (rest : list nat) (m : nat) :
  shape y = T :: rest -> shape v = rest -> m < T ->
  setitem y [At m] v
  = inr (mk_nd (T :: rest) (dtype y)
           (build (T :: rest)
              (fun idx => if hd 0 idx =? m
                          then cast (dtype v) (dtype y) (get v (tl idx))
                          else get y idx))).
Proof.
  intros Hy Hv Hm. unfold setitem. rewrite Hy. cbn [view_shape].
  apply Nat.ltb_lt in Hm. rewrite Hm, Hv, broadcastable_refl.
  do 2 f_equal. apply build_ext. intros idx Hidx.
  apply inb_cons_inv in Hidx. destruct Hidx as (i & idx1 & -> & Hi & Hidx).
  cbn [view_index hd tl]. destruct (i =? m); [| reflexivity].
  rewrite bget_inb; [reflexivity |]. now rewrite Hv.
Qed.

Lemma setitem_cell (y v : ndarray) (e t : nat) (rest : list nat) (ii jj : nat) :
  shape y = e :: t :: rest -> shape v = rest -> ii < e -> jj < t ->
  setitem y [At ii; At jj] v
  = inr (mk_nd (e :: t :: rest) (dtype y)
           (build (e :: t :: rest)
              (fun idx => if (hd 0 idx =? ii) && (hd 0 (tl idx) =? jj)
                          then cast (dtype v) (dtype y) (get v (tl (tl idx)))
                          else get y idx))).
Proof.
  intros Hy Hv Hii Hjj. unfold setitem. rewrite Hy. cbn [view_shape].
  apply Nat.ltb_lt in Hii. apply Nat.ltb_lt in Hjj.
  rewrite Hii, Hjj, Hv, broadcastable_refl.
  do 2 f_equal. apply build_ext. intros idx Hidx.
  apply inb_cons_inv in Hidx. destruct Hidx as (i & idx1 & -> & Hi & Hidx).
  apply inb_cons_inv in Hidx. destruct Hidx as (j & idx2 & -> & Hj & Hidx).
  cbn [view_index hd tl]. destruct (i =? ii); [| reflexivity].
  destruct (j =? jj); [| reflexivity]. cbn [andb].
  rewrite bget_inb; [reflexivity |]. now rewrite Hv.
Qed.

Lemma rows_zero (k : kind) (T : nat) (rest : list nat) (vs : nat -> ndarray) :
  zeros (T :: rest) k = filled_rows k T rest vs 0.
Proof.
  unfold zeros, filled_rows. f_equal. symmetry.
  etransitivity; [| apply (build_const (T :: rest) 0%Q)].
  apply build_ext. intros idx _. reflexivity.
Qed.

Lemma rows_step (k : kind) (T : nat) (rest : list nat) (vs : nat -> ndarray)
    (m : nat) :
  shape (vs m) = rest -> m < T ->
  setitem (filled_rows k T rest vs m) [At m] (vs m)
  = inr (filled_rows k T rest vs (S m)).
Proof.
  intros Hv Hm.
  rewrite (setitem_row (filled_rows k T rest vs m) (vs m) T rest m
             eq_refl Hv Hm).
  unfold filled_rows. do 2 f_equal. apply build_ext. intros idx Hidx.
  apply inb_cons_inv in Hidx. destruct Hidx as (i & idx1 & -> & Hi & Hidx).
  cbn [hd tl dtype].
  destruct (Nat.eqb_spec i m) as [-> | Hne].
  - destruct (Nat.ltb_spec m (S m)); [reflexivity | lia].
  - rewrite get_build by (constructor; assumption). cbn [hd tl].
    destruct (Nat.ltb_spec i m), (Nat.ltb_spec i (S m)); (reflexivity || lia).
Qed.

Lemma rows_all (k : kind) (T : nat) (rest : list nat) (vs : nat -> ndarray) :
  filled_rows k T rest vs T
  = mk_nd (T :: rest) k
      (build (T :: rest)
         (fun idx => cast (dtype (vs (hd 0 idx))) k
                       (get (vs (hd 0 idx)) (tl idx)))).
Proof.
  unfold filled_rows. f_equal. apply build_ext. intros idx Hidx.
  apply inb_cons_inv in Hidx. destruct Hidx as (i & idx1 & -> & Hi & Hidx).
  cbn [hd tl]. destruct (Nat.ltb_spec i T); [reflexivity | lia].
Qed.

Lemma grid_zero (k : kind) (e t : nat) (rest : list nat)
    (sc : nat -> nat -> ndarray) :
  zeros (e :: t :: rest) k = filled_grid k e t rest sc 0.
Proof.
  unfold zeros, filled_grid. f_equal. symmetry.
  etransitivity; [| apply (build_const (e :: t :: rest) 0%Q)].
  apply build_ext. intros idx _. reflexivity.
Qed.

Lemma grid_step (k : kind) (e t : nat) (rest : list nat)
    (sc : nat -> nat -> ndarray) (ii jj : nat) :
  shape (sc ii jj) = rest -> ii < e -> jj < t ->
  setitem (filled_grid k e t rest sc (ii * t + jj)) [At ii; At jj] (sc ii jj)
  = inr (filled_grid k e t rest sc (S (ii * t + jj))).
Proof.
  intros Hv Hii Hjj.
  rewrite (setitem_cell (filled_grid k e t rest sc (ii * t + jj)) (sc ii jj)
             e t rest ii jj eq_refl Hv Hii Hjj).
  unfold filled_grid. do 2 f_equal. apply build_ext. intros idx Hidx.
  apply inb_cons_inv in Hidx. destruct Hidx as (i & idx1 & -> & Hi & Hidx).
  apply inb_cons_inv in Hidx. destruct Hidx as (j & idx2 & -> & Hj & Hidx).
  cbn [hd tl dtype].
  destruct (Nat.eqb_spec i ii) as [-> | Hne].
  - destruct (Nat.eqb_spec j jj) as [-> | Hnj]; cbn [andb].
    + destruct (Nat.ltb_spec (ii * t + jj) (S (ii * t + jj)));
        [reflexivity | lia].
    + rewrite get_build by (repeat (constructor; try assumption)).
      cbn [hd tl].
      destruct (Nat.ltb_spec (ii * t + j) (ii * t + jj)),
               (Nat.ltb_spec (ii * t + j) (S (ii * t + jj)));
        (reflexivity || lia).
  - cbn [andb].
    rewrite get_build by (repeat (constructor; try assumption)).
    cbn [hd tl].
    destruct (Nat.ltb_spec (i * t + j) (ii * t + jj)),
             (Nat.ltb_spec (i * t + j) (S (ii * t + jj)));
      (reflexivity || nia).
Qed.

Lemma grid_all (k : kind) (e t : nat) (rest : list nat)
    (sc : nat -> nat -> ndarray) :
  filled_grid k e t rest sc (e * t)
  = mk_nd (e :: t :: rest) k
      (build (e :: t :: rest)
         (fun idx => cast (dtype (sc (hd 0 idx) (hd 0 (tl idx)))) k
                       (get (sc (hd 0 idx) (hd 0 (tl idx))) (tl (tl idx))))).
Proof.
  unfold filled_grid. f_equal. apply build_ext. intros idx Hidx.
  apply inb_cons_inv in Hidx. destruct Hidx as (i & idx1 & -> & Hi & Hidx).
  apply inb_cons_inv in Hidx. destruct Hidx as (j & idx2 & -> & Hj & Hidx).
  cbn [hd tl]. destruct (Nat.ltb_spec (i * t + j) (e * t)); [reflexivity | nia].
Qed.

Lemma nth_error_seq_inv (a n m x : nat) :
  nth_error (seq a n) m = Some x -> x = a + m /\ m < n.
Proof.
  revert a m. induction n as [| n IH]; intros a m H; simpl in H.
  - destruct m; discriminate.
  - destruct m as [| m]; simpl in H.
    + inversion H. lia.
    + apply IH in H. lia.
Qed.

(** ** The apply loops on row-independent models *)

Lemma foldM_steps {E A B : Type} (f : A -> B -> M E A) (st : nat -> A)
    (l : list B) :
  (forall m x, nth_error l m = Some x ->
     exists log, f (st m) x = (log, inr (st (S m)))) ->
  exists log, foldM f l (st 0) = (log, inr (st (length l))).
Proof.
  revert st. induction l as [| x l IH]; intros st H; simpl.
  - exists []. reflexivity.
  - destruct (H 0 x eq_refl) as [log0 H0].
    destruct (IH (fun m => st (S m))) as [log1 H1].
    { intros m y Hy. apply (H (S m) y Hy). }
    exists (log0 ++ log1). rewrite H0. unfold bind. now rewrite H1.
Qed.

Lemma nth_error_enumerate_from {A : Type} (l : list A) (off m : nat) (p : nat * A) :
  nth_error (combine (seq off (length l)) l) m = Some p ->
  exists x, p = (off + m, x) /\ nth_error l m = Some x.
Proof.
  revert off m. induction l as [| y l IH]; intros off m H; simpl in *.
  - destruct m; discriminate.
  - destruct m as [| m]; simpl in H.
    + inversion H. exists y. split; [f_equal; lia | reflexivity].
    + apply IH in H. destruct H as (x & -> & Hx). exists x.
      split; [f_equal; lia | assumption].
Qed.

Lemma nth_error_enumerate {A : Type} (l : list A) (m : nat) (p : nat * A) :
  nth_error (enumerate l) m = Some p ->
  exists x, p = (m, x) /\ nth_error l m = Some x.
Proof. apply nth_error_enumerate_from. Qed.

Lemma enumerate_length {A : Type} (l : list A) : length (enumerate l) = length l.
Proof. unfold enumerate. rewrite length_combine, length_seq. lia. Qed.

Lemma bind_value {E A B : Type} (log : list (event E)) (a : A)
    (k : A -> M E B) (b : B) :
  k a = ret b -> bind (log, inr a) k = (log, inr b).
Proof. intros H. unfold bind. rewrite H. unfold ret. now rewrite app_nil_r. Qed.

(** ** Apply calls on row-independent ensembles, for any number of jobs *)

Lemma features_slice_last (X : ndarray) (n c t off sz s j : nat) :
  shape X = [n; c; t] -> s < n -> j < sz ->
  features (slice_last X off sz) s j = features X s (off + j).
Proof.
  intros HX Hs Hj. unfold features.
  rewrite (shape_slice_last X [n; c] t off sz HX), HX. cbn [app nth].
  apply map_ext_in. intros f Hf. apply in_seq in Hf.
  apply (get_slice_last X [n; c] t off sz [s; f] j HX);
    [repeat constructor; lia | assumption].
Qed.

Lemma section_sizes_pos (l k : nat) (sz : nat) :
  0 < k -> k <= l -> In sz (section_sizes l k) -> 0 < sz.
Proof.
  intros Hk Hkl H. unfold section_sizes in H.
  assert (0 < l / k) by (apply Nat.div_str_pos; lia).
  apply in_app_or in H. destruct H as [H | H]; apply repeat_spec in H; lia.
Qed.

Lemma sections_from_sizes (off : nat) (sizes : list nat) :
  map snd (sections_from off sizes) = sizes.
Proof.
  revert off. induction sizes as [| z sizes IH]; intros off; simpl;
    [reflexivity |]. now rewrite IH.
Qed.

Lemma sections_pos (l k : nat) (s : nat * nat) :
  0 < k -> k <= l -> In s (sections l k) -> 0 < snd s.
Proof.
  intros Hk Hkl H. apply (section_sizes_pos l k (snd s) Hk Hkl).
  rewrite <- (sections_from_sizes 0 (section_sizes l k)).
  now apply in_map.
Qed.

Lemma sections_one (l : nat) : sections l 1 = [(0, l)].
Proof.
  unfold sections, section_sizes.
  rewrite Nat.mod_1_r, Nat.div_1_r. reflexivity.
Qed.

Lemma est_range_length {A : Type} (ests : list A) (s : nat * nat) :
  fst s + snd s <= length ests -> length (est_range ests s) = snd s.
Proof.
  intros H. unfold est_range. rewrite length_firstn, length_skipn. lia.
Qed.

Lemma est_range_nth_error {A : Type} (ests : list A) (s : nat * nat) (j : nat) (x : A) :
  nth_error (est_range ests s) j = Some x ->
  nth_error ests (fst s + j) = Some x.
Proof.
  unfold est_range. intros H.
  assert (Hj : j < snd s).
  { destruct (Nat.ltb_spec j (snd s)) as [? | Hge]; [assumption |].
    rewrite nth_error_firstn in H.
    destruct (Nat.ltb_spec j (snd s)); [lia | discriminate]. }
  rewrite nth_error_firstn in H.
  destruct (Nat.ltb_spec j (snd s)); [| lia].
  now rewrite nth_error_skipn in H.
Qed.

(** ** Loops and their calls *)

Lemma flat_map_seq_shift {A : Type} (lg : nat -> list A) (a n : nat) :
  flat_map lg (seq (S a) n) = flat_map (fun m => lg (S m)) (seq a n).
Proof.
  rewrite <- seq_shift.
  now rewrite (flat_map_concat_map lg (map S _)), map_map, <- flat_map_concat_map.
Qed.

Lemma foldM_steps_log {E A B : Type} (f : A -> B -> M E A) (st : nat -> A)
    (lg : nat -> list (event E)) (l : list B) :
  (forall m x, nth_error l m = Some x -> f (st m) x = (lg m, inr (st (S m)))) ->
  foldM f l (st 0) = (flat_map lg (seq 0 (length l)), inr (st (length l))).
Proof.
  revert st lg. induction l as [| x l IH]; intros st lg H; simpl.
  - reflexivity.
  - rewrite (H 0 x eq_refl). unfold bind.
    rewrite (IH (fun m => st (S m)) (fun m => lg (S m)))
      by (intros m y Hy; apply (H (S m) y Hy)).
    now rewrite flat_map_seq_shift.
Qed.

Lemma bind_lift_value {E A B : Type} (log : list (event E)) (a : A)
    (k : A -> M E B) (r : exn + B) :
  k a = lift r -> bind (log, inr a) k = (log, r).
Proof. intros H. unfold bind. rewrite H. unfold lift. now rewrite app_nil_r. Qed.

Lemma combine_map_l {A B C : Type} (f : A -> C) (a : list A) (b : list B) :
  combine (map f a) b = map (fun p => (f (fst p), snd p)) (combine a b).
Proof.
  revert b. induction a as [| x a IH]; intros [| y b]; simpl; try reflexivity.
  now rewrite IH.
Qed.

Lemma flat_map_unit_log {E : Type} (ests : list E) (h : nat -> E -> event E) :
  flat_map (unit_log ests h) (seq 0 (length ests))
  = map (fun p => h (fst p) (snd p)) (enumerate ests).
Proof.
  unfold enumerate. revert h. induction ests as [| x l IH]; intros h;
    [reflexivity |].
  cbn [length seq flat_map combine map]. unfold unit_log at 1.
  cbn [nth_error app fst snd]. f_equal.
  rewrite flat_map_seq_shift, <- seq_shift, combine_map_l, map_map.
  etransitivity; [| apply (IH (fun m => h (S m)))].
  reflexivity.
Qed.

Lemma flat_map_concat {A B : Type} (f : A -> list B) (ls : list (list A)) :
  flat_map f (concat ls) = flat_map (fun l => flat_map f l) ls.
Proof.
  induction ls as [| l ls IH]; simpl; [reflexivity |].
  now rewrite flat_map_app, IH.
Qed.

Lemma est_range_nth {A : Type} (ests : list A) (s : nat * nat) (j : nat) :
  j < snd s -> nth_error (est_range ests s) j = nth_error ests (fst s + j).
Proof.
  intros Hj. unfold est_range. rewrite nth_error_firstn.
  destruct (Nat.ltb_spec j (snd s)); [| lia].
  apply nth_error_skipn.
Qed.

(** The calls of the job of one section are the calls of the models of that
    section. *)
Lemma unit_log_section {E : Type} (ests : list E) (X : ndarray)
    (pre : list nat) (t : nat) (s : nat * nat) (name : string) :
  shape X = pre ++ [t] ->
  flat_map (unit_log (est_range ests s)
              (fun j est => Invoke est name [slice_at (slice_range X s) j]))
           (seq 0 (snd s))
  = flat_map (unit_log ests (fun i est => Invoke est name [slice_at X i]))
             (seq (fst s) (snd s)).
Proof.
  intros HX. rewrite (seq_offset (fst s) (snd s)).
  rewrite (flat_map_concat_map _ (map _ _)), map_map, <- flat_map_concat_map.
  apply flat_map_ext_in. intros j Hj. apply in_seq in Hj.
  unfold unit_log. rewrite (est_range_nth ests s j) by lia.
  destruct (nth_error ests (fst s + j)); [| reflexivity].
  unfold slice_range.
  now rewrite (slice_at_slice_last X pre t (fst s) (snd s) j HX) by lia.
Qed.

Lemma same_slice_calls_sections {E : Type} (ests : list E) (X : ndarray)
    (pre : list nat) (k : nat) (name : string) :
  shape X = pre ++ [length ests] -> 0 < k ->
  flat_map (fun s =>
              flat_map (unit_log (est_range ests s)
                          (fun j est =>
                             Invoke est name [slice_at (slice_range X s) j]))
                       (seq 0 (snd s)))
           (sections (length ests) k)
  = same_slice_calls ests X name.
Proof.
  intros HX Hk. unfold same_slice_calls.
  rewrite <- (flat_map_unit_log ests
                (fun i est => Invoke est name [slice_at X i])).
  rewrite <- (sections_cover (length ests) k Hk).
  rewrite flat_map_concat, (flat_map_concat_map _ (map _ _)), map_map,
    <- flat_map_concat_map.
  apply flat_map_ext_in. intros s _.
  now apply unit_log_section with (pre := pre) (t := length ests).
Qed.

(** ** The same-slice apply loop *)

Section ApplyUnits.

Context {E : Type} {MC : ModelCapability E}.

Variables (method : string) (tr : list nat) (vs : nat -> ndarray).

Lemma _sl_init_pred_shape (v X : ndarray) (n c t : nat) :
  shape X = [n; c; t] -> shape v = n :: tr ->
  _sl_init_pred (E := E) v X = ret (zeros (n :: t :: tr) (out_kind tr)).
Proof.
  intros HX Hv. unfold _sl_init_pred, ndim. rewrite HX, Hv. cbn [unpack3].
  rewrite bind_ret_l. cbn [length tl].
  destruct tr as [| p tr']; reflexivity.
Qed.

(** The loop of [_sl_transform] when every call returns: one call per
    model, and a tensor whose column [i] is the result of model [i]
    converted to the kind of the tensor. *)
Lemma _sl_transform_units (ests : list E) (X : ndarray) (n c t : nat) :
  shape X = [n; c; t] -> length ests = t -> 0 < t ->
  applies_same_slice ests X method n tr vs ->
  _sl_transform ests X method
  = (flat_map (unit_log ests (fun i est => Invoke est method [slice_at X i]))
              (seq 0 t),
     inr (mk_nd (n :: t :: tr) (out_kind tr)
            (build (n :: t :: tr)
               (fun idx => cast (dtype (vs (hd 0 (tl idx)))) (out_kind tr)
                             (get (vs (hd 0 (tl idx)))
                                  (hd 0 idx :: tl (tl idx))))))).
Proof.
  intros HX Hlen Ht Happ.
  set (st := fun m => match m with
                      | 0 => None
                      | S _ => Some (filled_cast (out_kind tr) n t tr vs m)
                      end).
  unfold _sl_transform. rewrite HX. cbn [unpack3]. rewrite bind_ret_l.
  change (@None ndarray) with (st 0).
  rewrite (foldM_steps_log _ st
             (unit_log ests (fun i est => Invoke est method [slice_at X i]))).
  - rewrite enumerate_length, Hlen. apply bind_value.
    destruct t as [| t']; [lia |]. cbn [st local]. f_equal.
    apply fillc_all.
  - intros m p Hp. apply nth_error_enumerate in Hp.
    destruct Hp as (est & -> & Hest).
    assert (Hm : m < t).
    { rewrite <- Hlen. apply nth_error_Some. congruence. }
    destruct (Happ m est Hest) as (Hhas & Hval & Hsh).
    unfold unit_log. rewrite Hest.
    unfold getattr. rewrite Hhas, bind_ret_l.
    rewrite (getitem_last_eq X [n; c] t m HX Hm), bind_lift_inr.
    rewrite Hval. apply bind_value.
    assert (Hinit : (if m =? 0
                     then (y0 <- _sl_init_pred (vs m) X ;; ret (Some y0))%monad
                     else ret (st m))
                    = ret (E := E)
                        (Some (filled_cast (out_kind tr) n t tr vs m))).
    { destruct m as [| m]; cbn [Nat.eqb]; [| reflexivity].
      rewrite (_sl_init_pred_shape (vs 0) X n c t HX Hsh).
      now rewrite bind_ret_l, (fillc_zero (out_kind tr) n t tr vs). }
    rewrite Hinit, bind_ret_l. cbn [local]. rewrite bind_ret_l.
    rewrite (fillc_step (out_kind tr) n t tr vs m Hsh Hm), bind_lift_inr.
    reflexivity.
Qed.

End ApplyUnits.

Section ApplyUnitsCalls.

Context {E : Type} {MC : ModelCapability E}.

Variable n_cores : nat.

(** A same-slice apply call with at most as many jobs as slices, when every
    call on a model returns. *)
Lemma SearchLight_transform_units (self : SearchLight.t) (X : ndarray)
    (n c t : nat) (ests : list E) (name method : string) (tr : list nat)
    (vs : nat -> ndarray) :
  shape X = [n; c; t] ->
  SearchLight.estimators_ self = Some ests -> t = length ests ->
  0 < parallel_func n_cores (SearchLight.n_jobs self) <= t ->
  method = resolved (SearchLight.base_estimator self) name ->
  applies_same_slice ests X method n tr vs ->
  SearchLight._transform n_cores self X name
  = (same_slice_calls ests X method,
     inr (mk_nd (n :: t :: tr) (out_kind tr)
            (build (n :: t :: tr)
               (fun idx => cast (dtype (vs (hd 0 (tl idx)))) (out_kind tr)
                             (get (vs (hd 0 (tl idx)))
                                  (hd 0 idx :: tl (tl idx))))))).
Proof.
  intros HX Hests Ht Hk Hname Happ.
  set (k := parallel_func n_cores (SearchLight.n_jobs self)) in *.
  rewrite (SearchLight_transform_dispatch n_cores self X n c t ests name
             HX Hests Ht (proj1 Hk)).
  fold k. rewrite <- Hname.
  set (g := fun sec : nat * nat =>
              mk_nd (n :: snd sec :: tr) (out_kind tr)
                (build (n :: snd sec :: tr)
                   (fun idx =>
                      cast (dtype (vs (fst sec + hd 0 (tl idx)))) (out_kind tr)
                        (get (vs (fst sec + hd 0 (tl idx)))
                             (hd 0 idx :: tl (tl idx)))))).
  rewrite (parallel_success _
             (fun sec =>
                flat_map (unit_log (est_range ests sec)
                            (fun j est =>
                               Invoke est method
                                      [slice_at (slice_range X sec) j]))
                         (seq 0 (snd sec)))
             g).
  2:{ intros sec Hsec.
      pose proof (sections_bound t k sec (proj1 Hk) Hsec) as Hb.
      pose proof (sections_pos t k sec (proj1 Hk) (proj2 Hk) Hsec) as Hpos.
      apply (_sl_transform_units method tr (fun j => vs (fst sec + j))
               (est_range ests sec) (slice_range X sec) n c (snd sec)).
      - apply (shape_slice_last X [n; c] t _ _ HX).
      - apply est_range_length. lia.
      - assumption.
      - intros j est Hj.
        assert (Hjs : j < snd sec).
        { rewrite <- (est_range_length ests sec) by lia.
          apply nth_error_Some. congruence. }
        apply est_range_nth_error in Hj. unfold slice_range.
        rewrite (slice_at_slice_last X [n; c] t (fst sec) (snd sec) j HX Hjs).
        now apply Happ. }
  rewrite Ht at 1. rewrite Ht in HX.
  rewrite (same_slice_calls_sections ests X [n; c] k method HX (proj1 Hk)).
  rewrite <- Ht in *.
  apply bind_lift_value.
  destruct (Nat.ltb_spec 1 k) as [Hk1 | Hk1].
  - f_equal.
    rewrite (concatenate_sections 1 (n :: t :: tr) (out_kind tr)
               (fun idx => cast (dtype (vs (hd 0 (tl idx)))) (out_kind tr)
                             (get (vs (hd 0 (tl idx)))
                                  (hd 0 idx :: tl (tl idx))))
               (section_sizes t k)).
    + rewrite section_sizes_sum by lia. reflexivity.
    + simpl. lia.
    + apply section_sizes_nonempty. lia.
    + reflexivity.
  - assert (k = 1) as -> by lia. rewrite sections_one. reflexivity.
Qed.

End ApplyUnitsCalls.

(** ** The cross-slice apply loop *)

Lemma map_snd_enumerate {A B : Type} (h : A -> B) (l : list A) :
  map (fun p => h (snd p)) (enumerate l) = map h l.
Proof.
  unfold enumerate. generalize 0. induction l as [| x l IH]; intros off;
    simpl; [reflexivity |]. now rewrite IH.
Qed.

Section CrossBlocks.

Context {E : Type} {MC : ModelCapability E}.

Variables (method : string) (c : nat) (tr : list nat) (ks : nat -> kind)
          (fs : nat -> list Q -> list nat -> Q).

(** The cross-slice loop on per-sample blocks with at most one axis: one
    call per model, on the stacked slices. *)
Lemma _gl_transform_blocks (ests : list E) (X : ndarray) (n t : nat) :
  shape X = [n; c; t] -> 0 < n -> 0 < t ->
  0 < length ests -> length tr <= 1 ->
  ensemble_row_independent ests method c tr ks fs ->
  _gl_transform ests X method
  = (map (fun est => Invoke est method [stacked X n c t]) ests,
     inr (table3 n (length ests) t tr
            (fun s i j rest => cast (ks i) float_ (fs i (features X s j) rest)))).
Proof.
  intros HX Hn Ht Hlen Htr Hri.
  set (vs := fun i => table2 n t tr (ks i)
                        (fun s j rest => fs i (features X s j) rest)).
  set (st := fun m => match m with
                      | 0 => None
                      | S _ => Some (filled_cast float_ n (length ests)
                                       (t :: tr) vs m)
                      end).
  rewrite (_gl_transform_stacked ests X method n c t HX).
  change (@None ndarray) with (st 0).
  rewrite (foldM_steps_log _ st
             (unit_log ests (fun _ est => Invoke est method [stacked X n c t]))).
  - rewrite enumerate_length, flat_map_unit_log.
    rewrite (map_snd_enumerate (fun est => Invoke est method [stacked X n c t])).
    apply bind_value.
    destruct (length ests) as [| e'] eqn:He; [lia |]. cbn [st local]. f_equal.
    rewrite fillc_all. unfold table3. f_equal. apply build_ext.
    intros idx Hidx.
    apply inb_cons_inv in Hidx. destruct Hidx as (s & idx1 & -> & Hs & Hidx).
    apply inb_cons_inv in Hidx. destruct Hidx as (i & idx2 & -> & Hi & Hidx).
    apply inb_cons_inv in Hidx. destruct Hidx as (j & idx3 & -> & Hj & Hidx).
    cbn [hd tl]. unfold vs, table2. cbn [dtype].
    rewrite get_build by (repeat (constructor; try assumption)). reflexivity.
  - intros m p Hp. apply nth_error_enumerate in Hp.
    destruct Hp as (est & -> & Hest).
    assert (Hm : m < length ests).
    { apply nth_error_Some. congruence. }
    unfold unit_log. rewrite Hest.
    rewrite (stacked_apply_eq est method tr (ks m) (fs m) X n c t
               (Hri m est Hest) HX Hn Ht).
    fold (vs m). apply bind_value.
    assert (Hinit : (if m =? 0
                     then (y0 <- _gl_init_pred (vs m) X (length ests) ;;
                           ret (Some y0))%monad
                     else ret (st m))
                    = ret (E := E)
                        (Some (filled_cast float_ n (length ests) (t :: tr)
                                 vs m))).
    { destruct m as [| m]; cbn [Nat.eqb]; [| reflexivity].
      unfold _gl_init_pred. rewrite HX. cbn [unpack3].
      rewrite bind_ret_l. cbn [ndim vs table2 shape length].
      rewrite <- (fillc_zero float_ n (length ests) (t :: tr) vs).
      destruct tr as [| p [| q tr']]; cbn [length Nat.eqb last] in *;
        [now rewrite bind_ret_l | now rewrite bind_ret_l | lia]. }
    rewrite Hinit, bind_ret_l. cbn [local]. rewrite bind_ret_l.
    rewrite (fillc_step float_ n (length ests) (t :: tr) vs m eq_refl Hm),
      bind_lift_inr.
    reflexivity.
Qed.

(** A block with two axes or more does not fit the tensor
    [_gl_init_pred] allocates: the first assignment fails. *)
Lemma _gl_transform_wide_blocks (est : E) (ests : list E) (X : ndarray)
    (n t : nat) (k : kind) (f : list Q -> list nat -> Q) :
  shape X = [n; c; t] -> 1 < n -> 0 < t -> 2 <= length tr ->
  row_independent est method c tr k f ->
  _gl_transform (est :: ests) X method
  = ([Invoke est method [stacked X n c t]],
     inl (ValueError "could not broadcast input array")).
Proof.
  intros HX Hn Ht Htr Hri.
  rewrite (_gl_transform_stacked (est :: ests) X method n c t HX).
  cbn [enumerate length seq combine foldM].
  rewrite (stacked_apply_eq est method tr k f X n c t Hri HX) by lia.
  unfold bind at 3. cbn [Nat.eqb].
  unfold _gl_init_pred. rewrite HX. cbn [unpack3]. rewrite bind_ret_l.
  cbn [ndim table2 shape length].
  destruct (Nat.eqb_spec (S (S (length tr))) 3) as [Hlen | _]; [lia |].
  rewrite !bind_ret_l. cbn [local]. rewrite bind_ret_l.
  unfold setitem. cbn [zeros shape view_shape Nat.ltb Nat.leb table2].
  assert (Hb : broadcastable (n :: t :: tr) [n; t] = false).
  { unfold broadcastable.
    assert (Hsq : squeeze_to 2 (n :: t :: tr) = n :: t :: tr)
      by (destruct n as [| [| n']]; [reflexivity | lia | reflexivity]).
    cbn [length]. rewrite Hsq. cbn [length].
    destruct (Nat.leb_spec (S (S (length tr))) 2); [lia | reflexivity]. }
  rewrite Hb. reflexivity.
Qed.

End CrossBlocks.

Section CrossBlocksCalls.

Context {E : Type} {MC : ModelCapability E}.

Variables (method : string) (tr : list nat) (ks : nat -> kind)
          (fs : nat -> list Q -> list nat -> Q).

Variable n_cores : nat.

(** A cross-slice apply call with at most as many jobs as slices: every
    job calls every model once, on the stacked slices of its chunk. *)
Lemma GeneralizationLight_transform_blocks (self : SearchLight.t)
    (X : ndarray) (n c t : nat) (ests : list E) (name : string) :
  shape X = [n; c; t] -> 0 < n ->
  SearchLight.estimators_ self = Some ests -> 0 < length ests ->
  0 < parallel_func n_cores (SearchLight.n_jobs self) <= t ->
  length tr <= 1 ->
  method = resolved (SearchLight.base_estimator self) name ->
  ensemble_row_independent ests method c tr ks fs ->
  GeneralizationLight._transform n_cores self X name
  = (flat_map (fun sec =>
                 map (fun est =>
                        Invoke est method
                               [stacked (slice_range X sec) n c (snd sec)])
                     ests)
              (sections t (parallel_func n_cores (SearchLight.n_jobs self))),
     inr (table3 n (length ests) t tr
            (fun s i j rest => cast (ks i) float_ (fs i (features X s j) rest)))).
Proof.
  intros HX Hn Hests He Hk Htr Hname Hri.
  set (k := parallel_func n_cores (SearchLight.n_jobs self)) in *.
  rewrite (GeneralizationLight_transform_dispatch n_cores self X n c t ests
             name HX Hests (proj1 Hk)).
  fold k. rewrite <- Hname.
  set (g := fun sec : nat * nat =>
              table3 n (length ests) (snd sec) tr
                (fun s i j rest =>
                   cast (ks i) float_ (fs i (features X s (fst sec + j)) rest))).
  rewrite (parallel_success _
             (fun sec =>
                map (fun est =>
                       Invoke est method
                              [stacked (slice_range X sec) n c (snd sec)])
                    ests)
             g).
  2:{ intros sec Hsec.
      pose proof (sections_pos t k sec (proj1 Hk) (proj2 Hk) Hsec) as Hpos.
      rewrite (_gl_transform_blocks method c tr ks fs
                 ests (slice_range X sec) n (snd sec)); try assumption.
      - f_equal. f_equal. unfold g, table3. f_equal.
        apply build_ext. intros idx Hidx.
        apply inb_cons_inv in Hidx. destruct Hidx as (s & idx1 & -> & Hs & Hidx).
        apply inb_cons_inv in Hidx. destruct Hidx as (i & idx2 & -> & Hi & Hidx).
        apply inb_cons_inv in Hidx. destruct Hidx as (j & idx3 & -> & Hj & Hidx).
        cbn [hd tl]. unfold slice_range.
        now rewrite (features_slice_last X n c t (fst sec) (snd sec) s j HX Hs Hj).
      - apply (shape_slice_last X [n; c] t _ _ HX). }
  apply bind_lift_value. f_equal.
  rewrite (concatenate_sections 2 (n :: length ests :: t :: tr) float_
             (fun idx => cast (ks (hd 0 (tl idx))) float_
                           (fs (hd 0 (tl idx))
                               (features X (hd 0 idx) (hd 0 (tl (tl idx))))
                               (tl (tl (tl idx)))))
             (section_sizes t k)).
  - rewrite section_sizes_sum by lia. reflexivity.
  - simpl. lia.
  - apply section_sizes_nonempty. lia.
  - reflexivity.
Qed.

End CrossBlocksCalls.

(** ** The scoring loops *)

Section ScoreBlocks.

Context {E : Type} {MC : ModelCapability E}.


(** The same-slice scoring loop on scores with at least one axis: the
    scores are written, converted, into an integer tensor. *)
Lemma _sl_score_blocks (ests : list E) (X y : ndarray) (n c t : nat)
    (sh : list nat) (sc : nat -> ndarray) :
  shape X = [n; c; t] -> length ests = t -> 0 < t -> sh <> [] ->
  scores_same_slice ests X y sh sc ->
  exists log,
    _sl_score ests X y
    = (log, inr (mk_nd (t :: sh) int_
                   (build (t :: sh)
                      (fun idx => cast (dtype (sc (hd 0 idx))) int_
                                    (get (sc (hd 0 idx)) (tl idx)))))).
Proof.
  intros HX Hlen Ht Hsh Hsc.
  set (st := fun m => match m with
                      | 0 => None
                      | S _ => Some (filled_rows int_ t sh sc m)
                      end).
  unfold _sl_score. rewrite HX. cbn [unpack3]. rewrite bind_ret_l.
  match goal with
  | |- context [foldM ?f _ None] =>
      destruct (foldM_steps f st (enumerate ests)) as [log Hfold]
  end.
  - intros m p Hp. apply nth_error_enumerate in Hp.
    destruct Hp as (est & -> & Hest).
    assert (Hm : m < t).
    { rewrite <- Hlen. apply nth_error_Some. congruence. }
    destruct (Hsc m est Hest) as (Hhas & Hval & Hshape).
    exists [Invoke est "score" [slice_at X m; y]].
    unfold getattr_score. rewrite Hhas, bind_ret_l.
    rewrite (getitem_last_eq X [n; c] t m HX Hm), bind_lift_inr.
    rewrite Hval. apply bind_value.
    assert (Hinit :
      (if m =? 0
       then if ndim (sc m) =? 0
            then raise (TypeError
                   "'numpy.float64' object cannot be interpreted as an integer")
            else ret (Some (zeros (t :: shape (sc m)) int_))
       else ret (st m))
      = ret (E := E) (Some (filled_rows int_ t sh sc m))).
    { destruct m as [| m]; cbn [Nat.eqb]; [| reflexivity].
      unfold ndim. rewrite Hshape.
      destruct sh as [| d sh']; [congruence |]. cbn [length Nat.eqb].
      now rewrite (rows_zero int_ t (d :: sh') sc). }
    rewrite Hinit, bind_ret_l. cbn [local]. rewrite bind_ret_l.
    rewrite (rows_step int_ t sh sc m Hshape Hm), bind_lift_inr.
    reflexivity.
  - exists log. change (@None ndarray) with (st 0). rewrite Hfold.
    apply bind_value. rewrite enumerate_length, Hlen.
    destruct t as [| t']; [lia |]. cbn [st local]. f_equal.
    apply rows_all.
Qed.

(** The cross-slice scoring loop: scalar scores go to a float64 matrix, the
    others to an integer tensor. *)
Lemma _gl_score_blocks (ests : list E) (X y : ndarray) (n c t : nat)
    (sh : list nat) (sc : nat -> nat -> ndarray) :
  shape X = [n; c; t] -> 0 < length ests -> 0 < t ->
  scores_cross_slice ests X y t sh sc ->
  exists log,
    _gl_score ests X y
    = (log, inr (mk_nd (length ests :: t :: sh) (out_kind sh)
                   (build (length ests :: t :: sh)
                      (fun idx =>
                         cast (dtype (sc (hd 0 idx) (hd 0 (tl idx))))
                           (out_kind sh)
                           (get (sc (hd 0 idx) (hd 0 (tl idx)))
                                (tl (tl idx))))))).
Proof.
  intros HX He Ht Hsc.
  set (e := length ests) in *.
  set (st := fun p => match p with
                      | 0 => None
                      | S _ => Some (filled_grid (out_kind sh) e t sh sc p)
                      end).
  unfold _gl_score. rewrite HX. cbn [unpack3]. rewrite bind_ret_l.
  cbv zeta. fold e.
  match goal with
  | |- context [foldM ?f _ None] =>
      destruct (foldM_steps f (fun ii => st (ii * t)) (enumerate ests))
        as [log Hfold]
  end.
  - intros ii p Hp. apply nth_error_enumerate in Hp.
    destruct Hp as (est & -> & Hest).
    assert (Hii : ii < e).
    { apply nth_error_Some. congruence. }
    destruct (Hsc ii est Hest) as (Hhas & Hval).
    rewrite (shape_last_eq X [n; c] t HX), bind_ret_l.
    match goal with
    | |- context [foldM ?f _ _] =>
        destruct (foldM_steps f (fun jj => st (ii * t + jj)) (seq 0 t))
          as [log Hin]
    end.
    + intros jj x Hx. apply nth_error_seq_inv in Hx. destruct Hx as [-> Hjj].
      cbn [Nat.add].
      destruct (Hval jj Hjj) as (Hv & Hshape).
      exists [Invoke est "score" [slice_at X jj; y]].
      unfold getattr_score. rewrite Hhas, bind_ret_l.
      rewrite (getitem_last_eq X [n; c] t jj HX Hjj), bind_lift_inr.
      rewrite Hv. apply bind_value.
      assert (Hinit :
        (if (ii =? 0) && (jj =? 0)
         then if negb (ndim (sc ii jj) =? 0)
              then ret (Some (zeros (e :: t :: shape (sc ii jj)) int_))
              else ret (Some (zeros [e; t] float_))
         else ret (st (ii * t + jj)))
        = ret (E := E)
            (Some (filled_grid (out_kind sh) e t sh sc (ii * t + jj)))).
      { destruct ii as [| ii]; cbn [Nat.eqb andb].
        - destruct jj as [| jj]; cbn [Nat.eqb andb]; [| reflexivity].
          unfold ndim. rewrite Hshape. cbn [Nat.mul Nat.add].
          rewrite <- (grid_zero (out_kind sh) e t sh sc).
          destruct sh; reflexivity.
        - destruct t as [| t']; [lia |]. reflexivity. }
      rewrite Hinit, bind_ret_l. cbn [local]. rewrite bind_ret_l.
      rewrite (grid_step (out_kind sh) e t sh sc ii jj Hshape Hii Hjj),
        bind_lift_inr.
      rewrite Nat.add_succ_r. reflexivity.
    + exists log. rewrite Nat.add_0_r in Hin. rewrite Hin, length_seq.
      do 3 f_equal. simpl. lia.
  - exists log. change (@None ndarray) with (st (0 * t)). rewrite Hfold.
    apply bind_value. rewrite enumerate_length. fold e.
    assert (Hp : exists p, e * t = S p).
    { destruct e as [| e']; [lia |]. destruct t as [| t']; [lia |].
      simpl. eexists. reflexivity. }
    destruct Hp as [p Hp]. unfold st. rewrite Hp, <- Hp. cbn [local].
    f_equal. apply grid_all.
Qed.

End ScoreBlocks.

Section ScoreBlocksCalls.

Context {E : Type} {MC : ModelCapability E}.

Variable n_cores : nat.

(** A same-slice score call, at most as many jobs as slices, scores with at
    least one axis. *)
Lemma SearchLight_score_blocks (self : SearchLight.t) (X y : ndarray)
    (n c t : nat) (ests : list E) (sh : list nat) (sc : nat -> ndarray) :
  shape X = [n; c; t] ->
  SearchLight.estimators_ self = Some ests -> t = length ests ->
  0 < parallel_func n_cores (SearchLight.n_jobs self) <= t ->
  sh <> [] ->
  scores_same_slice ests X y sh sc ->
  result (SearchLight.score n_cores self X y)
  = inr (mk_nd (t :: sh) int_
           (build (t :: sh)
              (fun idx => cast (dtype (sc (hd 0 idx))) int_
                            (get (sc (hd 0 idx)) (tl idx))))).
Proof.
  intros HX Hests Ht Hk Hsh Hsc.
  set (k := parallel_func n_cores (SearchLight.n_jobs self)) in *.
  rewrite (SearchLight_score_dispatch n_cores self X y n c t ests
             HX Hests Ht (proj1 Hk)).
  fold k. rewrite result_bind.
  set (g := fun sec : nat * nat =>
              mk_nd (snd sec :: sh) int_
                (build (snd sec :: sh)
                   (fun idx => cast (dtype (sc (fst sec + hd 0 idx))) int_
                                 (get (sc (fst sec + hd 0 idx)) (tl idx))))).
  rewrite (parallel_result _ g).
  2:{ intros sec Hsec.
      pose proof (sections_bound t k sec (proj1 Hk) Hsec) as Hb.
      pose proof (sections_pos t k sec (proj1 Hk) (proj2 Hk) Hsec) as Hpos.
      destruct (_sl_score_blocks (est_range ests sec) (slice_range X sec) y
                  n c (snd sec) sh (fun j => sc (fst sec + j)))
        as [log Hlog].
      - apply (shape_slice_last X [n; c] t _ _ HX).
      - apply est_range_length. lia.
      - assumption.
      - assumption.
      - intros j est Hj.
        assert (Hjs : j < snd sec).
        { rewrite <- (est_range_length ests sec) by lia.
          apply nth_error_Some. congruence. }
        apply est_range_nth_error in Hj.
        unfold slice_range.
        rewrite (slice_at_slice_last X [n; c] t (fst sec) (snd sec) j HX Hjs).
        now apply Hsc.
      - rewrite Hlog. reflexivity. }
  destruct (Nat.ltb_spec 1 k) as [Hk1 | Hk1]; cbn [result snd lift].
  - rewrite (concatenate_sections 0 (t :: sh) int_
               (fun idx => cast (dtype (sc (hd 0 idx))) int_
                             (get (sc (hd 0 idx)) (tl idx)))
               (section_sizes t k)).
    + rewrite section_sizes_sum by lia. reflexivity.
    + simpl. lia.
    + apply section_sizes_nonempty. lia.
    + reflexivity.
  - assert (k = 1) as -> by lia. rewrite sections_one. reflexivity.
Qed.

(** A cross-slice score call with at most as many jobs as slices. *)
Lemma GeneralizationLight_score_blocks (self : SearchLight.t) (X y : ndarray)
    (n c t : nat) (ests : list E) (sh : list nat)
    (sc : nat -> nat -> ndarray) :
  shape X = [n; c; t] ->
  SearchLight.estimators_ self = Some ests -> 0 < length ests ->
  0 < parallel_func n_cores (SearchLight.n_jobs self) <= t ->
  scores_cross_slice ests X y t sh sc ->
  result (GeneralizationLight.score n_cores self X y)
  = inr (mk_nd (length ests :: t :: sh) (out_kind sh)
           (build (length ests :: t :: sh)
              (fun idx => cast (dtype (sc (hd 0 idx) (hd 0 (tl idx))))
                            (out_kind sh)
                            (get (sc (hd 0 idx) (hd 0 (tl idx)))
                                 (tl (tl idx)))))).
Proof.
  intros HX Hests He Hk Hsc.
  set (k := parallel_func n_cores (SearchLight.n_jobs self)) in *.
  rewrite (GeneralizationLight_score_dispatch n_cores self X y n c t ests
             HX Hests (proj1 Hk)).
  fold k. rewrite result_bind.
  set (g := fun sec : nat * nat =>
              mk_nd (length ests :: snd sec :: sh) (out_kind sh)
                (build (length ests :: snd sec :: sh)
                   (fun idx =>
                      cast (dtype (sc (hd 0 idx) (fst sec + hd 0 (tl idx))))
                        (out_kind sh)
                        (get (sc (hd 0 idx) (fst sec + hd 0 (tl idx)))
                             (tl (tl idx)))))).
  rewrite (parallel_result _ g).
  2:{ intros sec Hsec.
      pose proof (sections_bound t k sec (proj1 Hk) Hsec) as Hb.
      pose proof (sections_pos t k sec (proj1 Hk) (proj2 Hk) Hsec) as Hpos.
      destruct (_gl_score_blocks ests (slice_range X sec) y
                  n c (snd sec) sh (fun i j => sc i (fst sec + j)))
        as [log Hlog].
      - apply (shape_slice_last X [n; c] t _ _ HX).
      - assumption.
      - assumption.
      - intros i est Hi. destruct (Hsc i est Hi) as [Hhas Hval].
        split; [assumption |]. intros j Hj. unfold slice_range.
        rewrite (slice_at_slice_last X [n; c] t (fst sec) (snd sec) j HX Hj).
        apply Hval. lia.
      - rewrite Hlog. reflexivity. }
  destruct (Nat.ltb_spec 1 k) as [Hk1 | Hk1]; cbn [result snd lift].
  - rewrite (concatenate_sections 1 (length ests :: t :: sh) (out_kind sh)
               (fun idx => cast (dtype (sc (hd 0 idx) (hd 0 (tl idx))))
                             (out_kind sh)
                             (get (sc (hd 0 idx) (hd 0 (tl idx)))
                                  (tl (tl idx))))
               (section_sizes t k)).
    + rewrite section_sizes_sum by lia. reflexivity.
    + simpl. lia.
    + apply section_sizes_nonempty. lia.
    + reflexivity.
  - assert (k = 1) as -> by lia. rewrite sections_one. reflexivity.
Qed.

End ScoreBlocksCalls.

(** ** Row-independent models, slice by slice *)

(** On an input with at least one sample, row-independent models return on
    every slice. *)
Lemma row_independent_applies {E : Type} {MC : ModelCapability E}
    (ests : list E) (X : ndarray) (n c t : nat) (method : string)
    (tr : list nat) (ks : nat -> kind) (fs : nat -> list Q -> list nat -> Q) :
  shape X = [n; c; t] -> 0 < n ->
  ensemble_row_independent ests method c tr ks fs ->
  applies_same_slice ests X method n tr
    (fun i => mk_nd (n :: tr) (ks i)
                (build (n :: tr)
                   (fun idx => fs i (features X (hd 0 idx) i) (tl idx)))).
Proof.
  intros HX Hn Hri i est Hest. specialize (Hri i est Hest).
  split; [apply Hri |]. split; [| reflexivity].
  assert (Hsh : shape (slice_at X i) = [n; c])
    by (unfold slice_at; now rewrite HX).
  rewrite (row_independent_apply est method c tr (ks i) (fs i)
             (slice_at X i) n Hri Hn Hsh (wf_build _ _ _)).
  do 2 f_equal. apply build_ext. intros idx Hidx.
  apply inb_cons_inv in Hidx. destruct Hidx as (s & idx1 & -> & Hs & Hidx).
  cbn [hd tl]. now rewrite (row_slice_at X n c t s i HX Hs).
Qed.

Lemma toy_predict_row_independent (est : Toy.t) (c : nat) :
  hasattr est "predict" = true ->
  row_independent est "predict" c [] int_
    (fun r _ => trunc (Toy.weight est + Toy.sumQ r)).
Proof.
  intros H. split; [assumption |]. intros X N HX _. left. simpl.
  unfold Toy.apply. now rewrite HX.
Qed.

Lemma toy_predict_proba_row_independent (est : Toy.t) (c : nat) :
  hasattr est "predict_proba" = true ->
  row_independent est "predict_proba" c [2] float_
    (fun _ rest => if hd 0 rest =? 0 then (1 # 4)%Q else (3 # 4)%Q).
Proof.
  intros H. split; [assumption |]. intros X N HX _. left. simpl.
  unfold Toy.apply. now rewrite HX.
Qed.

(** ** C2 *)

(** C2 as stated fails: the first result of a [predict] call is an array of
    integer labels, and the tensor allocated for it, hence the result of
    the call, has kind float64. *)
Lemma C2_allocation_kind_counterexample :
  apply_method (Inputs.fitted0 Toy.classifier) "predict"
               (slice_at Inputs.X212 0) = inr Inputs.labels
  /\ (exists a, _sl_init_pred (E := Toy.t) Inputs.labels Inputs.X212 = ([], inr a)
                /\ dtype a <> dtype Inputs.labels)
  /\ (exists a, result (SearchLight.predict 4 (Inputs.ensemble Toy.classifier 1)
                          Inputs.X212) = inr a
                /\ dtype a <> dtype Inputs.labels).
Proof.
  split; [vm_compute; reflexivity |].
  split; eexists; (split; [vm_compute; reflexivity | discriminate]).
Qed.

(** C2, amended.  The kind of the output tensor does not come from the
    first result: it is fixed by the path.  On a fitted ensemble, with at
    most as many jobs as slices:
    - a same-slice apply call in which every model returns one value per
      sample returns a tensor of kind float64, whatever the kinds of the
      arrays [vs i] the models return;
    - a cross-slice apply call on an input with at least one sample and on
      row-independent models that yield one value or one vector per sample
      returns a tensor of kind float64, whatever the kinds [ks i] of the
      models' results;
    - a cross-slice score call in which every [score] call returns a
      scalar returns a matrix of kind float64, whatever the kinds of the
      scores;
    - each stored value is the model's value converted to float64, which
      leaves a float64 as it is, and an integer up to 2^53 in magnitude
      too. *)
Theorem C2_allocation_kind_fixed_by_path {E : Type} {MC : ModelCapability E}
    (n_cores : nat) (self : SearchLight.t) (X : ndarray) (n c t : nat)
    (ests : list E) :
  shape X = [n; c; t] ->
  SearchLight.estimators_ self = Some ests ->
  0 < parallel_func n_cores (SearchLight.n_jobs self) <= t ->
  (forall method vs,
     t = length ests ->
     applies_same_slice ests X
       (resolved (SearchLight.base_estimator self) method) n [] vs ->
     exists Y,
       result (SearchLight._transform n_cores self X method) = inr Y
       /\ shape Y = [n; t] /\ dtype Y = float_
       /\ forall s i, s < n -> i < t ->
            get Y [s; i] = cast (dtype (vs i)) float_ (get (vs i) [s]))
  /\ (forall method tr ks fs,
        0 < n -> 0 < length ests -> length tr <= 1 ->
        ensemble_row_independent ests
          (resolved (SearchLight.base_estimator self) method) c tr ks fs ->
        exists Y,
          result (GeneralizationLight._transform n_cores self X method) = inr Y
          /\ shape Y = n :: length ests :: t :: tr /\ dtype Y = float_
          /\ forall s i j rest,
               s < n -> i < length ests -> j < t -> inb rest tr ->
               get Y (s :: i :: j :: rest)
               = cast (ks i) float_ (fs i (features X s j) rest))
  /\ (forall y sc,
        0 < length ests ->
        scores_cross_slice ests X y t [] sc ->
        exists S,
          result (GeneralizationLight.score n_cores self X y) = inr S
          /\ shape S = [length ests; t] /\ dtype S = float_
          /\ forall i j, i < length ests -> j < t ->
               get S [i; j] = cast (dtype (sc i j)) float_ (get (sc i j) []))
  /\ (forall q, cast float_ float_ q = q)
  /\ (forall z, (Z.abs z <= 2 ^ 53)%Z ->
        cast int_ float_ (inject_Z z) = inject_Z z).
Proof.
  intros HX Hests Hk.
  split; [| split; [| split; [| split]]].
  - intros method vs Ht Hap. eexists. split.
    + rewrite (SearchLight_transform_units n_cores self X n c t ests method
                 (resolved (SearchLight.base_estimator self) method) [] vs
                 HX Hests Ht Hk eq_refl Hap).
      reflexivity.
    + split; [reflexivity |]. split; [reflexivity |].
      intros s i Hs Hi.
      rewrite get_build by (repeat (constructor; try assumption)).
      reflexivity.
  - intros method tr ks fs Hn He Htr Hri. eexists. split.
    + rewrite (GeneralizationLight_transform_blocks
                 (resolved (SearchLight.base_estimator self) method) tr ks fs
                 n_cores self X n c t ests method HX Hn Hests
                 He Hk Htr eq_refl Hri).
      reflexivity.
    + split; [reflexivity |]. split; [reflexivity |].
      intros s i j rest Hs Hi Hj Hrest. unfold table3.
      rewrite get_build by (repeat (constructor; try assumption)).
      reflexivity.
  - intros y sc He Hsc. eexists. split.
    + exact (GeneralizationLight_score_blocks n_cores self X y n c t ests []
               sc HX Hests He Hk Hsc).
    + split; [reflexivity |]. split; [reflexivity |].
      intros i j Hi Hj.
      rewrite get_build by (repeat (constructor; try assumption)).
      reflexivity.
  - intros q. reflexivity.
  - apply cast_int_float_exact.
Qed.

Lemma C2_allocation_kind_fixed_by_path_witness :
  (exists Y,
     result (SearchLight._transform 4 (Inputs.ensemble Toy.classifier 2)
               Inputs.X212 "predict") = inr Y
     /\ shape Y = [2; 2] /\ dtype Y = float_
     /\ forall s i, s < 2 -> i < 2 ->
          get Y [s; i]
          = cast int_ float_
              (trunc (Toy.weight (nth i (Inputs.fitted Toy.classifier)
                                      Toy.classifier)
                      + Toy.sumQ (features Inputs.X212 s i))))
  /\ (exists Y,
        result (GeneralizationLight._transform 4
                  (Inputs.ensemble Toy.classifier 2) Inputs.X212 "predict")
        = inr Y
        /\ shape Y = [2; 2; 2] /\ dtype Y = float_
        /\ forall s i j, s < 2 -> i < 2 -> j < 2 ->
             get Y [s; i; j]
             = cast int_ float_
                 (trunc (Toy.weight (nth i (Inputs.fitted Toy.classifier)
                                         Toy.classifier)
                         + Toy.sumQ (features Inputs.X212 s j))))
  /\ (exists S,
        result (GeneralizationLight.score 4 (Inputs.ensemble Toy.classifier 2)
                  Inputs.X212 Inputs.y2) = inr S
        /\ shape S = [2; 2] /\ dtype S = float_
        /\ forall i j, i < 2 -> j < 2 -> get S [i; j] = (3 # 4)%Q).
Proof.
  pose proof (C2_allocation_kind_fixed_by_path 4
                (Inputs.ensemble Toy.classifier 2) Inputs.X212 2 1 2
                (Inputs.fitted Toy.classifier) eq_refl eq_refl
                ltac:(vm_compute; lia))
    as (Hsl & Hgl & Hsc & _).
  assert (Hri : ensemble_row_independent (Inputs.fitted Toy.classifier)
                  "predict" 1 [] (fun _ => int_)
                  (fun i r _ =>
                     trunc (Toy.weight (nth i (Inputs.fitted Toy.classifier)
                                           Toy.classifier)
                            + Toy.sumQ r))).
  { intros [| [| i]] est Hest; simpl in Hest;
      [inversion Hest; subst; apply toy_predict_row_independent; reflexivity
      | inversion Hest; subst; apply toy_predict_row_independent; reflexivity
      | destruct i; discriminate]. }
  split; [| split].
  - destruct (Hsl "predict" _ eq_refl
                (row_independent_applies (Inputs.fitted Toy.classifier)
                   Inputs.X212 2 1 2 "predict" [] _ _ eq_refl
                   ltac:(lia) Hri))
      as (Y & HY & Hshape & Hkind & Hval).
    exists Y. split; [exact HY |]. split; [exact Hshape |].
    split; [exact Hkind |]. intros s i Hs Hi. rewrite (Hval s i Hs Hi).
    cbn [dtype]. now rewrite get_build by (repeat (constructor; try assumption)).
  - destruct (Hgl "predict" [] _ _ ltac:(lia) ltac:(simpl; lia)
                ltac:(simpl; lia) Hri)
      as (Y & HY & Hshape & Hkind & Hval).
    exists Y. split; [exact HY |]. split; [exact Hshape |].
    split; [exact Hkind |]. intros s i j Hs Hi Hj.
    exact (Hval s i j [] Hs Hi Hj ltac:(constructor)).
  - assert (Hscores : scores_cross_slice (Inputs.fitted Toy.classifier)
                         Inputs.X212 Inputs.y2 2 []
                         (fun _ _ => mk_nd [] float_ [(3 # 4)%Q])).
    { intros [| [| i]] est Hest; simpl in Hest;
        [inversion Hest; subst; repeat split
        | inversion Hest; subst; repeat split
        | destruct i; discriminate]. }
    destruct (Hsc Inputs.y2 _ ltac:(simpl; lia) Hscores)
      as (S & HS & Hshape & Hkind & Hval).
    exists S. split; [exact HS |]. split; [exact Hshape |].
    split; [exact Hkind |]. intros i j Hi Hj. now rewrite (Hval i j Hi Hj).
Defined.

(** ** C10 *)

Lemma resolved_transform {E : Type} {MC : ModelCapability E} (estimator : E) :
  resolved estimator "transform" = transform_target estimator
  /\ resolved estimator (transform_target estimator) = transform_target estimator.
Proof.
  unfold resolved, transform_target.
  destruct (hasattr estimator "transform"); split; reflexivity.
Qed.

(** A prototype with [transform]: the fitted models are called through
    [transform], in both modes. *)
Example transform_kept_example :
  transform_target Toy.centerer = "transform"
  /\ map event_name
        (calls (SearchLight.transform 4 (Inputs.ensemble Toy.centerer 1)
                  Inputs.X212))
     = ["transform"; "transform"]
  /\ map event_name
        (calls (GeneralizationLight.transform 4 (Inputs.ensemble Toy.centerer 1)
                  Inputs.X212))
     = ["transform"; "transform"].
Proof. repeat split. Qed.

(** C10.  Whether a [transform] call falls back to [predict] is decided on
    the prototype [base_estimator] alone: the method called is [transform]
    when the prototype has it and [predict] when it has not, whatever the
    attributes of the fitted models.  In both modes, for every object and
    every input, the call is the apply call of that method and every call
    it makes on a model is a call of that method.  On a fitted ensemble of
    models that are row-independent for that method, every fitted model is
    called: once on its own slice in the same-slice mode, and once per job
    on the job's stacked slices in the cross-slice mode. *)
Theorem C10_fallback_decided_on_prototype {E : Type} {MC : ModelCapability E}
    (n_cores : nat) (self : SearchLight.t) (X : ndarray) :
  SearchLight.transform n_cores self X
  = SearchLight._transform n_cores self X
      (transform_target (SearchLight.base_estimator self))
  /\ GeneralizationLight.transform n_cores self X
     = GeneralizationLight._transform n_cores self X
         (transform_target (SearchLight.base_estimator self))
  /\ Forall (fun ev => event_name ev
                       = transform_target (SearchLight.base_estimator self))
            (calls (SearchLight.transform n_cores self X))
  /\ Forall (fun ev => event_name ev
                       = transform_target (SearchLight.base_estimator self))
            (calls (GeneralizationLight.transform n_cores self X))
  /\ forall (n c t : nat) (ests : list E) (tr : list nat) (ks : nat -> kind)
            (fs : nat -> list Q -> list nat -> Q),
       shape X = [n; c; t] -> 0 < n ->
       SearchLight.estimators_ self = Some ests -> t = length ests ->
       0 < parallel_func n_cores (SearchLight.n_jobs self) <= t ->
       length tr <= 1 ->
       ensemble_row_independent ests
         (transform_target (SearchLight.base_estimator self)) c tr ks fs ->
       calls (SearchLight.transform n_cores self X)
       = map (fun p => Invoke (snd p)
                         (transform_target (SearchLight.base_estimator self))
                         [slice_at X (fst p)])
             (enumerate ests)
       /\ calls (GeneralizationLight.transform n_cores self X)
          = flat_map
              (fun sec =>
                 map (fun est =>
                        Invoke est
                          (transform_target (SearchLight.base_estimator self))
                          [stacked (slice_range X sec) n c (snd sec)])
                     ests)
              (sections t (parallel_func n_cores (SearchLight.n_jobs self))).
Proof.
  destruct (resolved_transform (SearchLight.base_estimator self)) as [Hr1 Hr2].
  assert (Hc : _check_method (SearchLight.base_estimator self) "transform"
               = _check_method (SearchLight.base_estimator self)
                   (transform_target (SearchLight.base_estimator self)))
    by (now rewrite !_check_method_returns, Hr1, Hr2).
  split; [| split; [| split; [| split]]].
  - unfold SearchLight.transform, SearchLight._transform. now rewrite Hc.
  - unfold GeneralizationLight.transform, GeneralizationLight._transform.
    now rewrite Hc.
  - rewrite <- Hr1. apply SearchLight_transform_calls.
  - rewrite <- Hr1. apply GeneralizationLight_transform_calls.
  - intros n c t ests tr ks fs HX Hn Hests Ht Hk Htr Hri. split.
    + unfold SearchLight.transform.
      rewrite (SearchLight_transform_units n_cores self X n c t ests "transform"
                 (transform_target (SearchLight.base_estimator self)) tr _
                 HX Hests Ht Hk (eq_sym Hr1)
                 (row_independent_applies ests X n c t _ tr ks fs HX Hn Hri)).
      reflexivity.
    + unfold GeneralizationLight.transform.
      rewrite (GeneralizationLight_transform_blocks
                 (transform_target (SearchLight.base_estimator self)) tr ks fs
                 n_cores self X n c t ests "transform" HX Hn Hests
                 ltac:(lia) Hk Htr (eq_sym Hr1) Hri).
      reflexivity.
Qed.

Lemma C10_fallback_decided_on_prototype_witness :
  Forall (fun est => hasattr est "transform" = true)
         (Inputs.fitted Toy.late_transformer)
  /\ transform_target Toy.late_transformer = "predict"
  /\ calls (SearchLight.transform 4 (Inputs.ensemble Toy.late_transformer 2)
              Inputs.X212)
     = map (fun p => Invoke (snd p) (transform_target Toy.late_transformer)
                       [slice_at Inputs.X212 (fst p)])
           (enumerate (Inputs.fitted Toy.late_transformer))
  /\ calls (GeneralizationLight.transform 4
              (Inputs.ensemble Toy.late_transformer 2) Inputs.X212)
     = flat_map
         (fun sec =>
            map (fun est =>
                   Invoke est (transform_target Toy.late_transformer)
                     [stacked (slice_range Inputs.X212 sec) 2 1 (snd sec)])
                (Inputs.fitted Toy.late_transformer))
         (sections 2 (parallel_func 4 2)).
Proof.
  split; [repeat constructor |]. split; [reflexivity |].
  refine (proj2 (proj2 (proj2 (proj2
            (C10_fallback_decided_on_prototype 4
               (Inputs.ensemble Toy.late_transformer 2) Inputs.X212))))
            2 1 2 (Inputs.fitted Toy.late_transformer) [] (fun _ => int_)
            (fun i r _ =>
               trunc (Toy.weight (nth i (Inputs.fitted Toy.late_transformer)
                                     Toy.late_transformer)
                      + Toy.sumQ r))
            _ _ _ _ _ _ _).
  - reflexivity.
  - lia.
  - reflexivity.
  - reflexivity.
  - vm_compute. lia.
  - simpl. lia.
  - intros [| [| i]] est Hest; simpl in Hest;
      [inversion Hest; subst; apply toy_predict_row_independent; reflexivity
      | inversion Hest; subst; apply toy_predict_row_independent; reflexivity
      | destruct i; discriminate].
Defined.

(** ** C6 *)

(** C6 (the code departs from the claim).  The ensemble is the one [fit]
    builds on [X]; the apply calls are made on the same [X]; the models are
    row-independent.
    - [predict_proba] yields two columns per sample.  The same-slice call
      stores them in a tensor of integer kind and the cross-slice call in
      one of kind float64: the diagonal of the cross-slice result holds the
      model's 1/4 where the same-slice result holds 0.
    - With more jobs than slices the same-slice call raises
      [UnboundLocalError] and the cross-slice call returns. *)
Theorem C6_diagonal_differs :
  result (SearchLight.fit 4 (SearchLight.mk Toy.scorer 1 None)
            Inputs.X212 Inputs.y2)
  = inr (Inputs.ensemble Toy.scorer 1)
  /\ ensemble_row_independent (Inputs.fitted Toy.scorer) "predict_proba" 1 [2]
       (fun _ => float_)
       (fun _ _ rest => if hd 0 rest =? 0 then (1 # 4)%Q else (3 # 4)%Q)
  /\ (exists Ysl Ygl,
        result (SearchLight.predict_proba 4 (Inputs.ensemble Toy.scorer 1)
                  Inputs.X212) = inr Ysl
        /\ result (GeneralizationLight.predict_proba 4
                     (Inputs.ensemble Toy.scorer 1) Inputs.X212) = inr Ygl
        /\ dtype Ysl = int_ /\ dtype Ygl = float_
        /\ get Ysl [0; 0; 0] = 0%Q /\ get Ygl [0; 0; 0; 0] = (1 # 4)%Q)
  /\ result (SearchLight.decision_function 4 (Inputs.ensemble Toy.scorer 3)
               Inputs.X212)
     = inl (UnboundLocalError "y_pred")
  /\ exists Ygl,
       result (GeneralizationLight.decision_function 4
                 (Inputs.ensemble Toy.scorer 3) Inputs.X212) = inr Ygl.
Proof.
  split; [vm_compute; reflexivity |].
  split.
  { intros [| [| i]] est Hest; simpl in Hest;
      [inversion Hest; subst;
       apply toy_predict_proba_row_independent; reflexivity
      | inversion Hest; subst;
        apply toy_predict_proba_row_independent; reflexivity
      | destruct i; discriminate]. }
  split.
  { eexists. eexists.
    split; [vm_compute; reflexivity |]. split; [vm_compute; reflexivity |].
    repeat split. }
  split; [vm_compute; reflexivity |].
  eexists. vm_compute. reflexivity.
Qed.

(** ** C4 *)

(** C4 (the code departs from the claim).  The ensemble has two fitted
    models and [X] two slices.  With one job, the same-slice [predict] and
    the cross-slice [score] return.  With three jobs the third chunk is
    empty: the loops of [_sl_transform] and [_gl_score] do not run, the
    output variable is never bound, and the calls raise
    [UnboundLocalError]. *)
Theorem C4_n_jobs_invariance_fails :
  (exists Y, result (SearchLight.predict 4 (Inputs.ensemble Toy.classifier 1)
                       Inputs.X212) = inr Y)
  /\ result (SearchLight.predict 4 (Inputs.ensemble Toy.classifier 3) Inputs.X212)
     = inl (UnboundLocalError "y_pred")
  /\ (exists Y, result (GeneralizationLight.score 4 (Inputs.ensemble Toy.classifier 1)
                          Inputs.X212 Inputs.y2) = inr Y)
  /\ result (GeneralizationLight.score 4 (Inputs.ensemble Toy.classifier 3)
               Inputs.X212 Inputs.y2)
     = inl (UnboundLocalError "score").
Proof.
  repeat split; try (eexists; vm_compute; reflexivity); vm_compute; reflexivity.
Qed.

(** * Further properties of the engine *)

(** ** Validation *)

Lemma check_X_rank {E : Type} {MC : ModelCapability E}
    (self : SearchLight.t) (X : ndarray) :
  ndim X <> 3 ->
  SearchLight._check_Xy (E := E) self X None
  = raise (ValueError "X must have at least 3 dimensions.").
Proof.
  intros H. unfold SearchLight._check_Xy. rewrite bind_ret_l.
  apply Nat.eqb_neq in H. now rewrite H.
Qed.

(** X1.  An input that is not of rank 3 is rejected by every operation of
    both classes with the rank [ValueError], and no call has been made on
    a model object when it is raised.  For [fit] the check of [y] comes
    first, so [y] must have the length of [X]. *)
Theorem X1_rank_check {E : Type} {MC : ModelCapability E}
    (n_cores : nat) (self : SearchLight.t) (X : ndarray) :
  ndim X <> 3 ->
  (forall method,
      SearchLight._transform n_cores self X method
      = ([], inl (ValueError "X must have at least 3 dimensions.")))
  /\ (forall y,
      SearchLight.score n_cores self X y
      = ([], inl (ValueError "X must have at least 3 dimensions.")))
  /\ (forall method,
      GeneralizationLight._transform n_cores self X method
      = ([], inl (ValueError "X must have at least 3 dimensions.")))
  /\ (forall y,
      GeneralizationLight.score n_cores self X y
      = ([], inl (ValueError "X must have at least 3 dimensions.")))
  /\ (forall y n, len X = inr n -> len y = inr n -> 0 < n ->
      SearchLight.fit n_cores self X y
      = ([], inl (ValueError "X must have at least 3 dimensions."))).
Proof.
  intros H. repeat split; intros.
  - unfold SearchLight._transform. now rewrite (check_X_rank self X H).
  - unfold SearchLight.score. now rewrite (check_X_rank self X H).
  - unfold GeneralizationLight._transform, GeneralizationLight._check_Xy.
    now rewrite (check_X_rank self X H).
  - unfold GeneralizationLight.score, GeneralizationLight._check_Xy.
    now rewrite (check_X_rank self X H).
  - unfold SearchLight.fit, SearchLight._check_Xy.
    rewrite H0, H1, !bind_assoc, !bind_lift_inr, Nat.eqb_refl.
    destruct (Nat.ltb_spec n 1) as [Hlt | _]; [lia |].
    simpl negb. simpl orb. cbv iota. rewrite bind_ret_l.
    apply Nat.eqb_neq in H. now rewrite H.
Qed.

Lemma X1_rank_check_witness :
  (forall method,
      SearchLight._transform 4 (Inputs.ensemble Toy.classifier 1)
        MoreInputs.X22 method
      = ([], inl (ValueError "X must have at least 3 dimensions.")))
  /\ (forall y,
      SearchLight.score 4 (Inputs.ensemble Toy.classifier 1) MoreInputs.X22 y
      = ([], inl (ValueError "X must have at least 3 dimensions.")))
  /\ (forall method,
      GeneralizationLight._transform 4 (Inputs.ensemble Toy.classifier 1)
        MoreInputs.X22 method
      = ([], inl (ValueError "X must have at least 3 dimensions.")))
  /\ (forall y,
      GeneralizationLight.score 4 (Inputs.ensemble Toy.classifier 1)
        MoreInputs.X22 y
      = ([], inl (ValueError "X must have at least 3 dimensions.")))
  /\ (forall y n, len MoreInputs.X22 = inr n -> len y = inr n -> 0 < n ->
      SearchLight.fit 4 (Inputs.ensemble Toy.classifier 1) MoreInputs.X22 y
      = ([], inl (ValueError "X must have at least 3 dimensions."))).
Proof.
  apply (X1_rank_check 4 (Inputs.ensemble Toy.classifier 1) MoreInputs.X22).
  vm_compute. lia.
Defined.



(** X3.  On an object that has not been fitted, every apply and score call
    on an input of rank 3 raises the [AttributeError] of the missing
    [estimators_]; no call has been made on a model object. *)
Theorem X3_unfitted {E : Type} {MC : ModelCapability E}
    (n_cores : nat) (self : SearchLight.t) (X : ndarray) (n c t : nat) :
  shape X = [n; c; t] -> SearchLight.estimators_ self = None ->
  0 < parallel_func n_cores (SearchLight.n_jobs self) ->
  (forall method,
      SearchLight._transform n_cores self X method
      = ([], inl (AttributeError "estimators_")))
  /\ (forall y,
      SearchLight.score n_cores self X y
      = ([], inl (AttributeError "estimators_")))
  /\ (forall method,
      GeneralizationLight._transform n_cores self X method
      = ([], inl (AttributeError "estimators_")))
  /\ (forall y,
      GeneralizationLight.score n_cores self X y
      = ([], inl (AttributeError "estimators_"))).
Proof.
  intros HX Hnone Hk.
  set (k := parallel_func n_cores (SearchLight.n_jobs self)) in *.
  assert (Hsec : exists s secs, sections t k = s :: secs).
  { pose proof (sections_length t k Hk) as Hlen.
    destruct (sections t k) as [| s secs]; [simpl in Hlen; lia | eauto]. }
  destruct Hsec as (s & secs & Hsec).
  repeat split; intros.
  - unfold SearchLight._transform.
    rewrite (check_X_ok self X n c t HX), bind_ret_l.
    rewrite _check_method_returns, bind_ret_l.
    rewrite (shape_last_eq X [n; c] t HX), bind_ret_l.
    unfold SearchLight.get_estimators_. now rewrite Hnone.
  - unfold SearchLight.score.
    rewrite (check_X_ok self X n c t HX), bind_ret_l.
    rewrite (shape_last_eq X [n; c] t HX), bind_ret_l.
    unfold SearchLight.get_estimators_. now rewrite Hnone.
  - unfold GeneralizationLight._transform, GeneralizationLight._check_Xy.
    fold k. rewrite (check_X_ok self X n c t HX), bind_ret_l.
    rewrite _check_method_returns, bind_ret_l.
    rewrite (array_split_eq X [n; c] t k HX Hk), bind_lift_inr, Hsec.
    unfold SearchLight.get_estimators_. rewrite Hnone. reflexivity.
  - unfold GeneralizationLight.score, GeneralizationLight._check_Xy.
    fold k. rewrite (check_X_ok self X n c t HX), bind_ret_l.
    rewrite (array_split_eq X [n; c] t k HX Hk), bind_lift_inr, Hsec.
    unfold SearchLight.get_estimators_. rewrite Hnone. reflexivity.
Qed.

Lemma X3_unfitted_witness :
  (forall method,
      SearchLight._transform 4 (MoreInputs.unfitted Toy.classifier 2)
        Inputs.X212 method
      = ([], inl (AttributeError "estimators_")))
  /\ (forall y,
      SearchLight.score 4 (MoreInputs.unfitted Toy.classifier 2) Inputs.X212 y
      = ([], inl (AttributeError "estimators_")))
  /\ (forall method,
      GeneralizationLight._transform 4 (MoreInputs.unfitted Toy.classifier 2)
        Inputs.X212 method
      = ([], inl (AttributeError "estimators_")))
  /\ (forall y,
      GeneralizationLight.score 4 (MoreInputs.unfitted Toy.classifier 2)
        Inputs.X212 y
      = ([], inl (AttributeError "estimators_"))).
Proof.
  apply (X3_unfitted 4 (MoreInputs.unfitted Toy.classifier 2) Inputs.X212 2 1 2).
  - reflexivity.
  - reflexivity.
  - vm_compute. lia.
Defined.

(** ** Which calls an operation makes *)

Section MoreCalls.

Context {E : Type} {MC : ModelCapability E}.

Lemma getattr_score_inv (est : E) (f : ndarray -> ndarray -> M E ndarray) :
  result (getattr_score est) = inr f ->
  f = fun X y => ([Invoke est "score" [X; y]], score_method est X y).
Proof.
  unfold getattr_score. destruct (hasattr est "score"); simpl; intros H;
    [now inversion H | discriminate].
Qed.

Lemma getattr_score_calls (est : E) : calls (getattr_score est) = [].
Proof. unfold getattr_score. now destruct (hasattr est "score"). Qed.

Lemma getattr_fit_inv (est : E) (f : ndarray -> ndarray -> M E E) :
  result (getattr_fit est) = inr f ->
  f = fun X y => ([Invoke est "fit" [X; y]], fit_method est X y).
Proof.
  unfold getattr_fit. destruct (hasattr est "fit"); simpl; intros H;
    [now inversion H | discriminate].
Qed.

Lemma getattr_fit_calls (est : E) : calls (getattr_fit est) = [].
Proof. unfold getattr_fit. now destruct (hasattr est "fit"). Qed.

Lemma score_unit_calls (est : E) (X y : ndarray) (ii : nat)
    (k : ndarray -> M E (option ndarray)) :
  (forall a, Forall (fun _ : event E => False) (calls (k a))) ->
  Forall (fun ev => exists e Xi, ev = Invoke e "score" [Xi; y])
         (calls (est_score <- getattr_score est ;;
                 X_ii <- lift (getitem_last X ii) ;;
                 _score <- est_score X_ii y ;;
                 k _score)%monad).
Proof.
  intros Hk.
  apply Forall_calls_bind; [rewrite getattr_score_calls; constructor |].
  intros f Hf. apply getattr_score_inv in Hf. subst f.
  apply Forall_calls_bind; [constructor |]. intros X_ii _.
  apply Forall_calls_bind.
  - unfold calls. simpl. constructor; [eauto | constructor].
  - intros a _. rewrite (no_calls _ (Hk a)). constructor.
Qed.

Lemma _sl_score_calls (estimators : list E) (X y : ndarray) :
  Forall (fun ev => exists e Xi, ev = Invoke e "score" [Xi; y])
         (calls (_sl_score estimators X y)).
Proof.
  unfold _sl_score.
  apply Forall_calls_bind; [calls_step |].
  intros [[n_sample n_chan] n_iter] _.
  apply Forall_calls_bind; [| intros v _; calls_step].
  apply Forall_calls_foldM. intros acc [ii est] _.
  apply score_unit_calls. intros sc. repeat calls_step.
Qed.

Lemma _gl_score_calls (estimators : list E) (X y : ndarray) :
  Forall (fun ev => exists e Xi, ev = Invoke e "score" [Xi; y])
         (calls (_gl_score estimators X y)).
Proof.
  unfold _gl_score.
  apply Forall_calls_bind; [calls_step |].
  intros [[n_sample n_chan] n_iter] _.
  apply Forall_calls_bind; [| intros v _; calls_step].
  apply Forall_calls_foldM. intros acc [ii est] _.
  apply Forall_calls_bind; [calls_step |]. intros n_jj _.
  apply Forall_calls_foldM. intros acc' jj _.
  apply score_unit_calls. intros sc. repeat calls_step.
Qed.

Lemma _sl_fit_calls (estimator : E) (X y : ndarray) :
  Forall (fun ev => ev = Invoke estimator "clone" []
                    \/ exists Xi, ev = Invoke (clone estimator) "fit" [Xi; y])
         (calls (_sl_fit estimator X y)).
Proof.
  unfold _sl_fit.
  apply Forall_calls_bind; [calls_step |]. intros n_iter _.
  apply Forall_calls_foldM. intros acc ii _.
  apply Forall_calls_bind.
  - unfold call_clone, calls. simpl. constructor; [now left | constructor].
  - intros est Hest. unfold call_clone, result in Hest. simpl in Hest.
    inversion Hest; subst est; clear Hest.
    apply Forall_calls_bind; [rewrite getattr_fit_calls; constructor |].
    intros f Hf. apply getattr_fit_inv in Hf. subst f.
    apply Forall_calls_bind; [constructor |]. intros X_ii _.
    apply Forall_calls_bind.
    + unfold calls. simpl. constructor; [right; eauto | constructor].
    + intros est' _. constructor.
Qed.

Variable n_cores : nat.

(** X4.  What each operation calls on model objects, whatever the input
    and whether or not the operation succeeds.
    - An apply operation calls one method only: the one requested, or
      [predict] for a [transform] request on a prototype without
      [transform].  It never fits, clones or scores.
    - [score] calls [score] only, and always with the [y] it was given.
    - [fit] clones the prototype and calls [fit] on clones, with the [y] it
      was given; it never calls [fit] on the prototype and never calls an
      inference method. *)
Theorem X4_calls_of_operations (self : SearchLight.t) (X y : ndarray)
    (method : string) :
  let name :=
    if (method =? "transform")%string
       && negb (hasattr (SearchLight.base_estimator self) "transform")
    then "predict" else method in
  Forall (fun ev => event_name ev = name)
         (calls (SearchLight._transform n_cores self X method))
  /\ Forall (fun ev => event_name ev = name)
            (calls (GeneralizationLight._transform n_cores self X method))
  /\ Forall (fun ev => exists e Xi, ev = Invoke e "score" [Xi; y])
            (calls (SearchLight.score n_cores self X y))
  /\ Forall (fun ev => exists e Xi, ev = Invoke e "score" [Xi; y])
            (calls (GeneralizationLight.score n_cores self X y))
  /\ Forall (fun ev =>
               ev = Invoke (SearchLight.base_estimator self) "clone" []
               \/ exists Xi,
                   ev = Invoke (clone (SearchLight.base_estimator self)) "fit"
                               [Xi; y])
            (calls (SearchLight.fit n_cores self X y)).
Proof.
  intros name. split; [| split; [| split; [| split]]].
  - apply SearchLight_transform_calls.
  - apply GeneralizationLight_transform_calls.
  - unfold SearchLight.score.
    apply Forall_calls_bind; [rewrite check_Xy_calls; constructor | intros _ _].
    repeat (apply _sl_score_calls || calls_step).
  - unfold GeneralizationLight.score, GeneralizationLight._check_Xy.
    apply Forall_calls_bind; [rewrite check_Xy_calls; constructor | intros _ _].
    repeat (apply _gl_score_calls || calls_step).
  - unfold SearchLight.fit.
    apply Forall_calls_bind; [rewrite check_Xy_calls; constructor | intros _ _].
    repeat (apply _sl_fit_calls || calls_step).
Qed.

End MoreCalls.

(** ** Same-slice apply, value by value *)

(** X5.  Same-slice apply on a fitted ensemble with at most as many jobs as
    slices, when the call of the method on each fitted model and its own
    slice of [X] returns an array [vs i] that holds one block of shape [tr]
    per sample.  The calls made are these, one per fitted model, in slice
    order.  The result has shape (samples, slices, [tr]...); its kind is
    float64 when the blocks are single values and integer otherwise; its
    entry at sample [s] and slice [i] is the entry of [vs i] at sample [s],
    converted to that kind. *)
Theorem X5_same_slice_apply_values {E : Type} {MC : ModelCapability E}
    (n_cores : nat) (self : SearchLight.t) (X : ndarray) (n c t : nat)
    (ests : list E) (method : string) (tr : list nat) (vs : nat -> ndarray) :
  shape X = [n; c; t] ->
  SearchLight.estimators_ self = Some ests -> t = length ests ->
  0 < parallel_func n_cores (SearchLight.n_jobs self) <= t ->
  applies_same_slice ests X
    (resolved (SearchLight.base_estimator self) method) n tr vs ->
  exists Y,
    SearchLight._transform n_cores self X method
    = (same_slice_calls ests X
         (resolved (SearchLight.base_estimator self) method), inr Y)
    /\ shape Y = n :: t :: tr
    /\ dtype Y = out_kind tr
    /\ forall s i rest, s < n -> i < t -> inb rest tr ->
         get Y (s :: i :: rest)
         = cast (dtype (vs i)) (out_kind tr) (get (vs i) (s :: rest)).
Proof.
  intros HX Hests Ht Hk Hap. eexists. split.
  - apply (SearchLight_transform_units n_cores self X n c t ests method
             (resolved (SearchLight.base_estimator self) method) tr vs
             HX Hests Ht Hk eq_refl Hap).
  - split; [reflexivity |]. split; [reflexivity |].
    intros s i rest Hs Hi Hrest.
    rewrite get_build by (repeat (constructor; try assumption)).
    reflexivity.
Qed.

Lemma X5_same_slice_apply_values_witness :
  exists Y,
    SearchLight._transform 4 (Inputs.ensemble Toy.scorer 2) Inputs.X212
      "predict_proba"
    = (same_slice_calls (Inputs.fitted Toy.scorer) Inputs.X212 "predict_proba",
       inr Y)
    /\ shape Y = [2; 2; 2]
    /\ dtype Y = int_
    /\ forall s i rest, s < 2 -> i < 2 -> inb rest [2] ->
         get Y (s :: i :: rest)
         = cast float_ int_
             (get (mk_nd [2; 2] float_
                     (build [2; 2]
                        (fun idx => if hd 0 (tl idx) =? 0
                                    then (1 # 4)%Q else (3 # 4)%Q)))
                  (s :: rest)).
Proof.
  refine (X5_same_slice_apply_values 4 (Inputs.ensemble Toy.scorer 2)
            Inputs.X212 2 1 2 (Inputs.fitted Toy.scorer) "predict_proba" [2]
            (fun _ => mk_nd [2; 2] float_
                        (build [2; 2]
                           (fun idx => if hd 0 (tl idx) =? 0
                                       then (1 # 4)%Q else (3 # 4)%Q)))
            _ _ _ _ _).
  - reflexivity.
  - reflexivity.
  - reflexivity.
  - vm_compute. lia.
  - intros [| [| i]] est Hest; simpl in Hest;
      [inversion Hest; subst; repeat split
      | inversion Hest; subst; repeat split
      | destruct i; discriminate].
Defined.

(** ** Cross-slice apply on wide blocks *)

Lemma stacked_slice_range_full (X : ndarray) (n c t : nat) :
  shape X = [n; c; t] -> stacked (slice_range X (0, t)) n c t = stacked X n c t.
Proof.
  intros HX. unfold stacked, slice_range. cbn [fst snd].
  f_equal. apply build_ext. intros idx Hidx.
  apply inb_cons_inv in Hidx. destruct Hidx as (r & idx1 & -> & Hr & Hidx).
  apply inb_cons_inv in Hidx. destruct Hidx as (f & idx2 & -> & Hf & Hidx).
  cbn [hd tl].
  assert (Ht : 0 < t) by (destruct t; [lia | lia]).
  apply (get_slice_last X [n; c] t 0 t [r / t; f] (r mod t) HX).
  - repeat constructor; [| assumption].
    apply Nat.Div0.div_lt_upper_bound. lia.
  - apply Nat.mod_upper_bound. lia.
Qed.

(** X8.  Cross-slice apply on an input with two samples or more, with at
    most as many jobs as slices, when the first fitted model is
    row-independent and its output for one sample has two axes or more:
    the tensor [_gl_init_pred] allocates has no room for the block, and
    the call raises the broadcast [ValueError].  With one job, the only
    call made before is that of the first model on the stacked slices. *)
Theorem X8_cross_slice_apply_wide_blocks {E : Type} {MC : ModelCapability E}
    (n_cores : nat) (tr : list nat) (k : kind) (f : list Q -> list nat -> Q)
    (self : SearchLight.t) (X : ndarray) (n c t : nat) (est : E) (ests : list E)
    (method : string) :
  2 <= length tr -> 1 < n ->
  shape X = [n; c; t] ->
  SearchLight.estimators_ self = Some (est :: ests) ->
  0 < parallel_func n_cores (SearchLight.n_jobs self) <= t ->
  row_independent est (resolved (SearchLight.base_estimator self) method)
    c tr k f ->
  result (GeneralizationLight._transform n_cores self X method)
  = inl (ValueError "could not broadcast input array")
  /\ (parallel_func n_cores (SearchLight.n_jobs self) = 1 ->
      calls (GeneralizationLight._transform n_cores self X method)
      = [Invoke est (resolved (SearchLight.base_estimator self) method)
                [stacked X n c t]]).
Proof.
  intros Htr Hn HX Hests Hk Hri.
  set (jobs := parallel_func n_cores (SearchLight.n_jobs self)) in *.
  rewrite (GeneralizationLight_transform_dispatch n_cores self X n c t
             (est :: ests) method HX Hests ltac:(lia)).
  fold jobs.
  assert (Hhead : forall sec secs, sections t jobs = sec :: secs ->
            parallel (fun sec0 =>
                        _gl_transform (est :: ests) (slice_range X sec0)
                          (resolved (SearchLight.base_estimator self) method))
                     (sec :: secs)
            = ([Invoke est (resolved (SearchLight.base_estimator self) method)
                       [stacked (slice_range X sec) n c (snd sec)]],
               inl (ValueError "could not broadcast input array"))).
  { intros sec secs Hsec. apply parallel_head_fails.
    apply (_gl_transform_wide_blocks _ c tr est ests (slice_range X sec)
             n (snd sec) k f); try assumption.
    - apply (shape_slice_last X [n; c] t _ _ HX).
    - apply (sections_pos t jobs sec); [lia | lia |].
      rewrite Hsec. now left. }
  split.
  - pose proof (sections_length t jobs ltac:(lia)) as Hlen.
    destruct (sections t jobs) as [| sec secs] eqn:Hsec; [simpl in Hlen; lia |].
    now rewrite (Hhead sec secs eq_refl).
  - intros H1. rewrite H1 in *. rewrite sections_one in *.
    rewrite (Hhead (0, t) [] eq_refl). cbn [calls fst snd].
    now rewrite (stacked_slice_range_full X n c t HX).
Qed.

Lemma embedder_transform_row_independent (c : nat) :
  row_independent Embedder.the "transform" c [2; 2] float_
    (fun r _ => Toy.sumQ r).
Proof.
  split; [reflexivity |]. intros X N HX _. left. simpl.
  unfold Embedder.apply. now rewrite HX.
Qed.

Lemma X8_cross_slice_apply_wide_blocks_witness :
  result (GeneralizationLight._transform 4 (Embedder.ensemble 1) Inputs.X212
            "transform")
  = inl (ValueError "could not broadcast input array")
  /\ (parallel_func 4 1 = 1 ->
      calls (GeneralizationLight._transform 4 (Embedder.ensemble 1)
               Inputs.X212 "transform")
      = [Invoke Embedder.the "transform" [stacked Inputs.X212 2 1 2]]).
Proof.
  refine (X8_cross_slice_apply_wide_blocks 4 [2; 2] float_
            (fun r _ => Toy.sumQ r)
            (Embedder.ensemble 1) Inputs.X212 2 1 2 Embedder.the [Embedder.the]
            "transform" _ _ _ _ _ _).
  - simpl. lia.
  - lia.
  - reflexivity.
  - reflexivity.
  - vm_compute. lia.
  - apply embedder_transform_row_independent.
Defined.

(** ** The diagonal of the cross-slice result *)

(** X17.  On a fitted ensemble of row-independent models that yield one
    value per sample, an input with at least one sample and as many slices
    as fitted models, and a number of jobs between one and that number,
    both apply calls return, and the cross-slice result at the diagonal,
    [Y[s, i, i]], is the same-slice result at [[s, i]]. *)
Theorem X17_diagonal_one_value_per_sample {E : Type} {MC : ModelCapability E}
    (n_cores : nat) (ks : nat -> kind) (fs : nat -> list Q -> list nat -> Q)
    (self : SearchLight.t) (X : ndarray) (n c t : nat) (ests : list E)
    (method : string) :
  shape X = [n; c; t] -> 0 < n ->
  SearchLight.estimators_ self = Some ests -> t = length ests ->
  0 < parallel_func n_cores (SearchLight.n_jobs self) <= t ->
  ensemble_row_independent ests
    (resolved (SearchLight.base_estimator self) method) c [] ks fs ->
  exists Ysl Ygl,
    result (SearchLight._transform n_cores self X method) = inr Ysl
    /\ result (GeneralizationLight._transform n_cores self X method) = inr Ygl
    /\ shape Ysl = [n; t] /\ shape Ygl = [n; t; t]
    /\ forall s i, s < n -> i < t -> get Ygl [s; i; i] = get Ysl [s; i].
Proof.
  intros HX Hn Hests Ht Hk Hri.
  eexists. eexists. split; [| split].
  - rewrite (SearchLight_transform_units n_cores self X n c t ests method
               (resolved (SearchLight.base_estimator self) method) [] _
               HX Hests Ht Hk eq_refl
               (row_independent_applies ests X n c t _ [] ks fs HX Hn Hri)).
    reflexivity.
  - rewrite (GeneralizationLight_transform_blocks
               (resolved (SearchLight.base_estimator self) method) [] ks fs
               n_cores self X n c t ests method HX Hn Hests
               ltac:(lia) Hk ltac:(simpl; lia) eq_refl Hri).
    reflexivity.
  - split; [reflexivity |]. split; [now rewrite <- Ht |].
    intros s i Hs Hi. unfold table3.
    rewrite !get_build
      by (repeat (constructor; try assumption); rewrite <- Ht; assumption).
    reflexivity.
Qed.

Lemma X17_diagonal_one_value_per_sample_witness :
  exists Ysl Ygl,
    result (SearchLight._transform 4 (Inputs.ensemble Toy.scorer 2) Inputs.X212
              "decision_function") = inr Ysl
    /\ result (GeneralizationLight._transform 4 (Inputs.ensemble Toy.scorer 2)
                 Inputs.X212 "decision_function") = inr Ygl
    /\ shape Ysl = [2; 2] /\ shape Ygl = [2; 2; 2]
    /\ forall s i, s < 2 -> i < 2 -> get Ygl [s; i; i] = get Ysl [s; i].
Proof.
  refine (X17_diagonal_one_value_per_sample 4 (fun _ => float_)
            (fun i r _ =>
               Qred (Toy.weight (nth i (Inputs.fitted Toy.scorer) Toy.scorer)
                     + Toy.sumQ r))
            (Inputs.ensemble Toy.scorer 2) Inputs.X212 2 1 2
            (Inputs.fitted Toy.scorer) "decision_function" _ _ _ _ _ _).
  - reflexivity.
  - lia.
  - reflexivity.
  - reflexivity.
  - vm_compute. lia.
  - intros [| [| i]] est Hest; simpl in Hest;
      [inversion Hest; subst;
       apply toy_decision_function_row_independent; reflexivity
      | inversion Hest; subst;
        apply toy_decision_function_row_independent; reflexivity
      | destruct i; discriminate].
Defined.

(** ** The number of jobs, within the number of slices *)



(** ** Scores, value by value *)



(** X19.  Same-slice scoring with at most as many jobs as slices, each
    fitted model having a [score] method that returns on its own slice an
    array [sc i] of shape [sh] with at least one axis: the call returns a
    tensor of shape (slices, [sh]...) and of integer kind whose entry [i]
    is [sc i] converted to an integer. *)
Theorem X19_same_slice_score_arrays {E : Type} {MC : ModelCapability E}
    (n_cores : nat) (self : SearchLight.t) (X y : ndarray) (n c t : nat)
    (ests : list E) (sh : list nat) (sc : nat -> ndarray) :
  shape X = [n; c; t] ->
  SearchLight.estimators_ self = Some ests -> t = length ests ->
  0 < parallel_func n_cores (SearchLight.n_jobs self) <= t ->
  sh <> [] ->
  scores_same_slice ests X y sh sc ->
  exists S,
    result (SearchLight.score n_cores self X y) = inr S
    /\ shape S = t :: sh /\ dtype S = int_
    /\ forall i rest, i < t -> inb rest sh ->
         get S (i :: rest) = cast (dtype (sc i)) int_ (get (sc i) rest).
Proof.
  intros HX Hests Ht Hk Hsh Hsc.
  eexists. split.
  - exact (SearchLight_score_blocks n_cores self X y n c t ests sh sc
             HX Hests Ht Hk Hsh Hsc).
  - split; [reflexivity |]. split; [reflexivity |].
    intros i rest Hi Hrest.
    rewrite get_build by (constructor; assumption). reflexivity.
Qed.

Lemma X19_same_slice_score_arrays_witness :
  exists S,
    result (SearchLight.score 4 (Embedder.ensemble 2) Inputs.X212 Inputs.y2)
    = inr S
    /\ shape S = [2; 2] /\ dtype S = int_
    /\ forall i rest, i < 2 -> inb rest [2] ->
         get S (i :: rest) = cast float_ int_ (get Embedder.scores rest).
Proof.
  refine (X19_same_slice_score_arrays 4 (Embedder.ensemble 2) Inputs.X212
            Inputs.y2 2 1 2 [Embedder.the; Embedder.the] [2]
            (fun _ => Embedder.scores) _ _ _ _ _ _).
  - reflexivity.
  - reflexivity.
  - reflexivity.
  - vm_compute. lia.
  - discriminate.
  - intros [| [| i]] est Hest; simpl in Hest;
      [inversion Hest; subst; repeat split
      | inversion Hest; subst; repeat split
      | destruct i; discriminate].
Defined.

(** X10.  Cross-slice scoring with at most as many jobs as slices and at
    least one model, each model having a [score] method that returns on
    every slice an array [sc i j] of shape [sh] (the empty shape for a
    scalar): the call returns a tensor of shape (models, slices, [sh]...)
    whose entry [(i, j)] is the score of model [i] on slice [j], converted
    to the kind of the tensor: float64 for scalar scores, integer for
    scores with at least one axis. *)
Theorem X10_cross_slice_score_values {E : Type} {MC : ModelCapability E}
    (n_cores : nat) (self : SearchLight.t) (X y : ndarray) (n c t : nat)
    (ests : list E) (sh : list nat) (sc : nat -> nat -> ndarray) :
  shape X = [n; c; t] ->
  SearchLight.estimators_ self = Some ests -> 0 < length ests ->
  0 < parallel_func n_cores (SearchLight.n_jobs self) <= t ->
  scores_cross_slice ests X y t sh sc ->
  exists S,
    result (GeneralizationLight.score n_cores self X y) = inr S
    /\ shape S = length ests :: t :: sh
    /\ dtype S = out_kind sh
    /\ forall i j rest, i < length ests -> j < t -> inb rest sh ->
         get S (i :: j :: rest)
         = cast (dtype (sc i j)) (out_kind sh) (get (sc i j) rest).
Proof.
  intros HX Hests He Hk Hsc.
  eexists. split.
  - exact (GeneralizationLight_score_blocks n_cores self X y n c t ests sh sc
             HX Hests He Hk Hsc).
  - split; [reflexivity |]. split; [reflexivity |].
    intros i j rest Hi Hj Hrest.
    rewrite get_build by (repeat (constructor; try assumption)).
    reflexivity.
Qed.

Lemma X10_cross_slice_score_values_witness :
  exists S,
    result (GeneralizationLight.score 4 (Inputs.ensemble Toy.scorer 2)
              MoreInputs.X213 Inputs.y2) = inr S
    /\ shape S = [length (Inputs.fitted Toy.scorer); 3]
    /\ dtype S = float_
    /\ forall i j rest, i < length (Inputs.fitted Toy.scorer) -> j < 3 ->
         inb rest [] ->
         get S (i :: j :: rest)
         = cast float_ float_ (get (mk_nd [] float_ [(3 # 4)%Q]) rest).
Proof.
  refine (X10_cross_slice_score_values 4 (Inputs.ensemble Toy.scorer 2)
            MoreInputs.X213 Inputs.y2 2 1 3 (Inputs.fitted Toy.scorer) []
            (fun _ _ => mk_nd [] float_ [(3 # 4)%Q]) _ _ _ _ _).
  - reflexivity.
  - reflexivity.
  - simpl. lia.
  - vm_compute. lia.
  - intros [| [| i]] est Hest; simpl in Hest;
      [inversion Hest; subst; repeat split
      | inversion Hest; subst; repeat split
      | destruct i; discriminate].
Defined.

(** ** More jobs than slices *)

Lemma parallel_fails_in {E A B : Type} (f : A -> M E B) (l : list A) (x : A)
    (e : exn) :
  In x l -> result (f x) = inl e ->
  exists e', result (parallel f l) = inl e'.
Proof.
  induction l as [| a l IH]; intros Hin Hx; [destruct Hin |].
  simpl. rewrite result_bind. destruct (result (f a)) as [e0 | b] eqn:Ha.
  - exists e0. reflexivity.
  - destruct Hin as [-> | Hin]; [congruence |].
    rewrite result_bind. destruct (IH Hin Hx) as [e' He'].
    rewrite He'. exists e'. reflexivity.
Qed.

(** The runner stops at the first unit that fails: the calls made are those
    of the units before it and its own. *)
Lemma parallel_prefix_failure {E A B : Type} (f : A -> M E B)
    (log : A -> list (event E)) (g : A -> B) (l1 : list A) (x : A)
    (l2 : list A) (logx : list (event E)) (e : exn) :
  (forall a, In a l1 -> f a = (log a, inr (g a))) ->
  f x = (logx, inl e) ->
  parallel f (l1 ++ x :: l2) = (flat_map log l1 ++ logx, inl e).
Proof.
  intros H1 Hx. induction l1 as [| a l1 IH]; simpl.
  - now rewrite Hx.
  - rewrite (H1 a (or_introl eq_refl)), IH by (intros; apply H1; now right).
    unfold bind. simpl. now rewrite app_assoc.
Qed.


Lemma sections_from_app (off : nat) (a b : list nat) :
  sections_from off (a ++ b)
  = sections_from off a ++ sections_from (off + fold_right Nat.add 0 a) b.
Proof.
  revert off. induction a as [| z a IH]; intros off; simpl.
  - now rewrite Nat.add_0_r.
  - rewrite IH. do 3 f_equal. lia.
Qed.

Lemma sum_repeat_one (t : nat) : fold_right Nat.add 0 (repeat 1 t) = t.
Proof. induction t as [| t IH]; simpl; [reflexivity | now rewrite IH]. Qed.

(** With more jobs than slices, the first jobs get one slice each and the
    others none. *)
Lemma sections_more_jobs (t k : nat) :
  t < k ->
  exists rest,
    sections t k = map (fun j => (j, 1)) (seq 0 t) ++ (t, 0) :: rest.
Proof.
  intros H. unfold sections, section_sizes.
  rewrite Nat.div_small, Nat.mod_small by lia. cbn [Nat.add].
  destruct (k - t) as [| m] eqn:Hm; [lia |]. cbn [repeat].
  rewrite sections_from_app, sections_from_ones, sum_repeat_one.
  cbn [Nat.add sections_from]. eexists. reflexivity.
Qed.

Lemma foldM_unchanged {E A B : Type} (f : A -> B -> M E A) (l : list B) (a : A) :
  (forall x, f a x = ret a) -> foldM f l a = ret a.
Proof.
  intros H. induction l as [| x l IH]; simpl; [reflexivity |].
  now rewrite H, bind_ret_l.
Qed.

Section EmptyChunks.

Context {E : Type} {MC : ModelCapability E}.

Lemma _sl_transform_empty (X : ndarray) (n c t : nat) (method : string) :
  shape X = [n; c; t] ->
  _sl_transform (E := E) [] X method = ([], inl (UnboundLocalError "y_pred")).
Proof. intros HX. unfold _sl_transform. rewrite HX. reflexivity. Qed.

Lemma _sl_score_empty (X y : ndarray) (n c t : nat) :
  shape X = [n; c; t] ->
  _sl_score (E := E) [] X y = ([], inl (UnboundLocalError "score")).
Proof. intros HX. unfold _sl_score. rewrite HX. reflexivity. Qed.

Lemma _gl_score_no_slice (ests : list E) (X y : ndarray) (n c : nat) :
  shape X = [n; c; 0] ->
  _gl_score ests X y = ([], inl (UnboundLocalError "score")).
Proof.
  intros HX. unfold _gl_score. rewrite HX. cbn [unpack3].
  rewrite bind_ret_l. cbv zeta.
  rewrite foldM_unchanged; [reflexivity |].
  intros [ii est]. now rewrite (shape_last_eq X [n; c] 0 HX), bind_ret_l.
Qed.

Lemma est_range_empty (ests : list E) (off : nat) : est_range ests (off, 0) = [].
Proof. reflexivity. Qed.

End EmptyChunks.


(** X11.  With more jobs than slices a same-slice apply call, a same-slice
    score call and a cross-slice score call never return a value, whatever
    the models do: one job receives no slice at all and leaves its result
    unbound, so the call ends with an exception (that one, or an earlier
    one). *)
Theorem X11_more_jobs_than_slices_never_returns
    {E : Type} {MC : ModelCapability E}
    (n_cores : nat) (self : SearchLight.t) (X y : ndarray) (n c t : nat)
    (method : string) :
  shape X = [n; c; t] ->
  t < parallel_func n_cores (SearchLight.n_jobs self) ->
  (exists e, result (SearchLight._transform n_cores self X method) = inl e)
  /\ (exists e, result (SearchLight.score n_cores self X y) = inl e)
  /\ (exists e, result (GeneralizationLight.score n_cores self X y) = inl e).
Proof.
  intros HX Hk.
  set (k := parallel_func n_cores (SearchLight.n_jobs self)) in *.
  assert (Hk0 : 0 < k) by lia.
  destruct (sections_more_jobs t k Hk) as [rest Hsec].
  assert (Hin : In (t, 0) (sections t k)).
  { rewrite Hsec. apply in_or_app. right. left. reflexivity. }
  assert (HX0 : shape (slice_range X (t, 0)) = [n; c; 0])
    by apply (shape_slice_last X [n; c] t _ _ HX).
  destruct (SearchLight.estimators_ self) as [ests |] eqn:Hests.
  - split; [| split].
    + destruct (Nat.eq_dec t (length ests)) as [Ht | Ht].
      * rewrite (SearchLight_transform_dispatch n_cores self X n c t ests
                   method HX Hests Ht Hk0).
        fold k. rewrite result_bind.
        destruct (parallel_fails_in
                    (fun s => _sl_transform (est_range ests s) (slice_range X s)
                                (resolved (SearchLight.base_estimator self) method))
                    (sections t k) (t, 0) (UnboundLocalError "y_pred") Hin)
          as [e He].
        { rewrite est_range_empty.
          now rewrite (_sl_transform_empty _ n c 0 _ HX0). }
        rewrite He. exists e. reflexivity.
      * unfold SearchLight._transform.
        rewrite (check_X_ok self X n c t HX), bind_ret_l.
        rewrite _check_method_returns, bind_ret_l.
        rewrite (shape_last_eq X [n; c] t HX), bind_ret_l.
        unfold SearchLight.get_estimators_. rewrite Hests, bind_ret_l.
        destruct (Nat.eqb_spec t (length ests)); [contradiction |].
        eexists. reflexivity.
    + destruct (Nat.eq_dec t (length ests)) as [Ht | Ht].
      * rewrite (SearchLight_score_dispatch n_cores self X y n c t ests
                   HX Hests Ht Hk0).
        fold k. rewrite result_bind.
        destruct (parallel_fails_in
                    (fun s => _sl_score (est_range ests s) (slice_range X s) y)
                    (sections t k) (t, 0) (UnboundLocalError "score") Hin)
          as [e He].
        { rewrite est_range_empty.
          now rewrite (_sl_score_empty _ y n c 0 HX0). }
        rewrite He. exists e. reflexivity.
      * unfold SearchLight.score.
        rewrite (check_X_ok self X n c t HX), bind_ret_l.
        rewrite (shape_last_eq X [n; c] t HX), bind_ret_l.
        unfold SearchLight.get_estimators_. rewrite Hests, bind_ret_l.
        destruct (Nat.eqb_spec t (length ests)); [contradiction |].
        eexists. reflexivity.
    + rewrite (GeneralizationLight_score_dispatch n_cores self X y n c t ests
                 HX Hests Hk0).
      fold k. rewrite result_bind.
      destruct (parallel_fails_in
                  (fun s => _gl_score ests (slice_range X s) y)
                  (sections t k) (t, 0) (UnboundLocalError "score") Hin)
        as [e He].
      { now rewrite (_gl_score_no_slice ests _ y n c HX0). }
      rewrite He. exists e. reflexivity.
  - split; [| split].
    + unfold SearchLight._transform.
      rewrite (check_X_ok self X n c t HX), bind_ret_l.
      rewrite _check_method_returns, bind_ret_l.
      rewrite (shape_last_eq X [n; c] t HX), bind_ret_l.
      unfold SearchLight.get_estimators_. rewrite Hests.
      eexists. reflexivity.
    + unfold SearchLight.score.
      rewrite (check_X_ok self X n c t HX), bind_ret_l.
      rewrite (shape_last_eq X [n; c] t HX), bind_ret_l.
      unfold SearchLight.get_estimators_. rewrite Hests.
      eexists. reflexivity.
    + unfold GeneralizationLight.score, GeneralizationLight._check_Xy.
      fold k.
      rewrite (check_X_ok self X n c t HX), bind_ret_l.
      rewrite (array_split_eq X [n; c] t k HX Hk0), bind_lift_inr, parallel_map.
      rewrite result_bind.
      match goal with
      | |- context [parallel ?f (sections t k)] =>
          destruct (parallel_fails_in f (sections t k) (t, 0)
                      (AttributeError "estimators_") Hin) as [e He]
      end.
      { unfold SearchLight.get_estimators_. rewrite Hests. reflexivity. }
      rewrite He. exists e. reflexivity.
Qed.

Lemma X11_more_jobs_than_slices_never_returns_witness :
  (exists e, result (SearchLight._transform 4 (Inputs.ensemble Toy.scorer 3)
                       Inputs.X212 "predict") = inl e)
  /\ (exists e, result (SearchLight.score 4 (Inputs.ensemble Toy.scorer 3)
                          Inputs.X212 Inputs.y2) = inl e)
  /\ (exists e, result (GeneralizationLight.score 4
                          (Inputs.ensemble Toy.scorer 3)
                          Inputs.X212 Inputs.y2) = inl e).
Proof.
  apply (X11_more_jobs_than_slices_never_returns 4
           (Inputs.ensemble Toy.scorer 3) Inputs.X212 Inputs.y2 2 1 2
           "predict").
  - reflexivity.
  - vm_compute. lia.
Defined.


Section SingleSlices.

Context {E : Type} {MC : ModelCapability E}.




End SingleSlices.



(** ** Failures while fitting *)

Lemma fit_slice_failure {E : Type} {MC : ModelCapability E}
    (estimator : E) (X y : ndarray) (pre : list nat) (t i : nat) (e : exn) :
  shape X = pre ++ [t] -> i < t ->
  hasattr (clone estimator) "fit" = true ->
  fit_method (clone estimator) (slice_at X i) y = inl e ->
  fit_slice estimator X y i
  = ([Invoke estimator "clone" [];
      Invoke (clone estimator) "fit" [slice_at X i; y]], inl e).
Proof.
  intros HX Hi Hfit He. unfold fit_slice, call_clone.
  unfold bind at 1. cbv beta iota. unfold getattr_fit.
  rewrite Hfit, bind_ret_l.
  rewrite (getitem_last_eq X pre t i HX Hi), bind_lift_inr, He.
  reflexivity.
Qed.

Lemma seq_split_at (s i : nat) :
  i < s -> seq 0 s = seq 0 i ++ i :: seq (S i) (s - S i).
Proof.
  intros H. replace s with (i + S (s - S i)) at 1 by lia.
  rewrite seq_app. reflexivity.
Qed.

(** X13.  Fitting with one job stops at the first slice, in slice order, on
    which the clone's [fit] fails: the call raises that slice's exception,
    the calls made are one [clone] and one [fit] for each slice up to and
    including that one, and no model is fitted on a later slice. *)
Theorem X13_fit_stops_at_first_failure {E : Type} {MC : ModelCapability E}
    (n_cores : nat) (self : SearchLight.t) (X y : ndarray) (n c s : nat)
    (fitted : nat -> E) (i0 : nat) (e : exn) :
  shape X = [n; c; s] -> len y = inr n -> 0 < n ->
  parallel_func n_cores (SearchLight.n_jobs self) = 1 ->
  hasattr (clone (SearchLight.base_estimator self)) "fit" = true ->
  i0 < s ->
  (forall i, i < i0 ->
     fit_method (clone (SearchLight.base_estimator self)) (slice_at X i) y
     = inr (fitted i)) ->
  fit_method (clone (SearchLight.base_estimator self)) (slice_at X i0) y
  = inl e ->
  SearchLight.fit n_cores self X y
  = (flat_map (fun i =>
                 [Invoke (SearchLight.base_estimator self) "clone" [];
                  Invoke (clone (SearchLight.base_estimator self)) "fit"
                         [slice_at X i; y]]) (seq 0 (S i0)),
     inl e).
Proof.
  intros HX Hy Hn Hk Hfit Hi0 Hbefore Hfail.
  rewrite (fit_sequential n_cores self X y n c s HX Hy Hn ltac:(lia)).
  rewrite (seq_split_at s i0 Hi0).
  rewrite (parallel_prefix_failure _
             (fun i => [Invoke (SearchLight.base_estimator self) "clone" [];
                        Invoke (clone (SearchLight.base_estimator self)) "fit"
                               [slice_at X i; y]])
             fitted (seq 0 i0) i0 _
             [Invoke (SearchLight.base_estimator self) "clone" [];
              Invoke (clone (SearchLight.base_estimator self)) "fit"
                     [slice_at X i0; y]] e).
  - rewrite seq_S, flat_map_app. cbn [flat_map Nat.add].
    rewrite app_nil_r. reflexivity.
  - intros i Hi. apply in_seq in Hi.
    apply fit_slice_success with (pre := [n; c]) (t := s);
      [assumption | lia | assumption | apply Hbefore; lia].
  - now apply fit_slice_failure with (pre := [n; c]) (t := s).
Qed.

Lemma X13_fit_stops_at_first_failure_witness :
  SearchLight.fit 4 (Picky.ensemble 1) Picky.X213 Inputs.y2
  = (flat_map (fun i =>
                 [Invoke Picky.fresh "clone" [];
                  Invoke Picky.fresh "fit" [slice_at Picky.X213 i; Inputs.y2]])
              (seq 0 2),
     inl (ValueError "negative values in data")).
Proof.
  refine (X13_fit_stops_at_first_failure 4 (Picky.ensemble 1) Picky.X213
            Inputs.y2 2 1 3 (fun _ => Picky.trained) 1
            (ValueError "negative values in data") _ _ _ _ _ _ _ _).
  - reflexivity.
  - reflexivity.
  - lia.
  - reflexivity.
  - reflexivity.
  - lia.
  - intros i Hi. assert (i = 0) as -> by lia. reflexivity.
  - reflexivity.
Defined.

(** X14.  Fitting with a prototype whose clone has no [fit] attribute, on
    data with at least one slice: the call raises [AttributeError] for
    [fit].  With one job, the only call made before is one [clone]. *)
Theorem X14_fit_without_fit_method {E : Type} {MC : ModelCapability E}
    (n_cores : nat) (self : SearchLight.t) (X y : ndarray) (n c s : nat) :
  shape X = [n; c; s] -> len y = inr n -> 0 < n -> 0 < s ->
  0 < parallel_func n_cores (SearchLight.n_jobs self) ->
  hasattr (clone (SearchLight.base_estimator self)) "fit" = false ->
  result (SearchLight.fit n_cores self X y) = inl (AttributeError "fit")
  /\ (parallel_func n_cores (SearchLight.n_jobs self) = 1 ->
      calls (SearchLight.fit n_cores self X y)
      = [Invoke (SearchLight.base_estimator self) "clone" []]).
Proof.
  intros HX Hy Hn Hs Hk Hfit.
  rewrite (fit_sequential n_cores self X y n c s HX Hy Hn Hk).
  destruct s as [| s']; [lia |]. cbn [seq].
  rewrite (parallel_head_fails _ 0 (seq 1 s')
             [Invoke (SearchLight.base_estimator self) "clone" []]
             (AttributeError "fit")).
  - split; [reflexivity |]. intros _. reflexivity.
  - unfold fit_slice, call_clone. unfold bind at 1. cbv beta iota.
    unfold getattr_fit. rewrite Hfit. reflexivity.
Qed.

Lemma X14_fit_without_fit_method_witness :
  result (SearchLight.fit 4 (SearchLight.mk (Toy.mk ["predict"] [] None) 1 None)
            Inputs.X212 Inputs.y2)
  = inl (AttributeError "fit")
  /\ (parallel_func 4 1 = 1 ->
      calls (SearchLight.fit 4
               (SearchLight.mk (Toy.mk ["predict"] [] None) 1 None)
               Inputs.X212 Inputs.y2)
      = [Invoke (Toy.mk ["predict"] [] None) "clone" []]).
Proof.
  refine (X14_fit_without_fit_method 4
            (SearchLight.mk (Toy.mk ["predict"] [] None) 1 None)
            Inputs.X212 Inputs.y2 2 1 2 _ _ _ _ _ _).
  - reflexivity.
  - reflexivity.
  - lia.
  - lia.
  - vm_compute. lia.
  - reflexivity.
Defined.

(** ** Fitting, then applying *)

Lemma fit_result {E : Type} {MC : ModelCapability E}
    (n_cores : nat) (self : SearchLight.t) (X y : ndarray) (n c s : nat)
    (fitted : nat -> E) :
  shape X = [n; c; s] -> len y = inr n -> 0 < n ->
  0 < parallel_func n_cores (SearchLight.n_jobs self) ->
  hasattr (clone (SearchLight.base_estimator self)) "fit" = true ->
  (forall i, i < s ->
     fit_method (clone (SearchLight.base_estimator self)) (slice_at X i) y
     = inr (fitted i)) ->
  result (SearchLight.fit n_cores self X y)
  = inr (SearchLight.mk (SearchLight.base_estimator self)
           (SearchLight.n_jobs self) (Some (map fitted (seq 0 s)))).
Proof.
  intros HX Hy Hn Hk Hfit Hfitted.
  rewrite (fit_sequential n_cores self X y n c s HX Hy Hn Hk).
  rewrite (parallel_success _
             (fun i => [Invoke (SearchLight.base_estimator self) "clone" [];
                        Invoke (clone (SearchLight.base_estimator self)) "fit"
                               [slice_at X i; y]]) fitted).
  - reflexivity.
  - intros i Hi. apply in_seq in Hi.
    apply fit_slice_success with (pre := [n; c]) (t := s);
      [assumption | lia | assumption | apply Hfitted; lia].
Qed.

Lemma nth_error_map_seq {A : Type} (f : nat -> A) (s i : nat) (a : A) :
  nth_error (map f (seq 0 s)) i = Some a -> a = f i /\ i < s.
Proof.
  intros H. rewrite nth_error_map in H.
  destruct (nth_error (seq 0 s) i) as [j |] eqn:Hj; [| discriminate].
  apply nth_error_seq_inv in Hj. inversion H. destruct Hj as [-> Hi].
  split; [reflexivity | assumption].
Qed.

(** X15.  Fitting on [X] and then applying [method], in the same-slice
    mode, on a tensor [X'] with the same number of slices, with at most as
    many jobs as slices: the method is resolved on the prototype, and when
    its call on the model fitted on slice [i] of [X] and slice [i] of [X']
    returns an array [vs i] with one block of shape [tr] per sample, the
    result has shape (samples, slices, [tr]...), kind float64 for single
    values and integer otherwise, and its entry at sample [s] and slice [i]
    is the entry of [vs i] at sample [s], converted to that kind.
    [fit_transform(X, y)] is the case [X' = X] with the method
    [transform]. *)
Theorem X15_fit_then_apply {E : Type} {MC : ModelCapability E}
    (n_cores : nat) (tr : list nat) (vs : nat -> ndarray)
    (self : SearchLight.t) (X y X' : ndarray) (n c n' c' t : nat)
    (fitted : nat -> E) (method : string) :
  shape X = [n; c; t] -> len y = inr n -> 0 < n ->
  shape X' = [n'; c'; t] ->
  0 < parallel_func n_cores (SearchLight.n_jobs self) <= t ->
  hasattr (clone (SearchLight.base_estimator self)) "fit" = true ->
  (forall i, i < t ->
     fit_method (clone (SearchLight.base_estimator self)) (slice_at X i) y
     = inr (fitted i)) ->
  (forall i, i < t ->
     hasattr (fitted i) (resolved (SearchLight.base_estimator self) method)
     = true
     /\ apply_method (fitted i)
          (resolved (SearchLight.base_estimator self) method) (slice_at X' i)
        = inr (vs i)
     /\ shape (vs i) = n' :: tr) ->
  exists Y,
    result (self' <- SearchLight.fit n_cores self X y ;;
            SearchLight._transform n_cores self' X' method)%monad = inr Y
    /\ shape Y = n' :: t :: tr
    /\ dtype Y = out_kind tr
    /\ forall s i rest, s < n' -> i < t -> inb rest tr ->
         get Y (s :: i :: rest)
         = cast (dtype (vs i)) (out_kind tr) (get (vs i) (s :: rest)).
Proof.
  intros HX Hy Hn HX' Hk Hfit Hfitted Hap.
  eexists. split.
  - rewrite result_bind.
    rewrite (fit_result n_cores self X y n c t fitted HX Hy Hn (proj1 Hk)
               Hfit Hfitted).
    rewrite (SearchLight_transform_units n_cores _ X' n' c' t
               (map fitted (seq 0 t)) method
               (resolved (SearchLight.base_estimator self) method) tr vs).
    + reflexivity.
    + assumption.
    + reflexivity.
    + now rewrite length_map, length_seq.
    + assumption.
    + reflexivity.
    + intros i est Hest. apply nth_error_map_seq in Hest.
      destruct Hest as [-> Hi]. now apply Hap.
  - split; [reflexivity |]. split; [reflexivity |].
    intros s i rest Hs Hi Hrest.
    rewrite get_build by (repeat (constructor; try assumption)).
    reflexivity.
Qed.

Lemma X15_fit_then_apply_witness :
  exists Y,
    result (SearchLight.fit_transform 4
              (SearchLight.mk Toy.late_transformer 2 None)
              Inputs.X212 Inputs.y2) = inr Y
    /\ shape Y = [2; 2]
    /\ dtype Y = float_
    /\ forall s i rest, s < 2 -> i < 2 -> inb rest [] ->
         get Y (s :: i :: rest)
         = cast int_ float_
             (get (mk_nd [2] int_
                     (build [2]
                        (fun idx =>
                           trunc (Toy.weight
                                    (nth i (Inputs.fitted Toy.late_transformer)
                                       Toy.late_transformer)
                                  + Toy.sumQ (features Inputs.X212
                                                (hd 0 idx) i)))))
                  (s :: rest)).
Proof.
  refine (X15_fit_then_apply 4 []
            (fun i => mk_nd [2] int_
                        (build [2]
                           (fun idx =>
                              trunc (Toy.weight
                                       (nth i (Inputs.fitted Toy.late_transformer)
                                          Toy.late_transformer)
                                     + Toy.sumQ (features Inputs.X212
                                                   (hd 0 idx) i)))))
            (SearchLight.mk Toy.late_transformer 2 None)
            Inputs.X212 Inputs.y2 Inputs.X212 2 1 2 1 2
            (fun i => nth i (Inputs.fitted Toy.late_transformer)
                        Toy.late_transformer)
            "transform" _ _ _ _ _ _ _ _).
  - reflexivity.
  - reflexivity.
  - lia.
  - reflexivity.
  - vm_compute. lia.
  - reflexivity.
  - intros [| [| i]] Hi; [reflexivity | reflexivity | lia].
  - intros [| [| i]] Hi;
      [repeat split; vm_compute; reflexivity
      | repeat split; vm_compute; reflexivity
      | lia].
Defined.

(** X20.  Fitting on [X] and then applying [method], in the cross-slice
    mode, on a tensor [X'] with at least one sample, with at most as many
    jobs as slices of [X']: the method is resolved on the prototype, and
    when the fitted models are row-independent for it, with one value or
    one vector per sample, the result has shape (samples, models, slices,
    ...) and kind float64, and its entry at sample [s], model [i] and slice
    [j] is what the model fitted on slice [i] of [X] yields on the features
    of sample [s] in slice [j] of [X'], converted to float64.
    [fit_transform(X, y)] of the cross-slice class is the case [X' = X]
    with the method [transform]. *)
Theorem X20_fit_then_cross_apply {E : Type} {MC : ModelCapability E}
    (n_cores : nat) (tr : list nat) (ks : nat -> kind)
    (fs : nat -> list Q -> list nat -> Q)
    (self : SearchLight.t) (X y X' : ndarray) (n c n' c' t t' : nat)
    (fitted : nat -> E) (method : string) :
  shape X = [n; c; t] -> len y = inr n -> 0 < n -> 0 < t ->
  shape X' = [n'; c'; t'] -> 0 < n' ->
  0 < parallel_func n_cores (SearchLight.n_jobs self) <= t' ->
  length tr <= 1 ->
  hasattr (clone (SearchLight.base_estimator self)) "fit" = true ->
  (forall i, i < t ->
     fit_method (clone (SearchLight.base_estimator self)) (slice_at X i) y
     = inr (fitted i)) ->
  (forall i, i < t ->
     row_independent (fitted i)
       (resolved (SearchLight.base_estimator self) method) c' tr
       (ks i) (fs i)) ->
  exists Y,
    result (self' <- SearchLight.fit n_cores self X y ;;
            GeneralizationLight._transform n_cores self' X' method)%monad
    = inr Y
    /\ shape Y = n' :: t :: t' :: tr
    /\ dtype Y = float_
    /\ forall s i j rest, s < n' -> i < t -> j < t' -> inb rest tr ->
         get Y (s :: i :: j :: rest)
         = cast (ks i) float_ (fs i (features X' s j) rest).
Proof.
  intros HX Hy Hn Ht HX' Hn' Hk Htr Hfit Hfitted Hri.
  assert (Hlen : length (map fitted (seq 0 t)) = t)
    by now rewrite length_map, length_seq.
  eexists. split.
  - rewrite result_bind.
    rewrite (fit_result n_cores self X y n c t fitted HX Hy Hn (proj1 Hk)
               Hfit Hfitted).
    rewrite (GeneralizationLight_transform_blocks
               (resolved (SearchLight.base_estimator self) method) tr ks fs
               n_cores _ X' n' c' t' (map fitted (seq 0 t)) method).
    + reflexivity.
    + assumption.
    + assumption.
    + reflexivity.
    + lia.
    + assumption.
    + assumption.
    + reflexivity.
    + intros i est Hest. apply nth_error_map_seq in Hest.
      destruct Hest as [-> Hi]. now apply Hri.
  - split; [now rewrite Hlen |]. split; [reflexivity |].
    intros s i j rest Hs Hi Hj Hrest. unfold table3.
    rewrite get_build
      by (repeat (constructor; try assumption); rewrite Hlen; assumption).
    reflexivity.
Qed.

Lemma X20_fit_then_cross_apply_witness :
  exists Y,
    result (GeneralizationLight.fit_transform 4
              (SearchLight.mk Toy.late_transformer 2 None)
              Inputs.X212 Inputs.y2) = inr Y
    /\ shape Y = [2; 2; 2]
    /\ dtype Y = float_
    /\ forall s i j rest, s < 2 -> i < 2 -> j < 2 -> inb rest [] ->
         get Y (s :: i :: j :: rest)
         = cast int_ float_
             (trunc (Toy.weight (nth i (Inputs.fitted Toy.late_transformer)
                                     Toy.late_transformer)
                     + Toy.sumQ (features Inputs.X212 s j))).
Proof.
  refine (X20_fit_then_cross_apply 4 [] (fun _ => int_)
            (fun i r _ =>
               trunc (Toy.weight (nth i (Inputs.fitted Toy.late_transformer)
                                     Toy.late_transformer)
                      + Toy.sumQ r))
            (SearchLight.mk Toy.late_transformer 2 None)
            Inputs.X212 Inputs.y2 Inputs.X212 2 1 2 1 2 2
            (fun i => nth i (Inputs.fitted Toy.late_transformer)
                        Toy.late_transformer)
            "transform" _ _ _ _ _ _ _ _ _ _ _).
  - reflexivity.
  - reflexivity.
  - lia.
  - lia.
  - reflexivity.
  - lia.
  - vm_compute. lia.
  - simpl. lia.
  - reflexivity.
  - intros [| [| i]] Hi; [reflexivity | reflexivity | lia].
  - intros [| [| i]] Hi;
      [apply toy_predict_row_independent; reflexivity
      | apply toy_predict_row_independent; reflexivity
      | lia].
Defined.

(** ** An ensemble without models *)

(** X16.  Cross-slice apply and cross-slice scoring on a fitted ensemble
    that holds no model (as after fitting on data without slices): the
    loop over the models never runs, and the call raises
    [UnboundLocalError], for [y_pred] and for [score], without calling
    anything. *)
Theorem X16_cross_slice_empty_ensemble {E : Type} {MC : ModelCapability E}
    (n_cores : nat) (self : SearchLight.t (E := E)) (X y : ndarray)
    (n c t : nat) (method : string) :
  shape X = [n; c; t] ->
  SearchLight.estimators_ self = Some [] ->
  0 < parallel_func n_cores (SearchLight.n_jobs self) ->
  GeneralizationLight._transform n_cores self X method
  = ([], inl (UnboundLocalError "y_pred"))
  /\ GeneralizationLight.score n_cores self X y
     = ([], inl (UnboundLocalError "score")).
Proof.
  intros HX Hests Hk.
  set (k := parallel_func n_cores (SearchLight.n_jobs self)) in *.
  pose proof (sections_length t k Hk) as Hlen.
  split.
  - rewrite (GeneralizationLight_transform_dispatch n_cores self X n c t []
               method HX Hests Hk).
    fold k. destruct (sections t k) as [| sec secs]; [simpl in Hlen; lia |].
    rewrite (parallel_head_fails _ sec secs [] (UnboundLocalError "y_pred")).
    + reflexivity.
    + unfold _gl_transform, slice_range.
      rewrite (shape_slice_last X [n; c] t (fst sec) (snd sec) HX).
      reflexivity.
  - rewrite (GeneralizationLight_score_dispatch n_cores self X y n c t []
               HX Hests Hk).
    fold k. destruct (sections t k) as [| sec secs]; [simpl in Hlen; lia |].
    rewrite (parallel_head_fails _ sec secs [] (UnboundLocalError "score")).
    + reflexivity.
    + unfold _gl_score, slice_range.
      rewrite (shape_slice_last X [n; c] t (fst sec) (snd sec) HX).
      reflexivity.
Qed.

Lemma X16_cross_slice_empty_ensemble_witness :
  GeneralizationLight._transform 4 (SearchLight.mk Toy.scorer 1 (Some []))
    Inputs.X212 "predict"
  = ([], inl (UnboundLocalError "y_pred"))
  /\ GeneralizationLight.score 4 (SearchLight.mk Toy.scorer 1 (Some []))
       Inputs.X212 Inputs.y2
     = ([], inl (UnboundLocalError "score")).
Proof.
  refine (X16_cross_slice_empty_ensemble 4
            (SearchLight.mk Toy.scorer 1 (Some [])) Inputs.X212 Inputs.y2
            2 1 2 "predict" _ _ _).
  - reflexivity.
  - reflexivity.
  - vm_compute. lia.
Defined.
